(** * Nanoparticle scoring engine ([core/scoring.py]): embedding and properties

    The engine is a handful of pure Python functions over a [design] dict.
    The embedding below follows the source statement by statement.

    - Numbers.  Python's [float] is IEEE-754 binary64.  The functions are
      written once over an arithmetic signature [arith] and read at two
      instances: [B64], the kernel's primitive binary64 floats (the arithmetic
      the program runs on, with rounding, signed zeros, infinities and NaN),
      and [Exact], the rationals [Q]: the arithmetic of the formulas on
      paper, and the arithmetic Python itself does where a function is given
      ints and makes no float of them ([validate_parameter],
      [get_recommendations]).  [compute_impact] and
      [overall_score_from_impact] always compute in binary64, so what is
      claimed of them is stated at [B64].  Integer literals and
      integer-valued fields of the source are read as the floats they
      convert to.
    - Failure.  [d["k"]] raises [KeyError] on a missing key, [/] raises
      [ZeroDivisionError] on a zero divisor and unpacking a list of the wrong
      length raises [ValueError]; the functions live in an error monad.
    - Data.  A design is the dict restricted to the keys the engine reads,
      one optional field per key ([None]: the key is absent).

    The rest of [core/] follows the engine: the session state and the tab
    registry ([core/state.py], module [State]), the dependency checks
    ([core/deps.py], module [Deps]) and the tab runner
    ([core/tab_runner.py], module [TabRunner]). *)

From Stdlib Require Import Bool List String ZArith Zpower.
From Stdlib Require Import QArith Qpower Qfield Qabs Qminmax Lia Lqa.
From Stdlib Require Import Floats.
From Stdlib Require Uint63.
From Stdlib Require Sorted Permutation.
Import ListNotations.

Set Warnings "-inexact-float".
Local Open Scope string_scope.

(** ** Exceptions *)

Inductive error : Type :=
| KeyError (key : string)
| ZeroDivisionError
| ValueError.

Inductive result (A : Type) : Type :=
| Ok (a : A)
| Raised (e : error).
Arguments Ok {A} a.
Arguments Raised {A} e.

Definition bind {A B : Type} (m : result A) (k : A -> result B) : result B :=
  match m with
  | Ok a => k a
  | Raised e => Raised e
  end.

Notation "x <- m ;; k" := (bind m (fun x => k))
  (at level 61, m at next level, right associativity).

Lemma Ok_inj {A : Type} (a b : A) : Ok a = Ok b -> a = b.
Proof. intros H. congruence. Qed.

(** ** Arithmetic signature *)

Record arith : Type := Arith {
  num :> Type;
  lit : Q -> num;               (* a numeric literal of the source *)
  add : num -> num -> num;
  sub : num -> num -> num;
  mul : num -> num -> num;
  quot : num -> num -> num;     (* the quotient, for a divisor that is not zero *)
  absv : num -> num;
  eqb : num -> num -> bool;
  ltb : num -> num -> bool;
  leb : num -> num -> bool
}.

(** *** Binary64 *)

(** [int -> float] for an integer below [2^63] in magnitude (exact below
    [2^53], rounded to nearest even above). *)
Definition float_of_Z (z : Z) : float :=
  match z with
  | Z0 => PrimFloat.zero
  | Zpos _ => PrimFloat.of_uint63 (Uint63.of_Z z)
  | Zneg p => PrimFloat.opp (PrimFloat.of_uint63 (Uint63.of_Z (Zpos p)))
  end.

(** A decimal literal [n/d]: numerator and denominator are exact in binary64
    for every literal of the source, so the correctly rounded quotient is the
    double nearest to the literal. *)
Definition float_lit (q : Q) : float :=
  PrimFloat.div (float_of_Z (Qnum q)) (float_of_Z (Zpos (Qden q))).

Definition B64 : arith := {|
  num := float;
  lit := float_lit;
  add := PrimFloat.add;
  sub := PrimFloat.sub;
  mul := PrimFloat.mul;
  quot := PrimFloat.div;
  absv := PrimFloat.abs;
  eqb := PrimFloat.eqb;
  ltb := PrimFloat.ltb;
  leb := PrimFloat.leb
|}.

(** *** Exact rationals *)

Definition Exact : arith := {|
  num := Q;
  lit := fun q => q;
  add := Qplus;
  sub := Qminus;
  mul := Qmult;
  quot := Qdiv;
  absv := Qabs;
  eqb := Qeq_bool;
  ltb := fun x y => negb (Qle_bool y x);
  leb := Qle_bool
|}.

Canonical Structure B64.
Canonical Structure Exact.

(** ** The engine *)

Section Scoring.

Variable N : arith.

Declare Scope num_scope.
Local Notation "x + y" := (add N x y) : num_scope.
Local Notation "x - y" := (sub N x y) : num_scope.
Local Notation "x * y" := (mul N x y) : num_scope.
Local Notation "x =? y" := (eqb N x y) : num_scope.
Local Notation "x <? y" := (ltb N x y) : num_scope.
Local Notation "x <=? y" := (leb N x y) : num_scope.
Local Notation "x >? y" := (ltb N y x) : num_scope.
Local Notation "x >=? y" := (leb N y x) : num_scope.
Local Notation "'abs' x" := (absv N x) (at level 10) : num_scope.
Local Notation "# q" := (lit N q%Q) (at level 1, format "# q") : num_scope.
Local Open Scope num_scope.

(** *** Python built-ins *)

(** [x / y] *)
Definition truediv (x y : N) : result N :=
  if y =? #0 then Raised ZeroDivisionError else Ok (quot N x y).
Local Notation "x / y" := (truediv x y) : num_scope.

(** [min(a, b)]: the first argument unless the second is smaller. *)
Definition py_min (a b : N) : N := if b <? a then b else a.

(** [max(a, b)]: the first argument unless the second is greater. *)
Definition py_max (a b : N) : N := if b >? a then b else a.

(** [bool(x)] of a number. *)
Definition truthy (x : N) : bool := negb (x =? #0).

(** [d[key]] and [d.get(key, default)] on an optional field. *)
Definition getitem {A : Type} (key : string) (v : option A) : result A :=
  match v with
  | Some x => Ok x
  | None => Raised (KeyError key)
  end.

Definition get {A : Type} (v : option A) (default : A) : A :=
  match v with
  | Some x => x
  | None => default
  end.

(** [np.maximum], [np.minimum] and [np.clip] of NumPy on scalars: a NaN
    operand is returned; [clip(x, lo, hi) = minimum(maximum(x, lo), hi)]. *)
Definition is_nan (x : N) : bool := negb (x =? x).
Definition np_maximum (a b : N) : N := if (a >=? b) || is_nan a then a else b.
Definition np_minimum (a b : N) : N := if (a <=? b) || is_nan a then a else b.
Definition np_clip (x lo hi : N) : N := np_minimum (np_maximum x lo) hi.

(** *** Data *)

Record design : Type := Design {
  Size : option N;
  Charge : option N;
  Encapsulation : option N;
  PDI : option N;
  HydrodynamicSize : option N;
  Stability : option N;
  SurfaceArea : option N;
  DegradationTime : option N;
  Material : option string
}.

Record impact : Type := Impact {
  Delivery : N;
  Toxicity : N;
  Cost : N
}.

(** *** [compute_impact] *)

Definition size_score (size : N) : result N :=
  if (#80 <=? size) && (size <=? #120) then Ok #100
  else if size <? #80 then
    r <- size / #80 ;; Ok (r * #100)
  else
    h <- (size - #120) / #2 ;; Ok (py_max #0 (#100 - h)).

Definition charge_score (charge : N) : N :=
  if abs charge <=? #10 then #100
  else py_max #0 (#100 - (abs charge - #10) * #3).

Definition pdi_score (pdi : N) : N := py_max #0 (#100 - pdi * #200).

Definition size_ratio (hyd_size size : N) : result N :=
  if truthy size then hyd_size / size else Ok #1.0.

Definition hydrodynamic_score (size_ratio : N) : N :=
  if (#1.0 <=? size_ratio) && (size_ratio <=? #1.3) then #100
  else py_max #0 (#100 - abs (size_ratio - #1.15) * #50).

Definition delivery (size_score charge_score encap_score pdi_score
                     hydrodynamic_score stability : N) : N :=
  size_score * #0.25
  + charge_score * #0.20
  + encap_score * #0.25
  + pdi_score * #0.15
  + hydrodynamic_score * #0.10
  + stability * #0.05.

Definition base_toxicity (charge size : N) : result N :=
  c <- abs charge / #10 ;;
  s <- py_max #0 (abs (size - #100)) / #50 ;;
  Ok (py_min #10 (c + s)).

Definition degradation_toxicity (degradation_time : N) : result N :=
  t <- (degradation_time - #30) / #30 ;; Ok (py_max #0 t).

Definition base_cost (encap_score size : N) : result N :=
  s <- size / #4 ;;
  Ok (py_min #100 ((#100 - encap_score) * #0.8 + s)).

Definition pdi_cost (pdi : N) : N := (#0.2 - py_min pdi #0.2) * #100.

Definition degradation_cost (degradation_time : N) : result N :=
  t <- (degradation_time - #60) / #10 ;; Ok (py_max #0 t).

Definition compute_impact (d : design) : result impact :=
  size <- getitem "Size" (Size d) ;;
  size_score <- size_score size ;;
  charge <- getitem "Charge" (Charge d) ;;
  let charge_score := charge_score charge in
  encap_score <- getitem "Encapsulation" (Encapsulation d) ;;
  let pdi := get (PDI d) #0.15 in
  let hyd_size := get (HydrodynamicSize d) (size * #1.2) in
  let stability := get (Stability d) #85 in
  let surface_area := get (SurfaceArea d) #250 in
  let degradation_time := get (DegradationTime d) #30 in
  let pdi_score := pdi_score pdi in
  size_ratio <- size_ratio hyd_size size ;;
  let hydrodynamic_score := hydrodynamic_score size_ratio in
  let delivery := delivery size_score charge_score encap_score pdi_score
                           hydrodynamic_score stability in
  base_toxicity <- base_toxicity charge size ;;
  let pdi_toxicity := pdi * #2 in
  degradation_toxicity <- degradation_toxicity degradation_time ;;
  let toxicity :=
    py_min #10 (base_toxicity + pdi_toxicity + degradation_toxicity) in
  base_cost <- base_cost encap_score size ;;
  surface_area_cost <- surface_area / #20 ;;
  let pdi_cost := pdi_cost pdi in
  degradation_cost <- degradation_cost degradation_time ;;
  let cost :=
    py_min #100 (base_cost + surface_area_cost + pdi_cost + degradation_cost) in
  Ok {| Delivery := delivery; Toxicity := toxicity; Cost := cost |}.

(** *** [get_recommendations] *)

Definition msg_increase_size : string :=
  "🔴 **Increase size to 80–120nm** for better stability and circulation".
Definition msg_reduce_size : string :=
  "🔴 **Reduce size to 80–120nm** for better cellular uptake".
Definition msg_lower_charge : string :=
  "🟡 **Lower surface charge** to ±10mV for reduced toxicity".
Definition msg_reduce_charge : string :=
  "🟡 **Reduce charge** closer to neutral for optimal safety".
Definition msg_improve_encapsulation : string :=
  "🔴 **Improve encapsulation to >80%** for better drug delivery efficiency".
Definition msg_aim_encapsulation : string :=
  "🟡 **Aim for >85% encapsulation** for optimal performance".
Definition msg_excellent : string :=
  "✅ **Excellent design!** All parameters are within optimal ranges".

(** [recommendations.append(msg)] *)
Definition append (recommendations : list string) (msg : string) : list string :=
  recommendations ++ [msg].

Definition get_recommendations (d : design) : result (list string) :=
  let recommendations := [] in
  size <- getitem "Size" (Size d) ;;
  let recommendations :=
    if size <? #80 then append recommendations msg_increase_size
    else if size >? #150 then append recommendations msg_reduce_size
    else recommendations in
  charge <- getitem "Charge" (Charge d) ;;
  let recommendations :=
    if abs charge >? #15 then append recommendations msg_lower_charge
    else if abs charge >? #10 then append recommendations msg_reduce_charge
    else recommendations in
  encapsulation <- getitem "Encapsulation" (Encapsulation d) ;;
  let recommendations :=
    if encapsulation <? #70 then append recommendations msg_improve_encapsulation
    else if encapsulation <? #85 then append recommendations msg_aim_encapsulation
    else recommendations in
  let recommendations :=
    match recommendations with
    | [] => append recommendations msg_excellent
    | _ :: _ => recommendations
    end in
  Ok recommendations.

(** *** [validate_parameter] *)

Definition status_ok : string := "✅".
Definition status_warning : string := "🟡".
Definition status_bad : string := "🔴".

Definition validate_parameter (param : string) (value : N)
                              (optimal_range : list N) : result string :=
  match optimal_range with
  | [lo; hi] =>
      if (lo <=? value) && (value <=? hi) then Ok status_ok
      else if (abs (value - lo) <? #20) || (abs (value - hi) <? #20)
           then Ok status_warning
           else Ok status_bad
  | _ => Raised ValueError
  end.

(** *** [regulatory_checklist] *)

(** [v in l], for [v] the value of [d.get(key)] ([None] when absent). *)
Definition contains (l : list string) (v : option string) : bool :=
  match v with
  | Some x => existsb (String.eqb x) l
  | None => false
  end.

(** [int -> float] *)
Definition of_int (n : nat) : N := lit N (inject_Z (Z.of_nat n)).

Definition checklist (d : design) : result (list (string * bool)) :=
  size <- getitem "Size" (Size d) ;;
  charge <- getitem "Charge" (Charge d) ;;
  encapsulation <- getitem "Encapsulation" (Encapsulation d) ;;
  Ok [ ("Size < 200nm", size <=? #200);
       ("PDI < 0.3", get (PDI d) #0.15 <? #0.3);
       ("Charge within ±30mV", abs charge <=? #30);
       ("Encapsulation > 70%", encapsulation >=? #70);
       ("Stability > 80%", get (Stability d) #85 >=? #80);
       ("Material approved for medical use",
          contains ["Lipid NP"; "PLGA"] (Material d));
       ("Degradation products characterized",
          get (DegradationTime d) #30 <? #90);
       ("Sterilization method defined", true) ].

Definition regulatory_checklist (d : design) : result N :=
  checklist <- checklist d ;;
  let passed := List.length (filter (fun v => v) (map snd checklist)) in
  let total := List.length checklist in
  r <- of_int passed / of_int total ;;
  Ok (r * #100.0).

(** *** [overall_score_from_impact] *)

Definition overall_score_from_impact (i : impact) : N :=
  np_clip (Delivery i * #0.6
           + (#10 - Toxicity i) * #3
           + (#100 - Cost i) * #0.1)
          #0 #100.

End Scoring.

Arguments Design {N}.
Arguments Impact {N}.

(** ** Designs used as examples *)

(** [{Size: 100, Charge: 5, Encapsulation: 85}], every optional key absent. *)
Definition example_design (N : arith) : design N :=
  Design (Some (lit N 100)) (Some (lit N 5)) (Some (lit N 85))
         None None None None None None.

(** ** When does the engine return?

    [divisors] are the literals the source divides by.  In an arithmetic
    where none of them is zero, the only division that can fail is the one by
    [d["Size"]]. *)

Definition divisors : list Q := [80; 2; 10; 50; 30; 4; 20; 8]%Q.

Definition nonzero_divisors (N : arith) : Prop :=
  forall q, In q divisors -> eqb N (lit N q) (lit N 0) = false.

(** * Session state and tab registry ([core/state.py])

    [st.session_state] is read and written through membership, item
    assignment and [get] only.  It is embedded as an association list that
    holds each key once; the order of its entries stands for nothing (the
    session state of Streamlit promises none, and the code never iterates
    over it), so every property of the session state is stated through
    lookups.  [DEFAULTS] and the overrides are Python dicts, iterated in
    their insertion order.  The functions take the session state in and give
    the new one back. *)

Module State.

#[local] Set Warnings "-register-all".

(** The values the defaults hold: booleans, strings, lists and dicts. *)
Inductive value : Type :=
| VBool (b : bool)
| VStr (s : string)
| VList (l : list value)
| VDict (d : list (string * value)).

Definition session : Type := list (string * value).

(** [d.get(k)]: the value of the first entry with key [k]. *)
Fixpoint lookup (k : string) (d : session) : option value :=
  match d with
  | [] => None
  | (k', v) :: d' => if String.eqb k k' then Some v else lookup k d'
  end.

(** [k in d] *)
Definition contains_key (k : string) (d : session) : bool :=
  match lookup k d with
  | Some _ => true
  | None => false
  end.

(** [d[k] = v] *)
Fixpoint setitem (k : string) (v : value) (d : session) : session :=
  match d with
  | [] => [(k, v)]
  | (k', v') :: d' =>
      if String.eqb k k' then (k, v) :: d' else (k', v') :: setitem k v d'
  end.

(** [d.get(k, default)] *)
Definition get_default (k : string) (default : value) (d : session) : value :=
  match lookup k d with
  | Some v => v
  | None => default
  end.

Definition DEFAULTS : session :=
  [ ("plotly_ok", VBool true);
    ("sklearn_ok", VBool true);
    ("py3dmol_ok", VBool true);
    ("rdkit_ok", VBool false);
    ("active_tab", VStr "Home");
    ("sidebar_collapsed", VBool false);
    ("materials", VList []);
    ("designs", VList []);
    ("delivery_plan", VDict []);
    ("toxicity_results", VDict []);
    ("cost_results", VDict []);
    ("protocol_steps", VList []);
    ("quiz_state", VDict []);
    ("debug", VBool false) ].

(** One turn of either loop of [init_state]:
    [if k not in st.session_state: st.session_state[k] = v]. *)
Definition set_if_absent (session_state : session) (kv : string * value)
    : session :=
  let '(k, v) := kv in
  if negb (contains_key k session_state) then setitem k v session_state
  else session_state.

Definition init_state (overrides : option session) (session_state : session)
    : session :=
  let overrides :=
    match overrides with
    | None => []
    | Some o => o
    end in
  let session_state := fold_left set_if_absent DEFAULTS session_state in
  fold_left set_if_absent overrides session_state.

Definition ensure_state (session_state : session) : session :=
  init_state None session_state.

(** The frozen dataclass [TabSpec]. *)
Record TabSpec : Type := {
  key : string;
  title : string;
  module : string;
  order : Z;
  enabled : bool
}.

Definition TAB_SPECS : list TabSpec :=
  [ {| key := "home"; title := "Home"; module := "tabs.home";
       order := 10; enabled := true |};
    {| key := "materials"; title := "Materials"; module := "tabs.materials";
       order := 20; enabled := true |};
    {| key := "design"; title := "Design"; module := "tabs.design";
       order := 30; enabled := true |};
    {| key := "delivery"; title := "Delivery"; module := "tabs.delivery";
       order := 40; enabled := true |};
    {| key := "toxicity"; title := "Toxicity"; module := "tabs.toxicity";
       order := 50; enabled := true |};
    {| key := "cost"; title := "Cost"; module := "tabs.cost";
       order := 60; enabled := true |};
    {| key := "protocol"; title := "Protocol"; module := "tabs.protocol";
       order := 70; enabled := true |};
    {| key := "quiz"; title := "Quiz"; module := "tabs.quiz";
       order := 80; enabled := true |};
    {| key := "view3d"; title := "3D View"; module := "tabs.view3d";
       order := 90; enabled := true |};
    {| key := "optimize"; title := "Optimize"; module := "tabs.optimize";
       order := 100; enabled := true |} ].

(** [sorted(l, key=...)]: Python's sort is stable, and a stable sort has one
    possible result; it is computed here by insertion, each element going in
    front of the first one whose key is not smaller. *)
Fixpoint insert_sorted {A : Type} (key : A -> Z) (x : A) (l : list A)
    : list A :=
  match l with
  | [] => [x]
  | y :: l' =>
      if (key x <=? key y)%Z then x :: l else y :: insert_sorted key x l'
  end.

Definition sorted {A : Type} (key : A -> Z) (l : list A) : list A :=
  fold_right (insert_sorted key) [] l.

(** The body of [get_available_tabs], for any registry. *)
Definition available_tabs (specs : list TabSpec) : list TabSpec :=
  let tabs := filter enabled specs in
  sorted order tabs.

Definition get_available_tabs : list TabSpec := available_tabs TAB_SPECS.

Definition get_tab_titles : list string := map title get_available_tabs.

Definition set_active_tab (title : string) (session_state : session)
    : session :=
  setitem "active_tab" (VStr title) session_state.

Definition get_active_tab (session_state : session) : value :=
  get_default "active_tab" (VStr "Home") session_state.

End State.

(** * Optional dependencies ([core/deps.py])

    Whether a module can be imported is a fact of the environment: the checks
    take it as a predicate on module names.  [st.warning] and [st.info]
    append one event to the page. *)

Module Deps.

Inductive event : Type :=
| warning (body : string)
| info (body : string).

(** [try: import ...; return True / except Exception: return False] *)
Definition check_plotly (importable : string -> bool) : bool :=
  if importable "plotly.graph_objects" then
    if importable "plotly.express" then true else false
  else false.

Definition check_sklearn (importable : string -> bool) : bool :=
  if importable "sklearn" then true else false.

Definition msg_sklearn : string :=
  "⚠️ scikit-learn not available. AI optimization disabled. Install: `pip install scikit-learn`".
Definition msg_plotly : string :=
  "ℹ️ Plotly not available. 3D module will be disabled. Install: `pip install plotly`".

Definition warn_missing_deps (plotly_ok sklearn_ok : bool)
    (page : list event) : list event :=
  let page := if negb sklearn_ok then (page ++ [warning msg_sklearn])%list
              else page in
  let page := if negb plotly_ok then (page ++ [info msg_plotly])%list
              else page in
  page.

End Deps.

(** * Calling a tab ([core/tab_runner.py])

    A tab module is known by its name and by its [render] attribute, if it
    has one; of [render] the runner reads the signature only, the ordered
    parameters with their kinds.  [safe_render] either raises
    [AttributeError] or calls [render] with some of the keyword arguments it
    was given: the outcome records which. *)

Module TabRunner.

(** [inspect.Parameter.kind] *)
Inductive kind : Type :=
| POSITIONAL_ONLY
| POSITIONAL_OR_KEYWORD
| VAR_POSITIONAL
| KEYWORD_ONLY
| VAR_KEYWORD.

Definition kind_eqb (a b : kind) : bool :=
  match a, b with
  | POSITIONAL_ONLY, POSITIONAL_ONLY
  | POSITIONAL_OR_KEYWORD, POSITIONAL_OR_KEYWORD
  | VAR_POSITIONAL, VAR_POSITIONAL
  | KEYWORD_ONLY, KEYWORD_ONLY
  | VAR_KEYWORD, VAR_KEYWORD => true
  | _, _ => false
  end.

(** [inspect.signature(fn).parameters]: names and kinds, in order. *)
Definition signature : Type := list (string * kind).

Record tab_module : Type := {
  __name__ : string;
  render : option signature
}.

Section Kwargs.

(** The type of the values passed by keyword. *)
Variable V : Type.

Inductive outcome : Type :=
| Called (sig : signature) (kwargs : list (string * V))
| AttributeError (message : string).

(** [k in allowed], for the set [allowed] of parameter names. *)
Definition mem (k : string) (allowed : list string) : bool :=
  existsb (String.eqb k) allowed.

Definition safe_render (tab_module : tab_module)
    (kwargs : list (string * V)) : outcome :=
  match render tab_module with
  | None =>
      AttributeError
        ("Tab module '" ++ __name__ tab_module ++ "' has no render() function.")
  | Some sig =>
      if existsb (fun p => kind_eqb (snd p) VAR_KEYWORD) sig
      then Called sig kwargs
      else
        let allowed := map fst sig in
        let filtered := filter (fun kv => mem (fst kv) allowed) kwargs in
        Called sig filtered
  end.

(** Python's binding of a call made with keyword arguments only: the
    keyword [k] is accepted
    when a parameter of that name can be passed by keyword or the function
    has a variadic keyword parameter; otherwise the call raises
    [TypeError]. *)
Definition by_keyword (k : kind) : bool :=
  match k with
  | POSITIONAL_OR_KEYWORD | KEYWORD_ONLY => true
  | _ => false
  end.

Definition accepts (sig : signature) (k : string) : bool :=
  existsb (fun p => String.eqb k (fst p) && by_keyword (snd p)) sig
  || existsb (fun p => kind_eqb (snd p) VAR_KEYWORD) sig.

End Kwargs.

Arguments Called {V}.
Arguments AttributeError {V}.
Arguments safe_render {V}.

End TabRunner.

(** * Properties of the scoring engine *)

(** ** Order facts of binary64

    Comparisons of primitive floats are specified on [spec_float] by
    [SFcompare], a lexicographic comparison of sign, exponent and mantissa.
    The facts below need no rounding: they hold of the comparison alone. *)

Module B64Order.

Local Open Scope float_scope.

Ltac sf_destruct :=
  repeat match goal with
         | x : spec_float |- _ => destruct x as [[]|[]| |[] ? ?]
         end.

Ltac sf_compare :=
  cbn [SFltb SFleb SFeqb SFcompare CompOpp option_map] in *;
  change (Pos.compare_cont Eq) with Pos.compare in *;
  repeat match goal with
         | |- context [Z.compare ?a ?b] => destruct (Z.compare_spec a b)
         | H : context [Z.compare ?a ?b] |- _ => destruct (Z.compare_spec a b)
         | |- context [Pos.compare ?a ?b] => destruct (Pos.compare_spec a b)
         | H : context [Pos.compare ?a ?b] |- _ => destruct (Pos.compare_spec a b)
         end;
  cbn [CompOpp] in *;
  try solve [congruence | lia].

Ltac sf_order := intros; sf_destruct; sf_compare.

Lemma SFcompare_antisym (x y : spec_float) :
  SFcompare y x = option_map CompOpp (SFcompare x y).
Proof. sf_order. Qed.

Lemma SFltb_SFleb (x y : spec_float) : SFltb x y = true -> SFleb x y = true.
Proof. unfold SFltb, SFleb. destruct (SFcompare x y) as [[]|]; congruence. Qed.

Lemma SFltb_not_SFleb (x y : spec_float) : SFltb x y = true -> SFleb y x = false.
Proof.
  unfold SFltb, SFleb. rewrite (SFcompare_antisym x y).
  destruct (SFcompare x y) as [[]|]; cbn; congruence.
Qed.

Lemma SFleb_not_SFltb (x y : spec_float) : SFleb x y = true -> SFltb y x = false.
Proof.
  unfold SFltb, SFleb. rewrite (SFcompare_antisym x y).
  destruct (SFcompare x y) as [[]|]; cbn; congruence.
Qed.

Lemma SFltb_trans (x y z : spec_float) :
  SFltb x y = true -> SFltb y z = true -> SFltb x z = true.
Proof. sf_order. Qed.

Lemma SFleb_trans (x y z : spec_float) :
  SFleb x y = true -> SFleb y z = true -> SFleb x z = true.
Proof. sf_order. Qed.

Lemma SFleb_SFltb_trans (x y z : spec_float) :
  SFleb x y = true -> SFltb y z = true -> SFltb x z = true.
Proof. sf_order. Qed.

Lemma SFltb_SFleb_trans (x y z : spec_float) :
  SFltb x y = true -> SFleb y z = true -> SFltb x z = true.
Proof. sf_order. Qed.

Lemma ltb_leb (x y : float) : (x <? y) = true -> (x <=? y) = true.
Proof. rewrite ltb_spec, leb_spec. apply SFltb_SFleb. Qed.

Lemma ltb_not_leb (x y : float) : (x <? y) = true -> (y <=? x) = false.
Proof. rewrite ltb_spec, leb_spec. apply SFltb_not_SFleb. Qed.

Lemma leb_not_ltb (x y : float) : (x <=? y) = true -> (y <? x) = false.
Proof. rewrite ltb_spec, leb_spec. apply SFleb_not_SFltb. Qed.

Lemma ltb_trans (x y z : float) :
  (x <? y) = true -> (y <? z) = true -> (x <? z) = true.
Proof. rewrite !ltb_spec. apply SFltb_trans. Qed.

Lemma leb_trans (x y z : float) :
  (x <=? y) = true -> (y <=? z) = true -> (x <=? z) = true.
Proof. rewrite !leb_spec. apply SFleb_trans. Qed.

Lemma leb_ltb_trans (x y z : float) :
  (x <=? y) = true -> (y <? z) = true -> (x <? z) = true.
Proof. rewrite !leb_spec, !ltb_spec. apply SFleb_SFltb_trans. Qed.

Lemma ltb_leb_trans (x y z : float) :
  (x <? y) = true -> (y <=? z) = true -> (x <? z) = true.
Proof. rewrite !leb_spec, !ltb_spec. apply SFltb_SFleb_trans. Qed.

Lemma ltb_irrefl (x : float) : (x <? x) = false.
Proof.
  destruct (x <? x) eqn:E; [|reflexivity].
  pose proof (ltb_not_leb _ _ E) as H. apply ltb_leb in E. congruence.
Qed.

End B64Order.


(** ** Rounding of binary64, from its specification

    The operations of [spec_float] are shown to round the exact result of
    the operation on the values, with one rounding function that is
    monotone; the order of the results then follows from the order of the
    exact values. *)

Module B64Round.

Local Open Scope Z_scope.

(** *** Digits *)

Lemma pow2_succ (d : Z) : 0 <= d -> 2 ^ (d + 1) = 2 * 2 ^ d.
Proof. intros H. rewrite Z.pow_add_r by lia. lia. Qed.

Lemma pow2_pos (d : Z) : 0 <= d -> 0 < 2 ^ d.
Proof. intros H. apply Z.pow_pos_nonneg; lia. Qed.

Lemma digits2_pos_bounds (p : positive) :
  2 ^ (Zpos (digits2_pos p) - 1) <= Zpos p < 2 ^ Zpos (digits2_pos p).
Proof.
  induction p as [p IH|p IH|]; cbn [digits2_pos].
  - rewrite Pos2Z.inj_succ. revert IH.
    generalize (Zpos (digits2_pos p)) (Pos2Z.is_pos (digits2_pos p)).
    intros d Hd IH.
    replace (Z.succ d - 1) with ((d - 1) + 1) by lia.
    replace (Z.succ d) with (d + 1) by lia.
    rewrite !pow2_succ by lia. lia.
  - rewrite Pos2Z.inj_succ. revert IH.
    generalize (Zpos (digits2_pos p)) (Pos2Z.is_pos (digits2_pos p)).
    intros d Hd IH.
    replace (Z.succ d - 1) with ((d - 1) + 1) by lia.
    replace (Z.succ d) with (d + 1) by lia.
    rewrite !pow2_succ by lia. lia.
  - cbn. lia.
Qed.

(** The number of binary digits of a non-negative integer is characterized by
    the powers of two around it. *)
Lemma Zdigits2_bounds (m : Z) :
  0 < m -> 2 ^ (Zdigits2 m - 1) <= m < 2 ^ Zdigits2 m.
Proof.
  destruct m as [|p|p]; try lia. intros _. apply digits2_pos_bounds.
Qed.

Lemma Zdigits2_nonneg (m : Z) : 0 <= Zdigits2 m.
Proof. destruct m; cbn; lia. Qed.

Lemma Zdigits2_unique (m d : Z) :
  2 ^ (d - 1) <= m < 2 ^ d -> 0 < m -> Zdigits2 m = d.
Proof.
  intros [L U] Hm.
  destruct (Zdigits2_bounds m Hm) as [L' U'].
  pose proof (Zdigits2_nonneg m) as Hd.
  assert (0 <= d).
  { destruct (Z_lt_le_dec d 0) as [N|N]; [|lia].
    rewrite (Z.pow_neg_r 2 d N) in U. lia. }
  destruct (Z.lt_trichotomy (Zdigits2 m) d) as [C|[C|C]]; [|exact C|].
  - assert (2 ^ Zdigits2 m <= 2 ^ (d - 1)) by (apply Z.pow_le_mono_r; lia). lia.
  - assert (2 ^ d <= 2 ^ (Zdigits2 m - 1)) by (apply Z.pow_le_mono_r; lia). lia.
Qed.

Lemma Zdigits2_le (m n : Z) : 0 < m -> m <= n -> Zdigits2 m <= Zdigits2 n.
Proof.
  intros Hm Hmn.
  destruct (Zdigits2_bounds m Hm) as [L U].
  destruct (Zdigits2_bounds n ltac:(lia)) as [L' U'].
  destruct (Z_lt_le_dec (Zdigits2 n) (Zdigits2 m)) as [C|C]; [|exact C].
  pose proof (Zdigits2_nonneg n).
  assert (2 ^ Zdigits2 n <= 2 ^ (Zdigits2 m - 1)) by (apply Z.pow_le_mono_r; lia).
  lia.
Qed.

(** *** Shifting right with a round bit and a sticky bit

    A record (or a mantissa with its location) stands for a fraction [a/b]:
    the mantissa is the quotient and the location tells where the remainder
    lies in the interval between two integers. *)

Definition loc_of (r b : Z) : location :=
  if r =? 0 then loc_Exact else loc_Inexact (2 * r ?= b).

Definition stands_for (rec : shr_record) (a b : Z) : Prop :=
  0 <= a /\ 0 < b /\ shr_m rec = a / b
  /\ loc_of_shr_record rec = loc_of (a mod b) b.

Lemma div_mod_double (a b : Z) :
  0 <= a -> 0 < b ->
  a / (2 * b) = a / b / 2 /\ a mod (2 * b) = (a / b) mod 2 * b + a mod b.
Proof.
  intros Ha Hb.
  assert (E : a / (2 * b) = a / b / 2).
  { rewrite (Z.mul_comm 2 b). symmetry. apply Z.div_div; lia. }
  split; [exact E|].
  pose proof (Z.div_mod a (2 * b) ltac:(lia)) as E1.
  pose proof (Z.div_mod a b ltac:(lia)) as E2.
  pose proof (Z.div_mod (a / b) 2 ltac:(lia)) as E3.
  rewrite E in E1. nia.
Qed.

Lemma shr_1_div2 (rec : shr_record) :
  0 <= shr_m rec ->
  shr_1 rec = Build_shr_record (shr_m rec / 2) (Z.odd (shr_m rec))
                               (shr_r rec || shr_s rec).
Proof.
  destruct rec as [m r s]. cbn [shr_m shr_r shr_s]. intros Hm.
  destruct m as [|[p|p|]|p]; try lia; cbn [shr_1 Z.odd].
  - reflexivity.
  - f_equal. rewrite <- Z.div2_div. reflexivity.
  - f_equal. rewrite <- Z.div2_div. reflexivity.
  - reflexivity.
Qed.

Lemma sticky_iff (rec : shr_record) (r b : Z) :
  loc_of_shr_record rec = loc_of r b ->
  (shr_r rec || shr_s rec = false <-> r = 0).
Proof.
  destruct rec as [m [] []]; cbn [loc_of_shr_record shr_r shr_s orb];
    unfold loc_of; destruct (Z.eqb_spec r 0); intros H;
    split; intros; try discriminate; try lia; try reflexivity.
Qed.

Lemma shr_1_stands_for (rec : shr_record) (a b : Z) :
  stands_for rec a b -> stands_for (shr_1 rec) a (2 * b).
Proof.
  intros (Ha & Hb & Hm & Hl).
  assert (Hq : 0 <= a / b) by (apply Z.div_pos; lia).
  rewrite shr_1_div2 by lia.
  destruct (div_mod_double a b Ha Hb) as [Ed Em].
  pose proof (Z.mod_pos_bound a b Hb) as Br.
  pose proof (sticky_iff rec _ _ Hl) as St.
  repeat split; try lia.
  - cbn [shr_m]. rewrite Hm, Ed. reflexivity.
  - cbn [loc_of_shr_record]. rewrite Em, Hm.
    rewrite Zmod_odd. unfold loc_of.
    destruct (Z.odd (a / b)); destruct (shr_r rec || shr_s rec) eqn:S.
    + destruct (Z.eqb_spec (1 * b + a mod b) 0); [lia|].
      assert (a mod b <> 0) by (intros C; apply St in C; discriminate).
      destruct (Z.compare_spec (2 * (1 * b + a mod b)) (2 * b)); try lia.
      reflexivity.
    + assert (a mod b = 0) by (apply St; reflexivity).
      destruct (Z.eqb_spec (1 * b + a mod b) 0); [lia|].
      destruct (Z.compare_spec (2 * (1 * b + a mod b)) (2 * b)); try lia.
      reflexivity.
    + assert (a mod b <> 0) by (intros C; apply St in C; discriminate).
      destruct (Z.eqb_spec (0 * b + a mod b) 0); [lia|].
      destruct (Z.compare_spec (2 * (0 * b + a mod b)) (2 * b)); try lia.
      reflexivity.
    + assert (a mod b = 0) by (apply St; reflexivity).
      destruct (Z.eqb_spec (0 * b + a mod b) 0); [|lia].
      reflexivity.
Qed.

Lemma pow2_xO (p : positive) : 2 ^ Zpos p~0 = 2 ^ Zpos p * 2 ^ Zpos p.
Proof.
  assert (E : Zpos p~0 = Zpos p + Zpos p) by lia.
  rewrite E. apply Z.pow_add_r; lia.
Qed.

Lemma pow2_xI (p : positive) : 2 ^ Zpos p~1 = 2 ^ Zpos p * 2 ^ Zpos p * 2.
Proof.
  assert (E : Zpos p~1 = Zpos p~0 + 1) by lia.
  rewrite E, pow2_succ, pow2_xO by lia. ring.
Qed.

Lemma iter_pos_shr_1 (p : positive) :
  forall (rec : shr_record) (a b : Z),
    stands_for rec a b ->
    stands_for (iter_pos shr_1 p rec) a (2 ^ Zpos p * b).
Proof.
  induction p as [p IH|p IH|]; intros rec a b H; cbn [iter_pos].
  - apply shr_1_stands_for in H. apply IH in H. apply IH in H.
    rewrite pow2_xI.
    replace (2 ^ Zpos p * 2 ^ Zpos p * 2 * b)
      with (2 ^ Zpos p * (2 ^ Zpos p * (2 * b))) by ring.
    exact H.
  - apply IH in H. apply IH in H.
    rewrite pow2_xO.
    replace (2 ^ Zpos p * 2 ^ Zpos p * b)
      with (2 ^ Zpos p * (2 ^ Zpos p * b)) by ring.
    exact H.
  - apply shr_1_stands_for in H. exact H.
Qed.

Lemma shr_stands_for (rec : shr_record) (e n a b : Z) :
  stands_for rec a b ->
  stands_for (fst (shr rec e n)) a (2 ^ Z.max n 0 * b)
  /\ snd (shr rec e n) = e + Z.max n 0.
Proof.
  intros H. destruct n as [|p|p]; cbn [shr fst snd].
  - rewrite Z.max_l by lia. rewrite Z.pow_0_r, Z.mul_1_l. split; [exact H|lia].
  - rewrite Z.max_l by lia. split; [apply iter_pos_shr_1; exact H|lia].
  - rewrite Z.max_r by lia. rewrite Z.pow_0_r, Z.mul_1_l. split; [exact H|lia].
Qed.

Lemma shr_record_of_loc_stands_for (m : Z) (l : location) (a b : Z) :
  0 <= a -> 0 < b -> m = a / b -> l = loc_of (a mod b) b ->
  stands_for (shr_record_of_loc m l) a b.
Proof.
  intros Ha Hb Hm Hl. repeat split; try assumption.
  - destruct l as [|[]]; exact Hm.
  - rewrite <- Hl. destruct l as [|[]]; reflexivity.
Qed.

(** *** Rounding a fraction to the nearest integer, ties to even *)

Definition rne (a b : Z) : Z :=
  round_nearest_even (a / b) (loc_of (a mod b) b).

Lemma round_stands_for (rec : shr_record) (a b : Z) :
  stands_for rec a b ->
  round_nearest_even (shr_m rec) (loc_of_shr_record rec) = rne a b.
Proof. intros (_ & _ & -> & ->). reflexivity. Qed.

Lemma rne_cases (a b : Z) :
  0 < b ->
  let q := a / b in
  let r := a mod b in
  a = b * q + r /\ 0 <= r < b
  /\ ((rne a b = q /\ (2 * r < b \/ (2 * r = b /\ Z.even q = true)))
      \/ (rne a b = q + 1 /\ (b < 2 * r \/ (2 * r = b /\ Z.even q = false)))).
Proof.
  intros Hb q r.
  pose proof (Z.div_mod a b ltac:(lia)) as E.
  pose proof (Z.mod_pos_bound a b Hb) as B.
  fold q r in E, B. split; [exact E|]. split; [exact B|].
  unfold rne, loc_of. fold q r.
  destruct (Z.eqb_spec r 0) as [Z|NZ]; cbn [round_nearest_even].
  - left. split; [reflexivity|lia].
  - destruct (Z.compare_spec (2 * r) b); cbn [round_nearest_even].
    + destruct (Z.even q) eqn:Ev; [left|right]; split; auto.
    + left. split; [reflexivity|lia].
    + right. split; [reflexivity|lia].
Qed.

Lemma rne_mono (a1 b1 a2 b2 : Z) :
  0 <= a1 -> 0 < b1 -> 0 < b2 -> a1 * b2 <= a2 * b1 ->
  rne a1 b1 <= rne a2 b2.
Proof.
  intros Ha1 Hb1 Hb2 H.
  destruct (rne_cases a1 b1 Hb1) as (E1 & B1 & C1).
  destruct (rne_cases a2 b2 Hb2) as (E2 & B2 & C2).
  revert E1 B1 C1 E2 B2 C2.
  generalize (a1 / b1) (a1 mod b1) (a2 / b2) (a2 mod b2) (rne a1 b1) (rne a2 b2).
  intros q1 r1 q2 r2 k1 k2 E1 B1 C1 E2 B2 C2.
  assert (Q : q1 <= q2).
  { destruct (Z_le_gt_dec q1 q2) as [L|G]; [exact L|exfalso].
    assert (G1 : b1 * (q2 + 1) <= a1) by nia.
    assert (G2 : a2 < b2 * (q2 + 1)) by nia.
    assert (G3 : b1 * (q2 + 1) * b2 <= a1 * b2) by nia.
    assert (G4 : a2 * b1 < b2 * (q2 + 1) * b1) by nia.
    lia. }
  destruct (Z.eq_dec q1 q2) as [->|NE].
  - assert (R : r1 * b2 <= r2 * b1) by nia.
    destruct C1 as [[-> C1]|[-> C1]], C2 as [[-> C2]|[-> C2]]; try lia.
    exfalso.
    destruct C1 as [C1|[C1 Ev1]], C2 as [C2|[C2 Ev2]]; try nia.
    congruence.
  - destruct C1 as [[-> _]|[-> _]], C2 as [[-> _]|[-> _]]; lia.
Qed.

Lemma rne_exact (k b : Z) : 0 < b -> rne (k * b) b = k.
Proof.
  intros Hb. unfold rne. rewrite Z.div_mul, Z.mod_mul by lia. reflexivity.
Qed.

Lemma rne_lower (k a b : Z) : 0 <= k -> 0 < b -> k * b <= a -> k <= rne a b.
Proof.
  intros Hk Hb H. rewrite <- (rne_exact k b Hb).
  apply rne_mono; nia.
Qed.

Lemma rne_upper (k a b : Z) : 0 <= a -> 0 < b -> a <= k * b -> rne a b <= k.
Proof.
  intros Ha Hb H. rewrite <- (rne_exact k b Hb).
  apply rne_mono; nia.
Qed.

Lemma rne_nonneg (a b : Z) : 0 <= a -> 0 < b -> 0 <= rne a b.
Proof. intros Ha Hb. apply rne_lower; lia. Qed.

Lemma rne_scale (a b c : Z) :
  0 <= a -> 0 < b -> 0 < c -> rne (a * c) (b * c) = rne a b.
Proof.
  intros Ha Hb Hc. apply Z.le_antisymm; apply rne_mono; nia.
Qed.

(** *** What [binary_round_aux] computes *)

Definition fexp64 (e : Z) : Z := fexp prec emax e.

Lemma fexp64_eq (e : Z) : fexp64 e = Z.max (e - 53) (-1074).
Proof. reflexivity. Qed.

(** The float of sign [sx], mantissa [k <= 2^53] and exponent [E]. *)
Definition pack (sx : bool) (k E : Z) : spec_float :=
  if k =? 0 then S754_zero sx
  else if k <? 2 ^ 53
       then if E <=? 971 then S754_finite sx (Z.to_pos k) E
            else S754_infinity sx
       else if E + 1 <=? 971 then S754_finite sx (Z.to_pos (2 ^ 52)) (E + 1)
            else S754_infinity sx.

Lemma rne_le_pow53 (a b mx ex : Z) :
  0 <= a -> 0 < b -> mx = a / b ->
  let n := fexp64 (Zdigits2 mx + ex) - ex in
  0 <= n -> rne a (2 ^ n * b) <= 2 ^ 53.
Proof.
  intros Ha Hb Hm n Hn.
  pose proof (pow2_pos n Hn) as Pn.
  pose proof (Z.div_mod a b ltac:(lia)) as E.
  pose proof (Z.mod_pos_bound a b Hb) as B.
  rewrite <- Hm in E.
  assert (Hmx : 0 <= mx) by (subst mx; apply Z.div_pos; lia).
  pose proof (Zdigits2_nonneg mx) as Hd.
  assert (U : a < 2 ^ Zdigits2 mx * b).
  { destruct (Z.eq_dec mx 0) as [->|NZ].
    - cbn [Zdigits2]. rewrite Z.pow_0_r. lia.
    - destruct (Zdigits2_bounds mx ltac:(lia)) as [_ U]. nia. }
  assert (Nd : Zdigits2 mx - 53 <= n).
  { unfold n. rewrite fexp64_eq. lia. }
  destruct (Z_le_gt_dec n (Zdigits2 mx)) as [C|C].
  - apply Z.le_trans with (2 ^ (Zdigits2 mx - n)).
    + apply rne_upper; try nia.
      rewrite Z.mul_assoc, <- Z.pow_add_r by lia.
      replace (Zdigits2 mx - n + n) with (Zdigits2 mx) by lia. lia.
    + apply Z.pow_le_mono_r; lia.
  - apply Z.le_trans with 1.
    + apply rne_upper; try nia.
      assert (2 ^ Zdigits2 mx <= 2 ^ n) by (apply Z.pow_le_mono_r; lia). nia.
    + pose proof (pow2_pos 53 ltac:(lia)). lia.
Qed.

Lemma binary_round_aux_pack (sx : bool) (mx ex : Z) (lx : location) (a b : Z) :
  0 <= a -> 0 < b -> mx = a / b -> lx = loc_of (a mod b) b ->
  let n := fexp64 (Zdigits2 mx + ex) - ex in
  0 <= n ->
  binary_round_aux prec emax sx mx ex lx
  = pack sx (rne a (2 ^ n * b)) (ex + n).
Proof.
  intros Ha Hb Hm Hl n Hn.
  pose proof (rne_le_pow53 a b mx ex Ha Hb Hm Hn) as K53. fold n in K53.
  assert (K0 : 0 <= rne a (2 ^ n * b)).
  { apply rne_nonneg; [lia|]. pose proof (pow2_pos n Hn). nia. }
  unfold binary_round_aux, shr_fexp.
  change (fexp prec emax) with fexp64.
  change (fexp64 (Zdigits2 mx + ex) - ex) with n.
  pose proof (shr_record_of_loc_stands_for mx lx a b Ha Hb Hm Hl) as S0.
  destruct (shr_stands_for _ ex n a b S0) as [S1 E1].
  rewrite Z.max_l in S1, E1 by lia.
  destruct (shr (shr_record_of_loc mx lx) ex n) as [mrs' e'].
  cbn [fst snd] in S1, E1. subst e'.
  rewrite (round_stands_for _ _ _ S1).
  set (k := rne a (2 ^ n * b)) in *.
  set (E := ex + n) in *.
  assert (HE : -1074 <= E).
  { unfold E, n. rewrite fexp64_eq. lia. }
  unfold pack.
  destruct (Z.eqb_spec k 0) as [Z|NZ].
  - rewrite Z. cbn [Zdigits2 shr_record_of_loc].
    assert (N2 : fexp64 (0 + E) - E <= 0) by (rewrite fexp64_eq; lia).
    destruct (fexp64 (0 + E) - E) as [|p|p]; try lia; reflexivity.
  - destruct (Z.ltb_spec k (2 ^ 53)) as [L|L].
    + assert (D : Zdigits2 k <= 53).
      { destruct (Z_le_gt_dec (Zdigits2 k) 53) as [C|C]; [exact C|].
        destruct (Zdigits2_bounds k ltac:(lia)) as [Lk _].
        assert (2 ^ 53 <= 2 ^ (Zdigits2 k - 1))
          by (apply Z.pow_le_mono_r; lia).
        lia. }
      assert (N2 : fexp64 (Zdigits2 k + E) - E <= 0)
        by (rewrite fexp64_eq; lia).
      cbn [shr_record_of_loc].
      destruct (fexp64 (Zdigits2 k + E) - E) as [|p|p]; try lia;
        cbn [shr shr_m]; destruct k as [|pk|pk]; try lia; reflexivity.
    + assert (Ek : k = 2 ^ 53) by lia. rewrite Ek.
      change (Zdigits2 (2 ^ 53)) with 54.
      assert (N2 : fexp64 (54 + E) - E = 1) by (rewrite fexp64_eq; lia).
      rewrite N2. cbn [shr_record_of_loc shr iter_pos].
      change (shr_m (shr_1 {| shr_m := 2 ^ 53; shr_r := false; shr_s := false |}))
        with (2 ^ 52).
      change (2 ^ 52) with (Zpos (Z.to_pos (2 ^ 52))) at 1.
      cbv iota beta. reflexivity.
Qed.

(** *** Rounding is monotone *)

(** Order of the results, from mantissas and exponents. *)
Ltac pack_cmp :=
  cbn [SFleb SFcompare];
  change (Pos.compare_cont Eq) with Pos.compare;
  repeat rewrite <- Z2Pos.inj_compare by lia;
  repeat match goal with
         | |- context [Z.compare ?a ?b] =>
             destruct (Z.compare_spec a b); try lia
         end;
  try reflexivity.

Lemma pack_le_same (k1 k2 E : Z) :
  0 <= k1 -> k1 <= k2 -> k2 <= 2 ^ 53 ->
  SFleb (pack false k1 E) (pack false k2 E) = true.
Proof.
  intros H0 H12 H2. unfold pack.
  assert (P : 0 < 2 ^ 52) by (apply pow2_pos; lia).
  destruct (Z.eqb_spec k1 0), (Z.eqb_spec k2 0); try lia;
    destruct (Z.ltb_spec k1 (2 ^ 53)), (Z.ltb_spec k2 (2 ^ 53)); try lia;
    destruct (Z.leb_spec E 971), (Z.leb_spec (E + 1) 971); try lia;
    pack_cmp.
Qed.

Lemma pack_le_below (k1 k2 E1 E2 : Z) :
  0 <= k1 -> k1 <= 2 ^ 53 -> 2 ^ 52 <= k2 -> k2 <= 2 ^ 53 -> E1 < E2 ->
  SFleb (pack false k1 E1) (pack false k2 E2) = true.
Proof.
  intros H0 H1 H2 H3 HE. unfold pack.
  assert (P : 0 < 2 ^ 52) by (apply pow2_pos; lia).
  destruct (Z.eqb_spec k1 0), (Z.eqb_spec k2 0); try lia;
    destruct (Z.ltb_spec k1 (2 ^ 53)), (Z.ltb_spec k2 (2 ^ 53)); try lia;
    destruct (Z.leb_spec E1 971), (Z.leb_spec (E1 + 1) 971),
      (Z.leb_spec E2 971), (Z.leb_spec (E2 + 1) 971); try lia;
    pack_cmp.
Qed.

(** A fraction [A/B] scaled for rounding at exponent [E]: below [2^53], and
    at least [2^52] unless [E] is the least exponent. *)
Definition well_scaled (A B E : Z) : Prop :=
  0 <= A /\ 0 < B /\ -1074 <= E /\ A < 2 ^ 53 * B
  /\ (-1074 < E -> 2 ^ 52 * B <= A).

Lemma well_scaled_rne (A B E : Z) :
  well_scaled A B E ->
  0 <= rne A B <= 2 ^ 53 /\ (-1074 < E -> 2 ^ 52 <= rne A B).
Proof.
  intros (HA & HB & HE & U & L).
  assert (P : 0 < 2 ^ 52) by (apply pow2_pos; lia).
  assert (P' : 0 < 2 ^ 53) by (apply pow2_pos; lia).
  split; [split|].
  - apply rne_nonneg; lia.
  - apply rne_upper; lia.
  - intros H. apply rne_lower; lia.
Qed.

(** The value [A1/B1 * 2^E1] is at most [A2/B2 * 2^E2]. *)
Definition scaled_le (A1 B1 E1 A2 B2 E2 : Z) : Prop :=
  A1 * B2 * 2 ^ (E1 - Z.min E1 E2) <= A2 * B1 * 2 ^ (E2 - Z.min E1 E2).

Lemma pack_rne_mono (A1 B1 E1 A2 B2 E2 : Z) :
  well_scaled A1 B1 E1 -> well_scaled A2 B2 E2 ->
  scaled_le A1 B1 E1 A2 B2 E2 ->
  SFleb (pack false (rne A1 B1) E1) (pack false (rne A2 B2) E2) = true.
Proof.
  intros W1 W2 H.
  destruct (well_scaled_rne _ _ _ W1) as [[K1 K1'] L1].
  destruct (well_scaled_rne _ _ _ W2) as [[K2 K2'] L2].
  destruct W1 as (HA1 & HB1 & HE1 & U1 & LL1).
  destruct W2 as (HA2 & HB2 & HE2 & U2 & LL2).
  unfold scaled_le in H.
  destruct (Z.lt_trichotomy E1 E2) as [C|[C|C]].
  - apply pack_le_below; lia.
  - subst E2. rewrite Z.min_id, Z.sub_diag, Z.pow_0_r in H.
    apply pack_le_same; try lia. apply rne_mono; lia.
  - exfalso. rewrite Z.min_r in H by lia.
    rewrite Z.sub_diag, Z.pow_0_r in H.
    assert (T : 2 <= 2 ^ (E1 - E2)).
    { change 2 with (2 ^ 1) at 1. apply Z.pow_le_mono_r; lia. }
    assert (P : 2 ^ 53 = 2 * 2 ^ 52) by reflexivity.
    assert (P' : 0 < 2 ^ 52) by (apply pow2_pos; lia).
    specialize (LL1 ltac:(lia)).
    revert H T P P' LL1 U2 HB1 HB2 HA1 HA2.
    generalize (2 ^ (E1 - E2)) (2 ^ 52) (2 ^ 53). intros t p52 p53.
    intros. subst p53.
    assert (G0 : p52 * B1 * B2 <= A1 * B2) by nia.
    assert (G1 : 0 <= A1 * B2) by nia.
    assert (G2 : 2 * (A1 * B2) <= A1 * B2 * t) by nia.
    assert (G3 : A2 * B1 < 2 * p52 * B2 * B1) by nia.
    nia.
Qed.

(** *** Values *)

Definition pow2 (e : Z) : Q := (2 ^ e)%Q.

Lemma pow2_gt_0 (e : Z) : (0 < pow2 e)%Q.
Proof. apply Qpower_0_lt. reflexivity. Qed.

Lemma pow2_add (a b : Z) : (pow2 (a + b) == pow2 a * pow2 b)%Q.
Proof. apply Qpower_plus. discriminate. Qed.

Lemma pow2_inject (n : Z) : 0 <= n -> (inject_Z (2 ^ n) == pow2 n)%Q.
Proof. intros H. apply (Zpower_Qpower 2 n H). Qed.

Lemma pow2_split (e z : Z) :
  z <= e -> (pow2 e == inject_Z (2 ^ (e - z)) * pow2 z)%Q.
Proof.
  intros H. rewrite pow2_inject by lia. rewrite <- pow2_add.
  replace (e - z + z) with e by lia. reflexivity.
Qed.

(** The value [A/B * 2^E]. *)
Definition frac (A B E : Z) : Q := (inject_Z A / inject_Z B * pow2 E)%Q.

Lemma inject_Z_pos (b : Z) : 0 < b -> (0 < inject_Z b)%Q.
Proof. intros H. change 0%Q with (inject_Z 0). rewrite <- Zlt_Qlt. exact H. Qed.

Lemma frac_le_scaled (A1 B1 E1 A2 B2 E2 : Z) :
  0 < B1 -> 0 < B2 ->
  (frac A1 B1 E1 <= frac A2 B2 E2)%Q -> scaled_le A1 B1 E1 A2 B2 E2.
Proof.
  intros H1 H2 H. unfold scaled_le, frac in *.
  set (z := Z.min E1 E2) in *.
  rewrite (pow2_split E1 z), (pow2_split E2 z) in H by lia.
  pose proof (pow2_gt_0 z) as Pz.
  pose proof (inject_Z_pos B1 H1) as P1.
  pose proof (inject_Z_pos B2 H2) as P2.
  rewrite Zle_Qle, !inject_Z_mult.
  revert H Pz P1 P2.
  generalize (inject_Z (2 ^ (E1 - z))) (inject_Z (2 ^ (E2 - z))) (pow2 z)
    (inject_Z A1) (inject_Z A2) (inject_Z B1) (inject_Z B2).
  intros p1 p2 c a1 a2 b1 b2 H Pz P1 P2.
  assert (E1' : (a1 == a1 / b1 * b1)%Q) by (field; lra).
  assert (E2' : (a2 == a2 / b2 * b2)%Q) by (field; lra).
  revert H E1' E2'. generalize (a1 / b1)%Q (a2 / b2)%Q. intros x y H E1' E2'.
  rewrite E1', E2'.
  assert (L : (x * p1 <= y * p2)%Q) by nra.
  assert (P : (0 < b1 * b2)%Q) by nra.
  assert (M : (x * p1 * (b1 * b2) <= y * p2 * (b1 * b2))%Q)
    by (apply Qmult_le_compat_r; lra).
  lra.
Qed.

(** *** Correctly rounded results

    [rounds_to r v]: the float [r] is what rounding computes for the exact
    value [v]. *)

Definition signQ (s : bool) : Q := if s then (-1)%Q else 1%Q.

Definition rounds_to (r : spec_float) (v : Q) : Prop :=
  exists s A B E,
    r = pack s (rne A B) E /\ well_scaled A B E
    /\ (v == signQ s * frac A B E)%Q.

Lemma pack_opp (s : bool) (k E : Z) : pack (negb s) k E = SFopp (pack s k E).
Proof.
  unfold pack.
  destruct (k =? 0); [reflexivity|].
  destruct (k <? 2 ^ 53).
  - destruct (E <=? 971); reflexivity.
  - destruct (E + 1 <=? 971); reflexivity.
Qed.

Lemma SFleb_opp (x y : spec_float) : SFleb (SFopp x) (SFopp y) = SFleb y x.
Proof.
  destruct x as [[]|[]| |[] mx ex], y as [[]|[]| |[] my ey];
    cbn [SFopp SFleb SFcompare negb]; try reflexivity;
    rewrite (Z.compare_antisym ex ey);
    change (Pos.compare_cont Eq) with Pos.compare;
    rewrite (Pos.compare_antisym mx my);
    destruct (ex ?= ey); cbn [CompOpp]; try reflexivity;
    destruct (mx ?= my)%positive; reflexivity.
Qed.

Lemma frac_nonneg (A B E : Z) : 0 <= A -> 0 < B -> (0 <= frac A B E)%Q.
Proof.
  intros HA HB. unfold frac.
  pose proof (pow2_gt_0 E). pose proof (inject_Z_pos B HB).
  assert (0 <= inject_Z A)%Q by (change 0%Q with (inject_Z 0); rewrite <- Zle_Qle; exact HA).
  apply Qmult_le_0_compat; [|lra].
  apply Qle_shift_div_l; lra.
Qed.

Lemma frac_zero_inv (A B E : Z) :
  0 <= A -> 0 < B -> (frac A B E <= 0)%Q -> A = 0.
Proof.
  intros HA HB H.
  destruct (Z.eq_dec A 0) as [Z|NZ]; [exact Z|exfalso].
  assert (P : (0 < inject_Z A)%Q) by (apply inject_Z_pos; lia).
  pose proof (pow2_gt_0 E). pose proof (inject_Z_pos B HB).
  unfold frac in H.
  assert ((0 < inject_Z A / inject_Z B)%Q) by (apply Qlt_shift_div_l; lra).
  assert ((0 < inject_Z A / inject_Z B * pow2 E)%Q) by (apply Qmult_lt_0_compat; assumption).
  lra.
Qed.

Lemma pack_sign_le (k1 k2 E1 E2 : Z) :
  0 <= k1 -> 0 <= k2 ->
  SFleb (pack true k1 E1) (pack false k2 E2) = true.
Proof.
  intros H1 H2. unfold pack.
  destruct (k1 =? 0), (k2 =? 0), (k1 <? 2 ^ 53), (k2 <? 2 ^ 53),
    (E1 <=? 971), (E1 + 1 <=? 971), (E2 <=? 971), (E2 + 1 <=? 971);
    reflexivity.
Qed.

Lemma rounds_to_mono (r1 r2 : spec_float) (v1 v2 : Q) :
  rounds_to r1 v1 -> rounds_to r2 v2 -> (v1 <= v2)%Q -> SFleb r1 r2 = true.
Proof.
  intros (s1 & A1 & B1 & E1 & -> & W1 & V1) (s2 & A2 & B2 & E2 & -> & W2 & V2) H.
  rewrite V1, V2 in H.
  pose proof (well_scaled_rne _ _ _ W1) as [[K1 _] _].
  pose proof (well_scaled_rne _ _ _ W2) as [[K2 _] _].
  assert (N1 : (0 <= frac A1 B1 E1)%Q)
    by (apply frac_nonneg; destruct W1 as (? & ? & _); assumption).
  assert (N2 : (0 <= frac A2 B2 E2)%Q)
    by (apply frac_nonneg; destruct W2 as (? & ? & _); assumption).
  destruct s1, s2; cbn [signQ] in H.
  - change true with (negb false). rewrite !pack_opp, SFleb_opp.
    apply pack_rne_mono; try assumption.
    apply frac_le_scaled; try (destruct W1 as (? & ? & _), W2 as (? & ? & _); assumption).
    lra.
  - apply pack_sign_le; assumption.
  - assert (Z1 : A1 = 0).
    { apply (frac_zero_inv A1 B1 E1); try (destruct W1 as (? & ? & _); assumption). lra. }
    assert (Z2 : A2 = 0).
    { apply (frac_zero_inv A2 B2 E2); try (destruct W2 as (? & ? & _); assumption). lra. }
    subst A1 A2. unfold rne. rewrite !Z.div_0_l, !Z.mod_0_l
      by (destruct W1 as (? & ? & _), W2 as (? & ? & _); lia).
    reflexivity.
  - apply pack_rne_mono; try assumption.
    apply frac_le_scaled; try (destruct W1 as (? & ? & _), W2 as (? & ? & _); assumption).
    lra.
Qed.

(** *** Valid floats and their values *)

Definition SF2Q (x : spec_float) : Q :=
  match x with
  | S754_finite s m e => (signQ s * (inject_Z (Zpos m) * pow2 e))%Q
  | _ => 0%Q
  end.

Definition is_finite_SF (x : spec_float) : bool :=
  match x with
  | S754_zero _ | S754_finite _ _ _ => true
  | _ => false
  end.

Lemma bounded_well_scaled (m : positive) (e : Z) :
  bounded prec emax m e = true -> well_scaled (Zpos m) 1 e /\ e <= 971.
Proof.
  unfold bounded, canonical_mantissa. rewrite andb_true_iff.
  change (fexp prec emax) with fexp64. rewrite fexp64_eq.
  intros [C L]. apply Z.eqb_eq in C. apply Z.leb_le in L.
  change (emax - prec) with 971 in L.
  split; [|exact L].
  pose proof (digits2_pos_bounds m) as [Lo Hi].
  pose proof (Pos2Z.is_pos (digits2_pos m)) as Hd.
  repeat split; try lia.
  - assert (2 ^ Zpos (digits2_pos m) <= 2 ^ 53)
      by (apply Z.pow_le_mono_r; lia). lia.
  - intros He. assert (Ed : Zpos (digits2_pos m) = 53) by lia.
    rewrite Ed in Lo. change (53 - 1) with 52 in Lo. lia.
Qed.

Lemma frac_1 (A E : Z) : (frac A 1 E == inject_Z A * pow2 E)%Q.
Proof. unfold frac. change (inject_Z 1) with 1%Q. field. Qed.

Lemma valid_rounds_to (x : spec_float) :
  valid_binary x = true -> is_finite_SF x = true ->
  rounds_to x (SF2Q x).
Proof.
  destruct x as [s|s| |s m e]; cbn [valid_binary is_finite_SF SF2Q];
    try discriminate; intros V _.
  - exists s, 0, 1, (-1074). split; [reflexivity|]. split.
    + pose proof (pow2_pos 53 ltac:(lia)). repeat split; lia.
    + unfold frac. change (inject_Z 0) with 0%Q.
      destruct s; cbn [signQ]; field.
  - destruct (bounded_well_scaled m e V) as [W L].
    exists s, (Zpos m), 1, e. split; [|split; [exact W|]].
    + replace (Zpos m) with (Zpos m * 1) at 1 by lia.
      rewrite rne_exact by lia. unfold pack.
      destruct W as (_ & _ & _ & U & _).
      destruct (Z.eqb_spec (Zpos m) 0); [lia|].
      destruct (Z.ltb_spec (Zpos m) (2 ^ 53)); [|lia].
      destruct (Z.leb_spec e 971); [|lia].
      reflexivity.
    + rewrite frac_1. reflexivity.
Qed.

Lemma magnitude_le (m1 e1 m2 e2 : Z) :
  well_scaled m1 1 e1 -> well_scaled m2 1 e2 ->
  e1 < e2 \/ (e1 = e2 /\ m1 <= m2) ->
  (inject_Z m1 * pow2 e1 <= inject_Z m2 * pow2 e2)%Q.
Proof.
  intros (H1 & _ & L1 & U1 & _) (H2 & _ & L2 & _ & N2) [C|[-> C]].
  - rewrite (pow2_split e2 e1) by lia.
    pose proof (pow2_gt_0 e1) as P.
    assert (T : 2 <= 2 ^ (e2 - e1)).
    { change 2 with (2 ^ 1) at 1. apply Z.pow_le_mono_r; lia. }
    specialize (N2 ltac:(lia)).
    assert (I : m1 <= m2 * 2 ^ (e2 - e1)).
    { change (2 ^ 53) with (2 * 2 ^ 52) in U1. nia. }
    rewrite Zle_Qle, inject_Z_mult in I.
    revert I P. generalize (inject_Z (2 ^ (e2 - e1))) (pow2 e1)
      (inject_Z m1) (inject_Z m2). intros t p a b I P.
    assert ((a * p <= b * t * p)%Q) by (apply Qmult_le_compat_r; lra).
    lra.
  - pose proof (pow2_gt_0 e2) as P.
    rewrite Zle_Qle in C.
    apply Qmult_le_compat_r; lra.
Qed.

Lemma SFleb_value (x y : spec_float) :
  valid_binary x = true -> valid_binary y = true ->
  is_finite_SF x = true -> is_finite_SF y = true ->
  SFleb x y = true -> (SF2Q x <= SF2Q y)%Q.
Proof.
  destruct x as [sx|sx| |sx mx ex], y as [sy|sy| |sy my ey];
    cbn [valid_binary is_finite_SF SF2Q]; try discriminate;
    intros Vx Vy _ _.
  - pose proof (pow2_gt_0 ey) as P.
    pose proof (inject_Z_pos (Zpos my) ltac:(lia)) as Q'.
    assert ((0 < inject_Z (Zpos my) * pow2 ey)%Q)
      by (apply Qmult_lt_0_compat; assumption).
    destruct sy; cbn [SFleb SFcompare signQ]; [discriminate|intros _; lra].
  - pose proof (pow2_gt_0 ex) as P.
    pose proof (inject_Z_pos (Zpos mx) ltac:(lia)) as Q'.
    assert ((0 < inject_Z (Zpos mx) * pow2 ex)%Q)
      by (apply Qmult_lt_0_compat; assumption).
    destruct sx; cbn [SFleb SFcompare signQ]; [intros _; lra|discriminate].
  - destruct (bounded_well_scaled mx ex Vx) as [Wx _].
    destruct (bounded_well_scaled my ey Vy) as [Wy _].
    pose proof (pow2_gt_0 ex) as Px. pose proof (pow2_gt_0 ey) as Py.
    pose proof (inject_Z_pos (Zpos mx) ltac:(lia)) as Qx.
    pose proof (inject_Z_pos (Zpos my) ltac:(lia)) as Qy.
    assert ((0 < inject_Z (Zpos mx) * pow2 ex)%Q)
      by (apply Qmult_lt_0_compat; assumption).
    assert ((0 < inject_Z (Zpos my) * pow2 ey)%Q)
      by (apply Qmult_lt_0_compat; assumption).
    destruct sx, sy; cbn [SFleb SFcompare signQ];
      change (Pos.compare_cont Eq) with Pos.compare.
    + intros C.
      assert (M : (inject_Z (Zpos my) * pow2 ey <= inject_Z (Zpos mx) * pow2 ex)%Q).
      { apply magnitude_le; try assumption.
        destruct (Z.compare_spec ex ey); cbn [CompOpp] in C;
          try discriminate; try lia.
        right. split; [lia|].
        destruct (Pos.compare_spec mx my); cbn [CompOpp] in C;
          try discriminate; lia. }
      lra.
    + intros _. lra.
    + discriminate.
    + intros C.
      assert (M : (inject_Z (Zpos mx) * pow2 ex <= inject_Z (Zpos my) * pow2 ey)%Q).
      { apply magnitude_le; try assumption.
        destruct (Z.compare_spec ex ey); try discriminate; try lia.
        right. split; [lia|].
        destruct (Pos.compare_spec mx my); try discriminate; lia. }
      lra.
Qed.

(** *** The operations round their exact results *)

Lemma zero_rounds_to (s : bool) (v : Q) : (v == 0)%Q -> rounds_to (S754_zero s) v.
Proof.
  intros Hv. exists s, 0, 1, (-1074). split; [reflexivity|]. split.
  - pose proof (pow2_pos 53 ltac:(lia)). repeat split; lia.
  - rewrite Hv. unfold frac. change (inject_Z 0) with 0%Q.
    destruct s; cbn [signQ]; field.
Qed.

Lemma triple_well_scaled (a b ex : Z) :
  0 <= a -> 0 < b ->
  let n := fexp64 (Zdigits2 (a / b) + ex) - ex in
  0 <= n -> well_scaled a (2 ^ n * b) (ex + n).
Proof.
  intros Ha Hb n Hn.
  pose proof (pow2_pos n Hn) as Pn.
  pose proof (Z.div_mod a b ltac:(lia)) as E.
  pose proof (Z.mod_pos_bound a b Hb) as B.
  assert (Hq : 0 <= a / b) by (apply Z.div_pos; lia).
  pose proof (Zdigits2_nonneg (a / b)) as Hd.
  assert (F : ex + n = Z.max (Zdigits2 (a / b) + ex - 53) (-1074)).
  { unfold n. rewrite fexp64_eq. lia. }
  repeat split; try lia; try nia.
  - (* below 2^53 *)
    assert (U : a < 2 ^ Zdigits2 (a / b) * b).
    { destruct (Z.eq_dec (a / b) 0) as [Z|NZ].
      - rewrite Z. cbn [Zdigits2]. rewrite Z.pow_0_r. lia.
      - destruct (Zdigits2_bounds (a / b) ltac:(lia)) as [_ U]. nia. }
    assert (P : 2 ^ Zdigits2 (a / b) <= 2 ^ (53 + n))
      by (apply Z.pow_le_mono_r; lia).
    rewrite Z.pow_add_r in P by lia. nia.
  - (* at least 2^52 *)
    intros He.
    assert (En : n = Zdigits2 (a / b) - 53) by lia.
    assert (NZ : a / b <> 0).
    { intros Z. rewrite Z in En. cbn [Zdigits2] in En. lia. }
    destruct (Zdigits2_bounds (a / b) ltac:(lia)) as [L _].
    replace (Zdigits2 (a / b) - 1) with (52 + n) in L by lia.
    rewrite Z.pow_add_r in L by lia. nia.
Qed.

Lemma frac_rescale (a b ex n : Z) :
  0 <= n -> 0 < b -> (frac a (2 ^ n * b) (ex + n) == frac a b ex)%Q.
Proof.
  intros Hn Hb. unfold frac.
  rewrite inject_Z_mult, pow2_inject, pow2_add by lia.
  pose proof (pow2_gt_0 n). pose proof (inject_Z_pos b Hb).
  field. split; lra.
Qed.

Lemma binary_round_aux_rounds (s : bool) (mx ex : Z) (lx : location) (a b : Z) :
  0 <= a -> 0 < b -> mx = a / b -> lx = loc_of (a mod b) b ->
  0 <= fexp64 (Zdigits2 mx + ex) - ex ->
  rounds_to (binary_round_aux prec emax s mx ex lx) (signQ s * frac a b ex).
Proof.
  intros Ha Hb Hm Hl Hn.
  rewrite (binary_round_aux_pack s mx ex lx a b Ha Hb Hm Hl Hn).
  set (n := fexp64 (Zdigits2 mx + ex) - ex) in *.
  exists s, a, (2 ^ n * b), (ex + n). split; [reflexivity|]. split.
  - subst mx. apply triple_well_scaled; assumption.
  - rewrite frac_rescale by assumption. reflexivity.
Qed.

Lemma Zdigits2_pow2 (k : Z) : 0 <= k -> Zdigits2 (2 ^ k) = k + 1.
Proof.
  intros Hk. apply Zdigits2_unique.
  - replace (k + 1 - 1) with k by lia. split; [lia|].
    apply Z.pow_lt_mono_r; lia.
  - apply pow2_pos. exact Hk.
Qed.

Lemma canonical_cases (m : positive) (e : Z) :
  bounded prec emax m e = true ->
  -1074 <= e <= 971 /\ Zpos (digits2_pos m) <= 53
  /\ (Zpos (digits2_pos m) = 53 \/ e = -1074).
Proof.
  unfold bounded, canonical_mantissa. rewrite andb_true_iff.
  change (fexp prec emax) with fexp64. rewrite fexp64_eq.
  intros [C L]. apply Z.eqb_eq in C. apply Z.leb_le in L.
  change (emax - prec) with 971 in L. lia.
Qed.

Lemma mul_adequate (mx : positive) (ex : Z) (my : positive) (ey : Z) :
  bounded prec emax mx ex = true -> bounded prec emax my ey = true ->
  0 <= fexp64 (Zdigits2 (Zpos (mx * my)) + (ex + ey)) - (ex + ey).
Proof.
  intros Bx By.
  destruct (canonical_cases mx ex Bx) as (Rx & Dx & Cx).
  destruct (canonical_cases my ey By) as (Ry & Dy & Cy).
  pose proof (digits2_pos_bounds mx) as [Lx _].
  pose proof (digits2_pos_bounds my) as [Ly _].
  pose proof (Pos2Z.is_pos (digits2_pos mx)) as Px.
  pose proof (Pos2Z.is_pos (digits2_pos my)) as Py.
  set (dx := Zpos (digits2_pos mx)) in *.
  set (dy := Zpos (digits2_pos my)) in *.
  assert (D : dx + dy - 1 <= Zdigits2 (Zpos (mx * my))).
  { pose proof (Zdigits2_pow2 (dx + dy - 2) ltac:(lia)) as E.
    assert (L : Zdigits2 (2 ^ (dx + dy - 2)) <= Zdigits2 (Zpos (mx * my))).
    { apply Zdigits2_le; [apply pow2_pos; lia|].
      replace (dx + dy - 2) with ((dx - 1) + (dy - 1)) by lia.
      rewrite Z.pow_add_r by lia. rewrite Pos2Z.inj_mul.
      pose proof (pow2_pos (dx - 1) ltac:(lia)).
      pose proof (pow2_pos (dy - 1) ltac:(lia)). nia. }
    lia. }
  rewrite fexp64_eq. lia.
Qed.

Lemma SFmul_rounds (x y : spec_float) :
  valid_binary x = true -> valid_binary y = true ->
  is_finite_SF x = true -> is_finite_SF y = true ->
  rounds_to (SFmul prec emax x y) (SF2Q x * SF2Q y).
Proof.
  destruct x as [sx|sx| |sx mx ex], y as [sy|sy| |sy my ey];
    cbn [valid_binary is_finite_SF SF2Q SFmul]; try discriminate;
    intros Vx Vy _ _;
    try (apply zero_rounds_to; ring).
  assert (R : rounds_to
                (binary_round_aux prec emax (xorb sx sy) (Zpos (mx * my))
                   (ex + ey) loc_Exact)
                (signQ (xorb sx sy) * frac (Zpos (mx * my)) 1 (ex + ey))).
  { apply binary_round_aux_rounds; try lia.
    - rewrite Z.div_1_r. reflexivity.
    - rewrite Z.mod_1_r. reflexivity.
    - apply mul_adequate; assumption. }
  destruct R as (s & A & B & E & -> & W & V).
  exists s, A, B, E. split; [reflexivity|]. split; [exact W|].
  rewrite <- V. rewrite frac_1, Pos2Z.inj_mul, inject_Z_mult, pow2_add.
  destruct sx, sy; cbn [xorb signQ]; ring.
Qed.

(** **** Addition *)

Lemma shl_align_spec (mx : positive) (ex ez : Z) :
  Zpos (fst (shl_align mx ex ez)) = Zpos mx * 2 ^ Z.max (ex - ez) 0
  /\ snd (shl_align mx ex ez) = Z.min ex ez.
Proof.
  unfold shl_align.
  destruct (ez - ex) as [|d|d] eqn:D; cbn [fst snd].
  - rewrite Z.max_r by lia. rewrite Z.pow_0_r. lia.
  - rewrite Z.max_r by lia. rewrite Z.pow_0_r. lia.
  - assert (E : ex - ez = Zpos d) by lia.
    rewrite E, Z.max_l by lia.
    change (Pos.iter xO mx d) with (shift_pos d mx).
    rewrite shift_pos_correct. change (Z.pow_pos 2 d) with (2 ^ Zpos d).
    lia.
Qed.

Lemma Zdigits2_shift (m k : Z) :
  0 < m -> 0 <= k -> Zdigits2 (m * 2 ^ k) = Zdigits2 m + k.
Proof.
  intros Hm Hk.
  destruct (Zdigits2_bounds m Hm) as [L U].
  pose proof (pow2_pos k Hk) as P.
  assert (D : 0 < Zdigits2 m).
  { destruct m; try lia. cbn. lia. }
  apply Zdigits2_unique; [|nia].
  replace (Zdigits2 m + k - 1) with (Zdigits2 m - 1 + k) by lia.
  rewrite !Z.pow_add_r by lia. nia.
Qed.

Lemma binary_round_rounds (s : bool) (m : positive) (e : Z) :
  rounds_to (binary_round prec emax s m e)
            (signQ s * (inject_Z (Zpos m) * pow2 e)).
Proof.
  unfold binary_round.
  change (fexp prec emax) with fexp64.
  change (Zpos (digits2_pos m)) with (Zdigits2 (Zpos m)).
  set (F := fexp64 (Zdigits2 (Zpos m) + e)).
  destruct (shl_align_spec m e F) as [E1 E2].
  destruct (shl_align m e F) as [mz ez]. cbn [fst snd] in E1, E2.
  assert (R : rounds_to (binary_round_aux prec emax s (Zpos mz) ez loc_Exact)
                        (signQ s * frac (Zpos mz) 1 ez)).
  { apply binary_round_aux_rounds; try lia.
    - rewrite Z.div_1_r. reflexivity.
    - rewrite Z.mod_1_r. reflexivity.
    - rewrite E1, E2. rewrite Zdigits2_shift by lia.
      destruct (Z_le_gt_dec e F) as [C|C].
      + rewrite Z.max_r, Z.min_l by lia.
        replace (Zdigits2 (Zpos m) + 0 + e) with (Zdigits2 (Zpos m) + e) by lia.
        fold F. lia.
      + rewrite Z.max_l, Z.min_r by lia.
        replace (Zdigits2 (Zpos m) + (e - F) + F)
          with (Zdigits2 (Zpos m) + e) by lia.
        fold F. lia. }
  destruct R as (s' & A & B & E & -> & W & V).
  exists s', A, B, E. split; [reflexivity|]. split; [exact W|].
  rewrite <- V. rewrite frac_1, E1, E2, inject_Z_mult.
  rewrite pow2_inject by lia.
  assert (P : (pow2 (Z.max (e - F) 0) * pow2 (Z.min e F) == pow2 e)%Q).
  { rewrite <- pow2_add. f_equiv. lia. }
  rewrite <- P. ring.
Qed.

Lemma binary_normalize_rounds (S e : Z) :
  rounds_to (binary_normalize prec emax S e false) (inject_Z S * pow2 e).
Proof.
  destruct S as [|m|m]; cbn [binary_normalize].
  - apply zero_rounds_to. change (inject_Z 0) with 0%Q. ring.
  - pose proof (binary_round_rounds false m e) as R. cbn [signQ] in R.
    destruct R as (s' & A & B & E & -> & W & V).
    exists s', A, B, E. split; [reflexivity|]. split; [exact W|].
    rewrite <- V. ring.
  - pose proof (binary_round_rounds true m e) as R. cbn [signQ] in R.
    destruct R as (s' & A & B & E & -> & W & V).
    exists s', A, B, E. split; [reflexivity|]. split; [exact W|].
    rewrite <- V. change (Zneg m) with (- Zpos m). rewrite inject_Z_opp. ring.
Qed.

Lemma rounds_to_eq (r : spec_float) (v w : Q) :
  (v == w)%Q -> rounds_to r v -> rounds_to r w.
Proof.
  intros E (s & A & B & E' & -> & W & V).
  exists s, A, B, E'. split; [reflexivity|]. split; [exact W|].
  rewrite <- E. exact V.
Qed.

Lemma cond_Zopp_value (s : bool) (m : Z) :
  (inject_Z (cond_Zopp s m) == signQ s * inject_Z m)%Q.
Proof.
  destruct s; cbn [cond_Zopp signQ]; [rewrite inject_Z_opp|]; ring.
Qed.

Lemma aligned_value (s : bool) (m : positive) (e ez : Z) :
  ez <= e ->
  (inject_Z (cond_Zopp s (Zpos (fst (shl_align m e ez)))) * pow2 ez
   == signQ s * (inject_Z (Zpos m) * pow2 e))%Q.
Proof.
  intros H. destruct (shl_align_spec m e ez) as [E1 _].
  rewrite cond_Zopp_value, E1, Z.max_l by lia.
  rewrite inject_Z_mult, pow2_inject by lia.
  assert (P : (pow2 (e - ez) * pow2 ez == pow2 e)%Q).
  { rewrite <- pow2_add. f_equiv. lia. }
  rewrite <- P. ring.
Qed.

Lemma SFadd_rounds (x y : spec_float) :
  valid_binary x = true -> valid_binary y = true ->
  is_finite_SF x = true -> is_finite_SF y = true ->
  rounds_to (SFadd prec emax x y) (SF2Q x + SF2Q y).
Proof.
  intros Vx Vy Fx Fy.
  destruct x as [sx|sx| |sx mx ex], y as [sy|sy| |sy my ey];
    try discriminate.
  - destruct sx, sy; cbn [SFadd SF2Q]; apply zero_rounds_to; ring.
  - cbn [SFadd]. apply rounds_to_eq with (SF2Q (S754_finite sy my ey)).
    + cbn [SF2Q]. ring.
    + apply valid_rounds_to; assumption.
  - cbn [SFadd]. apply rounds_to_eq with (SF2Q (S754_finite sx mx ex)).
    + cbn [SF2Q]. ring.
    + apply valid_rounds_to; assumption.
  - cbn [SFadd SF2Q].
    eapply rounds_to_eq; [|apply binary_normalize_rounds].
    rewrite inject_Z_plus, Qmult_plus_distr_l.
    rewrite !aligned_value by lia. reflexivity.
Qed.

(** **** Division *)

Lemma new_location_spec (m r : Z) :
  0 < m -> 0 <= r < m -> new_location m r = loc_of r m.
Proof.
  intros Hm Hr. unfold new_location, loc_of.
  destruct (Z.even m) eqn:Ev.
  - unfold new_location_even. reflexivity.
  - unfold new_location_odd.
    destruct (Z.eqb_spec r 0); [reflexivity|]. f_equal.
    assert (Od : Z.odd m = true) by (rewrite <- Z.negb_even, Ev; reflexivity).
    apply Z.odd_spec in Od. destruct Od as [k Hk].
    destruct (Z.compare_spec (2 * r + 1) m), (Z.compare_spec (2 * r) m);
      try reflexivity; lia.
Qed.

Lemma shift_mantissa (m s : Z) :
  0 <= s ->
  match s with
  | 0 => m
  | Zpos _ => Z.shiftl m s
  | Zneg _ => 0
  end = m * 2 ^ s.
Proof.
  intros Hs. destruct s as [|p|p].
  - change (2 ^ 0) with 1. lia.
  - rewrite Z.shiftl_mul_pow2 by lia. reflexivity.
  - lia.
Qed.

Lemma SFdiv_core_binary_spec (m1 : positive) (e1 : Z) (m2 : positive) (e2 : Z) :
  bounded prec emax m1 e1 = true ->
  exists s ez,
    0 <= s /\ s + ez = e1 - e2
    /\ SFdiv_core_binary prec emax (Zpos m1) e1 (Zpos m2) e2
       = ((Zpos m1 * 2 ^ s) / Zpos m2, ez,
          loc_of ((Zpos m1 * 2 ^ s) mod Zpos m2) (Zpos m2))
    /\ 0 <= fexp64 (Zdigits2 ((Zpos m1 * 2 ^ s) / Zpos m2) + ez) - ez.
Proof.
  intros B1.
  destruct (canonical_cases m1 e1 B1) as (R1 & D1 & _).
  unfold SFdiv_core_binary.
  change (fexp prec emax) with fexp64.
  set (d1 := Zdigits2 (Zpos m1)) in *.
  set (d2 := Zdigits2 (Zpos m2)) in *.
  change (Zpos (digits2_pos m1)) with d1 in D1.
  set (ez := Z.min (fexp64 (d1 + e1 - (d2 + e2))) (e1 - e2)).
  set (s := e1 - e2 - ez).
  assert (Hs : 0 <= s) by (unfold s, ez; lia).
  exists s, ez. split; [exact Hs|]. split; [unfold s; lia|].
  pose proof (shift_mantissa (Zpos m1) s Hs) as Em.
  rewrite Em.
  assert (P : 0 < 2 ^ s) by (apply pow2_pos; exact Hs).
  pose proof (Z.mod_pos_bound (Zpos m1 * 2 ^ s) (Zpos m2) ltac:(lia)) as Br.
  split.
  - unfold Z.div, Z.modulo in *.
    destruct (Z.div_eucl (Zpos m1 * 2 ^ s) (Zpos m2)) as [q r].
    rewrite new_location_spec by lia. reflexivity.
  - rewrite fexp64_eq.
    destruct (Z_le_gt_dec ez (-1074)) as [C|C]; [lia|].
    assert (D2 : 0 < d2) by (unfold d2; cbn; lia).
    assert (D1' : 0 < d1) by (unfold d1; cbn; lia).
    assert (Es : s = 53 + d2 - d1).
    { unfold s, ez in *. rewrite fexp64_eq in *. lia. }
    destruct (Zdigits2_bounds (Zpos m1) ltac:(lia)) as [L1 _].
    destruct (Zdigits2_bounds (Zpos m2) ltac:(lia)) as [_ U2].
    fold d1 in L1. fold d2 in U2.
    assert (Q52 : 2 ^ 52 <= Zpos m1 * 2 ^ s / Zpos m2).
    { apply Z.div_le_lower_bound; [lia|].
      assert (X : 2 ^ (d1 - 1) * 2 ^ s = 2 ^ 52 * 2 ^ d2).
      { rewrite <- !Z.pow_add_r by lia. f_equal. lia. }
      pose proof (pow2_pos 52 ltac:(lia)). nia. }
    assert (Dq : 53 <= Zdigits2 (Zpos m1 * 2 ^ s / Zpos m2)).
    { change 53 with (52 + 1). rewrite <- (Zdigits2_pow2 52) by lia.
      apply Zdigits2_le; [apply pow2_pos; lia|exact Q52]. }
    lia.
Qed.

Lemma SFdiv_rounds (x y : spec_float) :
  valid_binary x = true -> valid_binary y = true ->
  is_finite_SF x = true ->
  (exists s m e, y = S754_finite s m e) ->
  rounds_to (SFdiv prec emax x y) (SF2Q x / SF2Q y).
Proof.
  intros Vx Vy Fx (sy & my & ey & ->).
  destruct x as [sx|sx| |sx mx ex]; try discriminate.
  - cbn [SFdiv SF2Q]. apply zero_rounds_to. unfold Qdiv. ring.
  - cbn [SFdiv SF2Q]. cbn [valid_binary] in Vx.
    destruct (SFdiv_core_binary_spec mx ex my ey Vx)
      as (s & ez & Hs & He & -> & Hn).
    assert (P : 0 < 2 ^ s) by (apply pow2_pos; exact Hs).
    eapply rounds_to_eq;
      [|apply (binary_round_aux_rounds (xorb sx sy) _ ez _
                 (Zpos mx * 2 ^ s) (Zpos my)); try lia; try reflexivity].
    unfold frac. rewrite inject_Z_mult, pow2_inject by lia.
    assert (E : (pow2 ex == pow2 s * pow2 ez * pow2 ey)%Q).
    { rewrite <- !pow2_add. f_equiv. lia. }
    rewrite E.
    pose proof (pow2_gt_0 ey). pose proof (pow2_gt_0 s).
    pose proof (pow2_gt_0 ez).
    pose proof (inject_Z_pos (Zpos my) ltac:(lia)).
    destruct sx, sy; cbn [xorb signQ]; field; split; lra.
Qed.

(** *** Monotone operations on [spec_float] *)

Definition not_nan (r : spec_float) : bool :=
  match r with S754_nan => false | _ => true end.

Lemma pack_not_nan (s : bool) (k E : Z) : not_nan (pack s k E) = true.
Proof.
  unfold pack.
  destruct (k =? 0), (k <? 2 ^ 53), (E <=? 971), (E + 1 <=? 971); reflexivity.
Qed.

Lemma rounds_to_not_nan (r : spec_float) (v : Q) :
  rounds_to r v -> not_nan r = true.
Proof. intros (s & A & B & E & -> & _). apply pack_not_nan. Qed.

Lemma SFleb_neg_inf (r : spec_float) :
  not_nan r = true -> SFleb (S754_infinity true) r = true.
Proof. destruct r as [[]|[]| |[] m e]; try discriminate; reflexivity. Qed.

Lemma SFleb_pos_inf (r : spec_float) :
  not_nan r = true -> SFleb r (S754_infinity false) = true.
Proof. destruct r as [[]|[]| |[] m e]; try discriminate; reflexivity. Qed.

Lemma SFleb_not_nan (x y : spec_float) :
  SFleb x y = true -> not_nan x = true /\ not_nan y = true.
Proof.
  destruct x as [[]|[]| |[] mx ex], y as [[]|[]| |[] my ey];
    cbn [SFleb SFcompare not_nan]; try discriminate; split; reflexivity.
Qed.

Lemma SFleb_refl (x : spec_float) : not_nan x = true -> SFleb x x = true.
Proof.
  destruct x as [[]|[]| |[] m e]; try discriminate; intros _;
    cbn [SFleb SFcompare]; try reflexivity;
    rewrite Z.compare_refl; change (Pos.compare_cont Eq) with Pos.compare;
    rewrite Pos.compare_refl; reflexivity.
Qed.

(** Kinds of a number that is not NaN: an infinity or finite. *)
Lemma not_nan_cases (x : spec_float) :
  not_nan x = true ->
  x = S754_infinity true \/ x = S754_infinity false \/ is_finite_SF x = true.
Proof.
  destruct x as [s|[]| |s m e]; try discriminate; intros _; auto.
Qed.

Lemma SFleb_inf_l (y : spec_float) :
  SFleb (S754_infinity false) y = true -> y = S754_infinity false.
Proof.
  destruct y as [[]|[]| |[] m e]; cbn [SFleb SFcompare]; try discriminate;
    reflexivity.
Qed.

Lemma SFleb_inf_r (x : spec_float) :
  SFleb x (S754_infinity true) = true -> x = S754_infinity true.
Proof.
  destruct x as [[]|[]| |[] m e]; cbn [SFleb SFcompare]; try discriminate;
    reflexivity.
Qed.

(** A function on floats that rounds a non-decreasing function of the value
    and maps each infinity to itself is non-decreasing. *)
Lemma monotone_lift (F : spec_float -> spec_float) (f : Q -> Q) :
  (forall x, valid_binary x = true -> is_finite_SF x = true ->
             rounds_to (F x) (f (SF2Q x))) ->
  (forall u v, (u <= v)%Q -> (f u <= f v)%Q) ->
  F (S754_infinity true) = S754_infinity true ->
  F (S754_infinity false) = S754_infinity false ->
  forall x y,
    valid_binary x = true -> valid_binary y = true ->
    SFleb x y = true -> SFleb (F x) (F y) = true.
Proof.
  intros HF Hf Fn Fp x y Vx Vy H.
  destruct (SFleb_not_nan x y H) as [Nx Ny].
  assert (NF : forall z, valid_binary z = true -> not_nan z = true ->
                         not_nan (F z) = true).
  { intros z Vz Nz. destruct (not_nan_cases z Nz) as [->|[->|Fz]].
    - rewrite Fn. reflexivity.
    - rewrite Fp. reflexivity.
    - apply (rounds_to_not_nan _ _ (HF z Vz Fz)). }
  destruct (not_nan_cases x Nx) as [->|[->|Fx]].
  - rewrite Fn. apply SFleb_neg_inf. apply NF; assumption.
  - apply SFleb_inf_l in H. subst y. rewrite Fp. reflexivity.
  - destruct (not_nan_cases y Ny) as [->|[->|Fy]].
    + apply SFleb_inf_r in H. subst x. discriminate.
    + rewrite Fp. apply SFleb_pos_inf. apply NF; assumption.
    + apply (rounds_to_mono _ _ _ _ (HF x Vx Fx) (HF y Vy Fy)).
      apply Hf. apply SFleb_value; assumption.
Qed.

Lemma SF2Q_pos (m : positive) (e : Z) : (0 < SF2Q (S754_finite false m e))%Q.
Proof.
  cbn [SF2Q signQ]. pose proof (pow2_gt_0 e).
  pose proof (inject_Z_pos (Zpos m) ltac:(lia)).
  assert (0 < inject_Z (Z.pos m) * pow2 e)%Q
    by (apply Qmult_lt_0_compat; assumption).
  lra.
Qed.

Lemma SFmul_mono (c : spec_float) (m : positive) (e : Z) :
  c = S754_finite false m e -> valid_binary c = true ->
  forall x y,
    valid_binary x = true -> valid_binary y = true ->
    SFleb x y = true -> SFleb (SFmul prec emax x c) (SFmul prec emax y c) = true.
Proof.
  intros -> Vc.
  apply (monotone_lift (fun x => SFmul prec emax x (S754_finite false m e))
           (fun v => v * SF2Q (S754_finite false m e))%Q).
  - intros x Vx Fx. apply SFmul_rounds; try assumption. reflexivity.
  - intros u v H. pose proof (SF2Q_pos m e).
    apply Qmult_le_compat_r; lra.
  - reflexivity.
  - reflexivity.
Qed.

Lemma SFdiv_mono (c : spec_float) (m : positive) (e : Z) :
  c = S754_finite false m e -> valid_binary c = true ->
  forall x y,
    valid_binary x = true -> valid_binary y = true ->
    SFleb x y = true -> SFleb (SFdiv prec emax x c) (SFdiv prec emax y c) = true.
Proof.
  intros -> Vc.
  apply (monotone_lift (fun x => SFdiv prec emax x (S754_finite false m e))
           (fun v => v / SF2Q (S754_finite false m e))%Q).
  - intros x Vx Fx. apply SFdiv_rounds; try assumption.
    exists false, m, e. reflexivity.
  - intros u v H. pose proof (SF2Q_pos m e) as P.
    unfold Qdiv. apply Qmult_le_compat_r; [exact H|].
    apply Qlt_le_weak. apply Qinv_lt_0_compat. exact P.
  - reflexivity.
  - reflexivity.
Qed.

Lemma SFadd_mono (c : spec_float) :
  is_finite_SF c = true -> valid_binary c = true ->
  forall x y,
    valid_binary x = true -> valid_binary y = true ->
    SFleb x y = true -> SFleb (SFadd prec emax x c) (SFadd prec emax y c) = true.
Proof.
  intros Fc Vc.
  apply (monotone_lift (fun x => SFadd prec emax x c)
           (fun v => v + SF2Q c)%Q).
  - intros x Vx Fx. apply SFadd_rounds; assumption.
  - intros u v H. lra.
  - destruct c as [[]|[]| |[] m e]; try discriminate; reflexivity.
  - destruct c as [[]|[]| |[] m e]; try discriminate; reflexivity.
Qed.

Lemma SFadd_comm (x y : spec_float) :
  SFadd prec emax x y = SFadd prec emax y x.
Proof.
  destruct x as [[]|[]| |sx mx ex], y as [[]|[]| |sy my ey];
    cbn [SFadd]; try reflexivity.
  rewrite (Z.min_comm ey ex). f_equal. apply Z.add_comm.
Qed.

Lemma SFsub_add_opp (x y : spec_float) :
  SFsub prec emax x y = SFadd prec emax x (SFopp y).
Proof.
  destruct x as [[]|[]| |sx mx ex], y as [[]|[]| |sy my ey];
    cbn [SFsub SFadd SFopp negb]; try reflexivity.
  f_equal. destruct sy; cbn [cond_Zopp negb]; lia.
Qed.

Lemma SFopp_valid (x : spec_float) : valid_binary (SFopp x) = valid_binary x.
Proof. destruct x; reflexivity. Qed.

Lemma SFadd_nan_inv (x y : spec_float) :
  not_nan (SFadd prec emax x y) = true ->
  not_nan x = true /\ not_nan y = true.
Proof.
  destruct x as [[]|[]| |sx mx ex], y as [[]|[]| |sy my ey];
    cbn [SFadd not_nan]; try discriminate; split; reflexivity.
Qed.

Lemma SFmul_nan_inv (x y : spec_float) :
  not_nan (SFmul prec emax x y) = true ->
  not_nan x = true /\ not_nan y = true.
Proof.
  destruct x as [[]|[]| |sx mx ex], y as [[]|[]| |sy my ey];
    cbn [SFmul not_nan]; try discriminate; split; reflexivity.
Qed.

Lemma SFdiv_nan_inv (x y : spec_float) :
  not_nan (SFdiv prec emax x y) = true ->
  not_nan x = true /\ not_nan y = true.
Proof.
  destruct x as [[]|[]| |sx mx ex], y as [[]|[]| |sy my ey];
    cbn [SFdiv not_nan]; try discriminate; split; reflexivity.
Qed.

(** Adding any [c], as long as both sums are numbers. *)
Lemma SFadd_mono_numbers (c x y : spec_float) :
  valid_binary c = true -> valid_binary x = true -> valid_binary y = true ->
  SFleb x y = true ->
  not_nan (SFadd prec emax x c) = true ->
  not_nan (SFadd prec emax y c) = true ->
  SFleb (SFadd prec emax x c) (SFadd prec emax y c) = true.
Proof.
  intros Vc Vx Vy H Nx Ny.
  destruct (SFadd_nan_inv _ _ Nx) as [_ Nc].
  destruct (not_nan_cases c Nc) as [->|[->|Fc]].
  - destruct x as [[]|[]| |sx mx ex], y as [[]|[]| |sy my ey];
      try discriminate; reflexivity.
  - destruct x as [[]|[]| |sx mx ex], y as [[]|[]| |sy my ey];
      try discriminate; reflexivity.
  - apply SFadd_mono; assumption.
Qed.

End B64Round.

(** ** Monotone arithmetic of binary64 *)

Module B64Mono.

Import B64Round.
Local Open Scope float_scope.

(** [x] is a number: not NaN. *)
Definition number (x : float) : Prop := (x =? x) = true.

Lemma number_spec (x : float) : number x <-> not_nan (Prim2SF x) = true.
Proof.
  unfold number. rewrite eqb_spec.
  destruct (Prim2SF x) as [[]|[]| |[] m e]; cbn [SFeqb SFcompare not_nan];
    try rewrite Z.compare_refl;
    change (Pos.compare_cont Eq) with Pos.compare;
    try rewrite Pos.compare_refl; cbn [CompOpp];
    split; intros; try discriminate; reflexivity.
Qed.

Lemma leb_numbers (x y : float) : (x <=? y) = true -> number x /\ number y.
Proof.
  rewrite leb_spec, !number_spec. apply SFleb_not_nan.
Qed.

Lemma leb_refl (x : float) : number x -> (x <=? x) = true.
Proof. rewrite leb_spec, number_spec. apply SFleb_refl. Qed.

(** [c] is finite and positive. *)
Definition positive_finite (c : float) : Prop :=
  (0 <? c) = true /\ (c <? infinity) = true.

Lemma positive_finite_spec (c : float) :
  positive_finite c -> exists m e, Prim2SF c = S754_finite false m e.
Proof.
  unfold positive_finite. rewrite !ltb_spec.
  change (Prim2SF 0) with (S754_zero false).
  change (Prim2SF infinity) with (S754_infinity false).
  destruct (Prim2SF c) as [[]|[]| |[] m e]; cbn [SFltb SFcompare];
    intros [H1 H2]; try discriminate.
  exists m, e. reflexivity.
Qed.

(** [c] is finite. *)
Definition finite (c : float) : Prop := (abs c <? infinity) = true.

Lemma finite_spec (c : float) : finite c <-> is_finite_SF (Prim2SF c) = true.
Proof.
  unfold finite. rewrite ltb_spec, abs_spec.
  change (Prim2SF infinity) with (S754_infinity false).
  destruct (Prim2SF c) as [[]|[]| |[] m e];
    cbn [SFabs SFltb SFcompare is_finite_SF];
    split; intros; try discriminate; reflexivity.
Qed.

Lemma mul_le_mono_pos (c x y : float) :
  positive_finite c -> (x <=? y) = true -> (x * c <=? y * c) = true.
Proof.
  intros Hc. destruct (positive_finite_spec c Hc) as (m & e & Ec).
  rewrite !leb_spec, !mul_spec.
  apply (SFmul_mono _ m e Ec); apply Prim2SF_valid.
Qed.

Lemma div_le_mono_pos (c x y : float) :
  positive_finite c -> (x <=? y) = true -> (x / c <=? y / c) = true.
Proof.
  intros Hc. destruct (positive_finite_spec c Hc) as (m & e & Ec).
  rewrite !leb_spec, !div_spec.
  apply (SFdiv_mono _ m e Ec); apply Prim2SF_valid.
Qed.

Lemma add_le_mono_l (c x y : float) :
  (x <=? y) = true -> number (x + c) -> number (y + c) ->
  (x + c <=? y + c) = true.
Proof.
  rewrite !number_spec, !leb_spec, !add_spec.
  intros H Nx Ny. apply SFadd_mono_numbers; try apply Prim2SF_valid; assumption.
Qed.

Lemma add_le_mono_r (c x y : float) :
  (x <=? y) = true -> number (c + x) -> number (c + y) ->
  (c + x <=? c + y) = true.
Proof.
  rewrite !number_spec, !leb_spec, !add_spec.
  unfold SF64add. rewrite !(SFadd_comm (Prim2SF c)).
  intros H Nx Ny. apply SFadd_mono_numbers; try apply Prim2SF_valid; assumption.
Qed.

Lemma sub_le_mono_l (c x y : float) :
  (x <=? y) = true -> number (x - c) -> number (y - c) ->
  (x - c <=? y - c) = true.
Proof.
  rewrite !number_spec, !leb_spec, !sub_spec.
  unfold SF64sub. rewrite !SFsub_add_opp.
  intros H Nx Ny. apply SFadd_mono_numbers; try apply Prim2SF_valid;
    try assumption.
  rewrite SFopp_valid. apply Prim2SF_valid.
Qed.

Lemma sub_le_anti_r (c x y : float) :
  (x <=? y) = true -> number (c - x) -> number (c - y) ->
  (c - y <=? c - x) = true.
Proof.
  rewrite !number_spec, !leb_spec, !sub_spec.
  unfold SF64sub. rewrite !SFsub_add_opp, !(SFadd_comm (Prim2SF c)).
  intros H Nx Ny. apply SFadd_mono_numbers; try apply Prim2SF_valid;
    try assumption; try (rewrite SFopp_valid; apply Prim2SF_valid).
  rewrite SFleb_opp. exact H.
Qed.

End B64Mono.

(** ** Reading the engine at binary64 *)

Module B64Eval.

Local Open Scope float_scope.

(** Every literal of the source denotes the double Rocq's own parser gives
    for it. *)
Definition literals : list (Q * float) :=
  [ (0%Q, 0); (1.0%Q, 1.0); (2%Q, 2); (3%Q, 3); (4%Q, 4); (10%Q, 10);
    (15%Q, 15); (20%Q, 20); (30%Q, 30); (50%Q, 50); (60%Q, 60); (70%Q, 70);
    (80%Q, 80); (85%Q, 85); (90%Q, 90); (100%Q, 100); (100.0%Q, 100);
    (120%Q, 120); (150%Q, 150); (200%Q, 200); (250%Q, 250);
    (0.05%Q, 0.05); (0.1%Q, 0.1); (0.10%Q, 0.10); (0.15%Q, 0.15);
    (0.2%Q, 0.2); (0.20%Q, 0.20); (0.25%Q, 0.25); (0.3%Q, 0.3);
    (0.6%Q, 0.6); (0.8%Q, 0.8); (1.15%Q, 1.15); (1.2%Q, 1.2); (1.3%Q, 1.3) ].

Lemma literals_faithful :
  forallb (fun '(q, f) => Leibniz.eqb (float_lit q) f) literals = true.
Proof. vm_compute. reflexivity. Qed.

(** Replace each literal by its double and expose the primitive operations. *)
Ltac b64 :=
  cbn [num lit add sub mul quot absv eqb ltb leb B64] in *;
  repeat match goal with
         | |- context [float_lit ?q] =>
             let v := eval vm_compute in (float_lit q) in
             change (float_lit q) with v
         | H : context [float_lit ?q] |- _ =>
             let v := eval vm_compute in (float_lit q) in
             change (float_lit q) with v in H
         end.

(** A division by a literal that is not zero returns. *)
Lemma truediv_ok (x y : float) :
  (y =? 0) = false -> truediv B64 x y = Ok (x / y).
Proof. unfold truediv. b64. intros ->. reflexivity. Qed.

End B64Eval.

(** ** The engine returns

    Facts of the control flow, for any arithmetic whose divisor literals are
    not zero. *)

Section Returns.

Variable N : arith.
Hypothesis Hdiv : nonzero_divisors N.

Lemma truediv_lit (x : N) (q : Q) :
  In q divisors -> truediv N x (lit N q) = Ok (quot N x (lit N q)).
Proof. intros Hq. unfold truediv. rewrite (Hdiv q Hq). reflexivity. Qed.

Ltac div_lit :=
  repeat (rewrite truediv_lit by (cbn; tauto)); cbn [bind].

Lemma size_score_returns (size : N) :
  size_score N size =
  Ok (if leb N (lit N 80) size && leb N size (lit N 120) then lit N 100
      else if ltb N size (lit N 80)
           then mul N (quot N size (lit N 80)) (lit N 100)
           else py_max N (lit N 0)
                  (sub N (lit N 100) (quot N (sub N size (lit N 120)) (lit N 2)))).
Proof.
  unfold size_score.
  destruct (leb N (lit N 80) size && leb N size (lit N 120)); [reflexivity|].
  destruct (ltb N size (lit N 80)); div_lit; reflexivity.
Qed.

Lemma size_ratio_returns (hyd_size size : N) :
  size_ratio N hyd_size size =
  Ok (if truthy N size then quot N hyd_size size else lit N 1.0).
Proof.
  unfold size_ratio, truthy, truediv.
  destruct (eqb N size (lit N 0)); reflexivity.
Qed.

Lemma base_toxicity_returns (charge size : N) :
  base_toxicity N charge size =
  Ok (py_min N (lit N 10)
        (add N (quot N (absv N charge) (lit N 10))
               (quot N (py_max N (lit N 0) (absv N (sub N size (lit N 100))))
                       (lit N 50)))).
Proof. unfold base_toxicity. div_lit. reflexivity. Qed.

Lemma degradation_toxicity_returns (t : N) :
  degradation_toxicity N t =
  Ok (py_max N (lit N 0) (quot N (sub N t (lit N 30)) (lit N 30))).
Proof. unfold degradation_toxicity. div_lit. reflexivity. Qed.

Lemma base_cost_returns (encap size : N) :
  base_cost N encap size =
  Ok (py_min N (lit N 100)
        (add N (mul N (sub N (lit N 100) encap) (lit N 0.8))
               (quot N size (lit N 4)))).
Proof. unfold base_cost. div_lit. reflexivity. Qed.

Lemma degradation_cost_returns (t : N) :
  degradation_cost N t =
  Ok (py_max N (lit N 0) (quot N (sub N t (lit N 60)) (lit N 10))).
Proof. unfold degradation_cost. div_lit. reflexivity. Qed.

(** With the three required keys present [compute_impact] returns, and its
    result is assembled from the values its helpers return. *)
Lemma compute_impact_returns (d : design N) (size charge encap : N) :
  Size N d = Some size ->
  Charge N d = Some charge ->
  Encapsulation N d = Some encap ->
  let pdi := get (PDI N d) (lit N 0.15) in
  let hyd_size := get (HydrodynamicSize N d) (mul N size (lit N 1.2)) in
  let stability := get (Stability N d) (lit N 85) in
  let surface_area := get (SurfaceArea N d) (lit N 250) in
  let degradation_time := get (DegradationTime N d) (lit N 30) in
  exists ss r bt dt bc dc,
    size_score N size = Ok ss /\
    size_ratio N hyd_size size = Ok r /\
    base_toxicity N charge size = Ok bt /\
    degradation_toxicity N degradation_time = Ok dt /\
    base_cost N encap size = Ok bc /\
    degradation_cost N degradation_time = Ok dc /\
    compute_impact N d =
    Ok {| Delivery := delivery N ss (charge_score N charge) encap
                        (pdi_score N pdi) (hydrodynamic_score N r) stability;
          Toxicity := py_min N (lit N 10)
                        (add N (add N bt (mul N pdi (lit N 2))) dt);
          Cost := py_min N (lit N 100)
                    (add N (add N (add N bc (quot N surface_area (lit N 20)))
                                  (pdi_cost N pdi)) dc) |}.
Proof.
  intros Hs Hc He pdi hyd_size stability surface_area degradation_time.
  unfold compute_impact. rewrite Hs, Hc, He. cbn [getitem bind].
  fold pdi hyd_size stability surface_area degradation_time.
  rewrite size_score_returns, size_ratio_returns, base_toxicity_returns,
    degradation_toxicity_returns, base_cost_returns, degradation_cost_returns.
  cbn [bind]. div_lit.
  do 6 eexists. repeat (split; [reflexivity|]). reflexivity.
Qed.

End Returns.

(** ** The worked example of the specification *)

Module Example.

Import B64Eval.
Local Open Scope float_scope.

Lemma b64_nonzero_divisors : nonzero_divisors B64.
Proof.
  intros q Hq. cbn in Hq.
  repeat (destruct Hq as [<-|Hq]; [vm_compute; reflexivity|]).
  contradiction.
Qed.

Lemma exact_nonzero_divisors : nonzero_divisors Exact.
Proof.
  intros q Hq. cbn in Hq.
  repeat (destruct Hq as [<-|Hq]; [reflexivity|]).
  contradiction.
Qed.

Lemma example_b64 :
  compute_impact B64 (example_design B64) = Ok (@Impact B64 91 0.8 54.5).
Proof. vm_compute. reflexivity. Qed.

Lemma example_exact :
  exists i, compute_impact Exact (example_design Exact) = Ok i
            /\ (Delivery Exact i == 91 /\ Toxicity Exact i == 0.8
                /\ Cost Exact i == 54.5)%Q.
Proof.
  eexists. split; [vm_compute; reflexivity|].
  repeat split; vm_compute; reflexivity.
Qed.

(** C1, as the specification states it, fails: for the design
    [{Size: 100, Charge: 5, Encapsulation: 85}] the Delivery that
    [compute_impact] returns is not 92.0, neither in binary64 nor in exact
    arithmetic. *)
Lemma example_delivery_is_not_92 :
  ~ ((exists i, compute_impact B64 (example_design B64) = Ok i
                /\ Delivery B64 i = 92)
     \/ (exists i, compute_impact Exact (example_design Exact) = Ok i
                   /\ (Delivery Exact i == 92)%Q)).
Proof.
  intros [[i [H D]]|[i [H D]]].
  - rewrite example_b64 in H. injection H as <-.
    assert (E : (Delivery B64 (@Impact B64 91 0.8 54.5) =? 92) = true)
      by (rewrite D; vm_compute; reflexivity).
    revert E. vm_compute. discriminate.
  - destruct example_exact as [j [Hj [Dj _]]].
    rewrite Hj in H. injection H as <-.
    rewrite Dj in D. revert D. vm_compute. discriminate.
Qed.

(** C1, amended: the six sub-scores are 100, 100, 85, 70, 100 and 85 as the
    specification says, their weighted sum is 91.0 (25 + 20 + 21.25 + 10.5 +
    10 + 4.25), and [compute_impact] returns Delivery 91.0, Toxicity 0.8 and
    Cost 54.5: bit for bit in binary64, and as rationals in exact
    arithmetic. *)
Theorem example_impact :
  size_score B64 100 = Ok 100
  /\ charge_score B64 5 = 100
  /\ pdi_score B64 0.15 = 70
  /\ size_ratio B64 (100 * 1.2) 100 = Ok 1.2
  /\ hydrodynamic_score B64 1.2 = 100
  /\ delivery B64 100 100 85 70 100 85 = 91
  /\ compute_impact B64 (example_design B64) = Ok (@Impact B64 91 0.8 54.5)
  /\ exists i, compute_impact Exact (example_design Exact) = Ok i
               /\ (Delivery Exact i == 91 /\ Toxicity Exact i == 0.8
                   /\ Cost Exact i == 54.5)%Q.
Proof.
  repeat split; try (vm_compute; reflexivity).
  apply example_exact.
Qed.

End Example.

(** ** Reading the engine in exact arithmetic *)

Module ExactEval.

Local Open Scope Q_scope.

Lemma leb_exact (x y : Q) : leb Exact x y = true <-> x <= y.
Proof. apply Qle_bool_iff. Qed.

Lemma leb_exact_false (x y : Q) : leb Exact x y = false <-> y < x.
Proof.
  cbn [leb Exact]. split; intros H.
  - apply Qnot_le_lt. intros L. apply Qle_bool_iff in L. congruence.
  - destruct (Qle_bool x y) eqn:E; [|reflexivity].
    apply Qle_bool_iff in E. apply Qlt_not_le in H. contradiction.
Qed.

Lemma ltb_exact (x y : Q) : ltb Exact x y = true <-> x < y.
Proof.
  cbn [ltb Exact]. rewrite negb_true_iff. apply (leb_exact_false y x).
Qed.

Lemma ltb_exact_false (x y : Q) : ltb Exact x y = false <-> y <= x.
Proof.
  cbn [ltb Exact]. rewrite negb_false_iff. apply (leb_exact y x).
Qed.

Lemma eqb_exact (x y : Q) : eqb Exact x y = true <-> x == y.
Proof. apply Qeq_bool_iff. Qed.

Lemma is_nan_exact (x : Q) : is_nan Exact x = false.
Proof.
  unfold is_nan. apply negb_false_iff. apply eqb_exact. reflexivity.
Qed.

(** Decide every comparison, in the goal and in the hypotheses, keeping the
    outcome as a fact of [Q]. *)
Ltac q_test t :=
  let b := fresh "b" in
  let E := fresh "E" in
  remember t as b eqn:E in *; symmetry in E; destruct b;
  first [ apply leb_exact in E | apply leb_exact_false in E
        | apply ltb_exact in E | apply ltb_exact_false in E
        | apply eqb_exact in E | idtac ].

Ltac q_tests :=
  unfold py_min, py_max, np_clip, np_minimum, np_maximum in *;
  repeat rewrite is_nan_exact in *;
  repeat match goal with
         | |- context [leb Exact ?x ?y] => q_test (leb Exact x y)
         | |- context [ltb Exact ?x ?y] => q_test (ltb Exact x y)
         | |- context [eqb Exact ?x ?y] => q_test (eqb Exact x y)
         | H : context [leb Exact ?x ?y] |- _ => q_test (leb Exact x y)
         | H : context [ltb Exact ?x ?y] |- _ => q_test (ltb Exact x y)
         | H : context [eqb Exact ?x ?y] |- _ => q_test (eqb Exact x y)
         end;
  cbn [orb andb negb] in *.

(** Unfold absolute values by sign. *)
Ltac q_abs :=
  repeat match goal with
         | |- context [Qabs ?x] =>
             let H := fresh "A" in
             destruct (Qlt_le_dec x 0) as [H|H];
             [rewrite (Qabs_neg x) in * by (apply Qlt_le_weak; exact H)
             |rewrite (Qabs_pos x) in * by exact H]
         | H0 : context [Qabs ?x] |- _ =>
             let H := fresh "A" in
             destruct (Qlt_le_dec x 0) as [H|H];
             [rewrite (Qabs_neg x) in * by (apply Qlt_le_weak; exact H)
             |rewrite (Qabs_pos x) in * by exact H]
         end.

Ltac q_ops :=
  change (num Exact) with Q in *;
  change (add Exact) with Qplus in *;
  change (sub Exact) with Qminus in *;
  change (mul Exact) with Qmult in *;
  change (quot Exact) with Qdiv in *;
  change (absv Exact) with Qabs in *;
  change (lit Exact) with (fun q : Q => q) in *;
  cbv beta in *.

Ltac q_unfold :=
  q_ops; unfold Qdiv in *; cbn [Qinv Qnum Qden] in *.

Ltac q_solve := q_tests; q_unfold; q_abs; try lra.

End ExactEval.


(** ** Recommendations *)

Section Recommendations.

Variable N : arith.

(** The messages of the three categories. *)
Definition size_messages : list string := [msg_increase_size; msg_reduce_size].
Definition charge_messages : list string := [msg_lower_charge; msg_reduce_charge].
Definition encapsulation_messages : list string :=
  [msg_improve_encapsulation; msg_aim_encapsulation].

(** A category contributes nothing or one of its messages. *)
Definition at_most_one_of (category l : list string) : Prop :=
  l = [] \/ exists m, In m category /\ l = [m].

(** C5.  With the required keys present, [get_recommendations] returns the
    size part, then the charge part, then the encapsulation part, each empty
    or a single message of its category and empty exactly when neither
    condition of the category holds; when all three parts are empty, and
    only then, it returns the single fallback message instead.  Without a
    required key it raises [KeyError]. *)
Theorem get_recommendations_shape (d : design N) :
  match Size N d, Charge N d, Encapsulation N d with
  | Some size, Some charge, Some encapsulation =>
      exists s c e,
        at_most_one_of size_messages s
        /\ at_most_one_of charge_messages c
        /\ at_most_one_of encapsulation_messages e
        /\ (s = [] <-> ltb N size (lit N 80) = false
                       /\ ltb N (lit N 150) size = false)
        /\ (c = [] <-> ltb N (lit N 15) (absv N charge) = false
                       /\ ltb N (lit N 10) (absv N charge) = false)
        /\ (e = [] <-> ltb N encapsulation (lit N 70) = false
                       /\ ltb N encapsulation (lit N 85) = false)
        /\ get_recommendations N d =
           Ok (match (s ++ c ++ e)%list with
               | [] => [msg_excellent]
               | l => l
               end)
        /\ (get_recommendations N d = Ok [msg_excellent]
            <-> s = [] /\ c = [] /\ e = [])
  | None, _, _ => get_recommendations N d = Raised (KeyError "Size")
  | Some _, None, _ => get_recommendations N d = Raised (KeyError "Charge")
  | Some _, Some _, None =>
      get_recommendations N d = Raised (KeyError "Encapsulation")
  end.
Proof.
  unfold get_recommendations.
  destruct (Size N d) as [size|]; cbn [getitem bind]; [|reflexivity].
  destruct (Charge N d) as [charge|]; cbn [getitem bind]; [|reflexivity].
  destruct (Encapsulation N d) as [encapsulation|]; cbn [getitem bind];
    [|reflexivity].
  exists (if ltb N size (lit N 80) then [msg_increase_size]
          else if ltb N (lit N 150) size then [msg_reduce_size] else []),
         (if ltb N (lit N 15) (absv N charge) then [msg_lower_charge]
          else if ltb N (lit N 10) (absv N charge) then [msg_reduce_charge]
               else []),
         (if ltb N encapsulation (lit N 70) then [msg_improve_encapsulation]
          else if ltb N encapsulation (lit N 85) then [msg_aim_encapsulation]
               else []).
  unfold at_most_one_of, size_messages, charge_messages,
    encapsulation_messages, append.
  destruct (ltb N size (lit N 80)), (ltb N (lit N 150) size),
    (ltb N (lit N 15) (absv N charge)), (ltb N (lit N 10) (absv N charge)),
    (ltb N encapsulation (lit N 70)), (ltb N encapsulation (lit N 85));
    cbn [List.app];
    repeat split;
    try (left; reflexivity);
    try (right; eexists; split; [|reflexivity]; cbn; tauto);
    try tauto; try discriminate; try congruence;
    try (intros [? ?]; discriminate);
    try (intros [? [? ?]]; discriminate).
Qed.

End Recommendations.

(** ** Severity of the charge messages *)

Module Severity.

Import B64Order.
Local Open Scope float_scope.

(** The severity markers: the emoji a message starts with (the same three
    that [validate_parameter] returns as statuses). *)
Definition high_marker : string := "🔴".
Definition medium_marker : string := "🟡".
Definition pass_marker : string := "✅".

Definition carries (marker msg : string) : bool := String.prefix marker msg.

(** [{Size: 100, Charge: 20, Encapsulation: 90}] *)
Definition charged_design : design B64 :=
  Design (Some 100) (Some 20) (Some 90) None None None None None None.

(** [{Size: 100, Charge: -12, Encapsulation: 90}] *)
Definition mildly_charged_design : design B64 :=
  Design (Some 100) (Some (-12)) (Some 90) None None None None None None.

(** C6, as the specification states it, fails: with Charge 20 the
    recommendation is the lower-charge message, and that message starts with
    the medium marker, not with the high one. *)
Lemma lower_charge_is_not_high_severity :
  get_recommendations B64 charged_design = Ok [msg_lower_charge]
  /\ carries high_marker msg_lower_charge = false
  /\ carries medium_marker msg_lower_charge = true.
Proof. repeat split; vm_compute; reflexivity. Qed.

(** The result around the charge message, whichever it is. *)
Lemma get_recommendations_charged (d : design B64)
                                  (size charge encapsulation : float) :
  Size B64 d = Some size ->
  Charge B64 d = Some charge ->
  Encapsulation B64 d = Some encapsulation ->
  (15 <? abs charge) = true \/ (10 <? abs charge) = true ->
  exists s e,
    at_most_one_of size_messages s
    /\ at_most_one_of encapsulation_messages e
    /\ get_recommendations B64 d =
       Ok (s ++ [if 15 <? abs charge then msg_lower_charge
                 else msg_reduce_charge] ++ e)%list.
Proof.
  intros Hs Hc He Hcharge.
  exists (if size <? 80 then [msg_increase_size]
          else if 150 <? size then [msg_reduce_size] else []),
         (if encapsulation <? 70 then [msg_improve_encapsulation]
          else if encapsulation <? 85 then [msg_aim_encapsulation] else []).
  split; [|split].
  - unfold at_most_one_of, size_messages.
    destruct (size <? 80); [right; eexists; split; [|reflexivity]; cbn; tauto|].
    destruct (150 <? size); [right; eexists; split; [|reflexivity]; cbn; tauto|].
    left; reflexivity.
  - unfold at_most_one_of, encapsulation_messages.
    destruct (encapsulation <? 70);
      [right; eexists; split; [|reflexivity]; cbn; tauto|].
    destruct (encapsulation <? 85);
      [right; eexists; split; [|reflexivity]; cbn; tauto|].
    left; reflexivity.
  - unfold get_recommendations. rewrite Hs, Hc, He. cbn [getitem bind].
    unfold append. B64Eval.b64.
    destruct (15 <? abs charge) eqn:E15.
    + destruct (size <? 80), (150 <? size), (encapsulation <? 70),
        (encapsulation <? 85); reflexivity.
    + destruct Hcharge as [H|H]; [discriminate|]. rewrite H.
      destruct (size <? 80), (150 <? size), (encapsulation <? 70),
        (encapsulation <? 85); reflexivity.
Qed.

(** C6, amended.  With the required keys present: when [|Charge| > 15] the
    charge message is the lower-charge one, when [10 < |Charge| <= 15] it is
    the reduce-charge one; it stands between the size part and the
    encapsulation part of the result, and both charge messages carry the
    medium marker (neither carries the high one). *)
Theorem charge_recommendation (d : design B64) (size charge encapsulation : float) :
  Size B64 d = Some size ->
  Charge B64 d = Some charge ->
  Encapsulation B64 d = Some encapsulation ->
  ((15 <? abs charge) = true ->
   exists s e,
     at_most_one_of size_messages s
     /\ at_most_one_of encapsulation_messages e
     /\ get_recommendations B64 d = Ok (s ++ [msg_lower_charge] ++ e)%list)
  /\ ((10 <? abs charge) = true -> (abs charge <=? 15) = true ->
      exists s e,
        at_most_one_of size_messages s
        /\ at_most_one_of encapsulation_messages e
        /\ get_recommendations B64 d = Ok (s ++ [msg_reduce_charge] ++ e)%list)
  /\ carries medium_marker msg_lower_charge = true
  /\ carries medium_marker msg_reduce_charge = true
  /\ carries high_marker msg_lower_charge = false
  /\ carries high_marker msg_reduce_charge = false.
Proof.
  intros Hs Hc He. split; [|split].
  - intros H15.
    destruct (get_recommendations_charged d size charge encapsulation
                Hs Hc He (or_introl H15)) as [s [e H]].
    rewrite H15 in H. exists s, e. exact H.
  - intros H10 H15. apply leb_not_ltb in H15.
    destruct (get_recommendations_charged d size charge encapsulation
                Hs Hc He (or_intror H10)) as [s [e H]].
    rewrite H15 in H. exists s, e. exact H.
  - repeat split; vm_compute; reflexivity.
Qed.

Lemma charge_recommendation_witness :
  exists s e,
    get_recommendations B64 mildly_charged_design =
    Ok (s ++ [msg_reduce_charge] ++ e)%list.
Proof.
  destruct (charge_recommendation mildly_charged_design 100 (-12) 90
              eq_refl eq_refl eq_refl) as [_ [H _]].
  destruct (H eq_refl eq_refl) as [s [e [_ [_ E]]]].
  exists s, e. exact E.
Defined.

End Severity.

(** ** Parameter validation *)

Module Validation.

Local Open Scope float_scope.

(** C7, as the specification states it, fails: 140 lies outside [[80, 120]]
    and exactly 20 units from the bound 120, so it is within 20 units of a
    bound, and yet [validate_parameter] answers bad, not warning. *)
Lemma validate_at_distance_20 :
  (80 <=? 140) && (140 <=? 120) = false
  /\ (abs (140 - 120) <=? 20) = true
  /\ validate_parameter B64 "Size" 140 [80; 120] = Ok status_bad
  /\ status_bad <> status_warning.
Proof.
  repeat split; try (vm_compute; reflexivity).
  intros H. vm_compute in H. discriminate.
Qed.

(** C7, amended.  For every value and range [[lo, hi]], in every arithmetic,
    [validate_parameter] returns: ok exactly when [lo <= value <= hi];
    warning exactly when the value is outside the range and strictly less
    than 20 away from [lo] or from [hi]; bad exactly in the remaining case.
    In binary64 [validate("Size", 130, [80, 120])] is warning and
    [validate("Size", 200, [80, 120])] is bad. *)
Theorem validate_parameter_spec :
  (forall (N : arith) (param : string) (value lo hi : N),
      let inside := leb N lo value && leb N value hi in
      let near := ltb N (absv N (sub N value lo)) (lit N 20)
                  || ltb N (absv N (sub N value hi)) (lit N 20) in
      (validate_parameter N param value [lo; hi] = Ok status_ok
       <-> inside = true)
      /\ (validate_parameter N param value [lo; hi] = Ok status_warning
          <-> inside = false /\ near = true)
      /\ (validate_parameter N param value [lo; hi] = Ok status_bad
          <-> inside = false /\ near = false))
  /\ validate_parameter B64 "Size" 130 [80; 120] = Ok status_warning
  /\ validate_parameter B64 "Size" 200 [80; 120] = Ok status_bad.
Proof.
  split; [|split; vm_compute; reflexivity].
  intros N param value lo hi inside near.
  unfold validate_parameter. fold inside near.
  destruct inside, near; cbn [negb];
    repeat split; try discriminate; try reflexivity;
    try (intros [? ?]; discriminate);
    try (intros H; injection H as H; vm_compute in H; discriminate).
Qed.

End Validation.

(** ** Missing keys and the guarded division *)

Section Defaults.

Variable N : arith.

(** The design with every absent optional number replaced by the default
    [compute_impact] uses for it. *)
Definition with_defaults (d : design N) : design N :=
  match Size N d with
  | Some size =>
      Design (Size N d) (Charge N d) (Encapsulation N d)
             (Some (get (PDI N d) (lit N 0.15)))
             (Some (get (HydrodynamicSize N d) (mul N size (lit N 1.2))))
             (Some (get (Stability N d) (lit N 85)))
             (Some (get (SurfaceArea N d) (lit N 250)))
             (Some (get (DegradationTime N d) (lit N 30)))
             (Material N d)
  | None => d
  end.

(** The design with its Material key set (or removed). *)
Definition with_material (m : option string) (d : design N) : design N :=
  Design (Size N d) (Charge N d) (Encapsulation N d) (PDI N d)
         (HydrodynamicSize N d) (Stability N d) (SurfaceArea N d)
         (DegradationTime N d) m.

Lemma compute_impact_with_defaults (d : design N) :
  compute_impact N (with_defaults d) = compute_impact N d.
Proof.
  unfold with_defaults.
  destruct (Size N d) as [size|] eqn:Hs; [|reflexivity].
  unfold compute_impact. cbn [Size Charge Encapsulation PDI HydrodynamicSize
    Stability SurfaceArea DegradationTime get]. rewrite Hs. reflexivity.
Qed.

Lemma compute_impact_with_material (m : option string) (d : design N) :
  compute_impact N (with_material m d) = compute_impact N d.
Proof. reflexivity. Qed.

Hypothesis Hdiv : nonzero_divisors N.

Lemma compute_impact_keys (d : design N) :
  match Size N d, Charge N d, Encapsulation N d with
  | Some _, Some _, Some _ => exists i, compute_impact N d = Ok i
  | None, _, _ => compute_impact N d = Raised (KeyError "Size")
  | Some _, None, _ => compute_impact N d = Raised (KeyError "Charge")
  | Some _, Some _, None => compute_impact N d = Raised (KeyError "Encapsulation")
  end.
Proof.
  destruct (Size N d) as [size|] eqn:Hs.
  - destruct (Charge N d) as [charge|] eqn:Hc.
    + destruct (Encapsulation N d) as [encap|] eqn:He.
      * destruct (compute_impact_returns N Hdiv d size charge encap Hs Hc He)
          as (ss & r & bt & dt & bc & dc & _ & _ & _ & _ & _ & _ & H).
        eexists. exact H.
      * unfold compute_impact. rewrite Hs, Hc, He. cbn [getitem bind].
        rewrite (size_score_returns N Hdiv). reflexivity.
    + unfold compute_impact. rewrite Hs, Hc. cbn [getitem bind].
      rewrite (size_score_returns N Hdiv). reflexivity.
  - unfold compute_impact. rewrite Hs. reflexivity.
Qed.

End Defaults.

Module Failure.

Import B64Eval.
Local Open Scope float_scope.

(** C8.  In binary64: a design without Size, Charge or Encapsulation makes
    [compute_impact] raise [KeyError] for the first of them that is missing,
    whatever the other keys hold; with the three present it returns, and
    returns what it returns for the design whose absent optional numbers are
    given their defaults (PDI 0.15, HydrodynamicSize 1.2 * Size, Stability
    85, SurfaceArea 250, DegradationTime 30); the Material key is never
    read. *)
Theorem compute_impact_required_keys (d : design B64) :
  match Size B64 d, Charge B64 d, Encapsulation B64 d with
  | Some _, Some _, Some _ =>
      exists i, compute_impact B64 d = Ok i
                /\ compute_impact B64 (with_defaults B64 d) = Ok i
                /\ forall m, compute_impact B64 (with_material B64 m d) = Ok i
  | None, _, _ =>
      compute_impact B64 d = Raised (KeyError "Size")
      /\ compute_impact B64 (with_defaults B64 d) = Raised (KeyError "Size")
  | Some _, None, _ =>
      compute_impact B64 d = Raised (KeyError "Charge")
      /\ compute_impact B64 (with_defaults B64 d) = Raised (KeyError "Charge")
  | Some _, Some _, None =>
      compute_impact B64 d = Raised (KeyError "Encapsulation")
      /\ compute_impact B64 (with_defaults B64 d)
         = Raised (KeyError "Encapsulation")
  end.
Proof.
  pose proof (compute_impact_keys B64 Example.b64_nonzero_divisors d) as H.
  rewrite compute_impact_with_defaults.
  destruct (Size B64 d), (Charge B64 d), (Encapsulation B64 d);
    try (split; assumption).
  destruct H as [i H]. exists i. repeat split; try assumption.
  intros m. rewrite compute_impact_with_material. exact H.
Qed.

(** C9.  In binary64 [compute_impact] never raises [ZeroDivisionError].  When
    Size is zero (either zero of binary64) the ratio is 1.0 without any
    division, the hydrodynamic score of that ratio is 100, and with Charge
    and Encapsulation present [compute_impact] returns a result whose
    Delivery is computed with hydrodynamic score 100. *)
Theorem size_ratio_guard :
  (forall d : design B64, compute_impact B64 d <> Raised ZeroDivisionError)
  /\ (forall hyd_size size : float,
         (size =? 0) = true -> size_ratio B64 hyd_size size = Ok 1.0)
  /\ (forall hyd_size size : float,
         (size =? 0) = false ->
         size_ratio B64 hyd_size size = Ok (hyd_size / size))
  /\ hydrodynamic_score B64 1.0 = 100
  /\ (forall (d : design B64) (size charge encap : float),
         Size B64 d = Some size ->
         Charge B64 d = Some charge ->
         Encapsulation B64 d = Some encap ->
         (size =? 0) = true ->
         exists i ss,
           compute_impact B64 d = Ok i
           /\ size_score B64 size = Ok ss
           /\ Delivery B64 i =
              delivery B64 ss (charge_score B64 charge) encap
                (pdi_score B64 (get (PDI B64 d) 0.15)) 100
                (get (Stability B64 d) 85)).
Proof.
  assert (R0 : forall hyd_size size : float,
             (size =? 0) = true -> size_ratio B64 hyd_size size = Ok 1.0).
  { intros h s E. unfold size_ratio, truthy. b64. rewrite E. reflexivity. }
  split; [|split; [|split; [|split]]].
  - intros d H.
    pose proof (compute_impact_keys B64 Example.b64_nonzero_divisors d) as K.
    rewrite H in K.
    destruct (Size B64 d), (Charge B64 d), (Encapsulation B64 d);
      try discriminate.
    destruct K as [i K]. discriminate.
  - exact R0.
  - intros h s E. unfold size_ratio, truthy, truediv. b64. rewrite E.
    reflexivity.
  - vm_compute. reflexivity.
  - intros d size charge encap Hs Hc He E.
    destruct (compute_impact_returns B64 Example.b64_nonzero_divisors
                d size charge encap Hs Hc He)
      as (ss & r & bt & dt & bc & dc & Hss & Hr & _ & _ & _ & _ & H).
    rewrite R0 in Hr by exact E. injection Hr as <-.
    eexists. exists ss. split; [exact H|]. split; [exact Hss|].
    cbn [Delivery]. b64. reflexivity.
Qed.

End Failure.

(** ** The regulatory checklist *)

Module Checklist.

Import B64Eval.
Local Open Scope float_scope.

(** With the required keys present the checklist has 8 entries, the last one
    the constant [True] of the sterilization placeholder, so between 1 and 8
    of them pass. *)
Lemma checklist_entries (N : arith) (d : design N) (size charge encap : N) :
  Size N d = Some size ->
  Charge N d = Some charge ->
  Encapsulation N d = Some encap ->
  exists l,
    checklist N d = Ok (l ++ [("Sterilization method defined", true)])%list
    /\ List.length l = 7%nat
    /\ let passed :=
         List.length
           (filter (fun v : bool => v)
              (map snd (l ++ [("Sterilization method defined", true)])%list)) in
       (1 <= passed <= 8)%nat.
Proof.
  intros Hs Hc He. unfold checklist. rewrite Hs, Hc, He. cbn [getitem bind].
  eexists [_; _; _; _; _; _; _]. split; [reflexivity|]. split; [reflexivity|].
  cbn [List.app map snd].
  destruct (leb N size (lit N 200)), (ltb N (get (PDI N d) (lit N 0.15)) (lit N 0.3)),
    (leb N (absv N charge) (lit N 30)), (leb N (lit N 70) encap),
    (leb N (lit N 80) (get (Stability N d) (lit N 85))),
    (contains ["Lipid NP"; "PLGA"] (Material N d)),
    (ltb N (get (DegradationTime N d) (lit N 30)) (lit N 90));
    cbn; lia.
Qed.

Lemma pass_percentage_b64 (passed : nat) :
  (1 <= passed <= 8)%nat ->
  (r <- truediv B64 (of_int B64 passed) (of_int B64 8) ;; Ok (r * 100.0))
  = Ok (of_int B64 passed * 12.5)
  /\ (12.5 <=? of_int B64 passed * 12.5) = true
  /\ (of_int B64 passed * 12.5 <=? 100) = true
  /\ (of_int B64 passed * 12.5 =? 0) = false.
Proof.
  intros H.
  assert (E : In passed [1; 2; 3; 4; 5; 6; 7; 8]%nat) by (cbn; lia).
  cbn in E.
  repeat (destruct E as [<-|E]; [repeat split; vm_compute; reflexivity|]).
  contradiction.
Qed.

Lemma pass_percentage_exact (passed : nat) :
  (1 <= passed <= 8)%nat ->
  exists r,
    (r <- truediv Exact (of_int Exact passed) (of_int Exact 8) ;;
     Ok (mul Exact r (lit Exact 100.0))) = Ok r
    /\ (r == inject_Z (Z.of_nat passed) * 12.5)%Q.
Proof.
  intros H.
  assert (E : In passed [1; 2; 3; 4; 5; 6; 7; 8]%nat) by (cbn; lia).
  cbn in E.
  repeat (destruct E as [<-|E];
          [eexists; split; [vm_compute; reflexivity|vm_compute; reflexivity]|]).
  contradiction.
Qed.

(** C10.  With the required keys present [regulatory_checklist] returns
    [k * 12.5] for the number [k] of entries that pass, [1 <= k <= 8]: a
    multiple of 12.5 between 12.5 and 100, never 0 (in binary64, where the
    arithmetic involved is exact, and in exact arithmetic).  The count is at
    least 1 because the last of the 8 entries is the constant [True]. *)
Theorem regulatory_checklist_range :
  (forall (d : design B64) (size charge encap : float),
      Size B64 d = Some size ->
      Charge B64 d = Some charge ->
      Encapsulation B64 d = Some encap ->
      exists (l : list (string * bool)) (k : nat),
        checklist B64 d = Ok (l ++ [("Sterilization method defined", true)])%list
        /\ List.length l = 7%nat
        /\ (1 <= k <= 8)%nat
        /\ regulatory_checklist B64 d = Ok (of_int B64 k * 12.5)
        /\ (12.5 <=? of_int B64 k * 12.5) = true
        /\ (of_int B64 k * 12.5 <=? 100) = true
        /\ (of_int B64 k * 12.5 =? 0) = false)
  /\ (forall (d : design Exact) (size charge encap : Q),
         Size Exact d = Some size ->
         Charge Exact d = Some charge ->
         Encapsulation Exact d = Some encap ->
         exists (r : Q) (k : nat),
           (1 <= k <= 8)%nat
           /\ regulatory_checklist Exact d = Ok r
           /\ (r == inject_Z (Z.of_nat k) * 12.5)%Q).
Proof.
  split.
  - intros d size charge encap Hs Hc He.
    destruct (checklist_entries B64 d size charge encap Hs Hc He)
      as (l & Hl & Hlen & Hk).
    exists l. eexists. split; [exact Hl|]. split; [exact Hlen|].
    split; [exact Hk|].
    destruct (pass_percentage_b64 _ Hk) as (H1 & H2 & H3 & H4).
    unfold regulatory_checklist. rewrite Hl. cbn [bind].
    rewrite length_app, Hlen. cbn [List.length Nat.add].
    repeat split; assumption.
  - intros d size charge encap Hs Hc He.
    destruct (checklist_entries Exact d size charge encap Hs Hc He)
      as (l & Hl & Hlen & Hk).
    destruct (pass_percentage_exact _ Hk) as (r & H1 & H2).
    exists r. eexists. split; [exact Hk|].
    unfold regulatory_checklist. rewrite Hl. cbn [bind].
    rewrite length_app, Hlen. cbn [List.length Nat.add].
    split; assumption.
Qed.

End Checklist.

(** ** Bounds of Toxicity and Cost *)

Module Bounds.

Import B64Eval B64Order ExactEval.

(** [{Size: 100, Charge: 5, Encapsulation: 85, PDI: -1}] *)
Definition negative_pdi_design : design B64 :=
  Design (Some 100%float) (Some 5%float) (Some 85%float) (Some (-1)%float)
         None None None None None.

(** [{Size: 100, Charge: 5, Encapsulation: 200}] *)
Definition over_encapsulated_design : design B64 :=
  Design (Some 100%float) (Some 5%float) (Some 200%float)
         None None None None None None.

(** C2, as the specification states it, fails: finite inputs can drive
    Toxicity and Cost below 0.  With PDI -1 the Toxicity is
    [0.5 + (-2) + 0 = -1.5]; with Encapsulation 200 the Cost is
    [-55 + 12.5 + 5 + 0 = -37.5]. *)
Lemma bounds_fail_below :
  (exists i, compute_impact B64 negative_pdi_design = Ok i
             /\ Toxicity B64 i = (-1.5)%float
             /\ (Toxicity B64 i <? 0)%float = true)
  /\ (exists i, compute_impact B64 over_encapsulated_design = Ok i
                /\ Cost B64 i = (-37.5)%float
                /\ (Cost B64 i <? 0)%float = true).
Proof.
  split; (eexists; split; [vm_compute; reflexivity|]);
    split; vm_compute; reflexivity.
Qed.

Local Open Scope float_scope.

Lemma py_min_le (a x : float) :
  (a <=? a) = true -> (py_min B64 a x <=? a) = true.
Proof.
  intros Ha. unfold py_min. b64.
  destruct (x <? a) eqn:E; [apply ltb_leb; exact E|exact Ha].
Qed.

End Bounds.

(** ** The size score *)

Module SizeScore.

Import B64Eval B64Order ExactEval.

Local Open Scope float_scope.

(** In binary64 the three branches are selected by the three ranges. *)
Lemma size_score_b64_branches (size : float) :
  ((80 <=? size) = true -> (size <=? 120) = true ->
   size_score B64 size = Ok 100)
  /\ ((size <? 80) = true -> size_score B64 size = Ok (size / 80 * 100))
  /\ ((120 <? size) = true ->
      size_score B64 size = Ok (py_max B64 0 (100 - (size - 120) / 2))).
Proof.
  rewrite (size_score_returns B64 Example.b64_nonzero_divisors). b64.
  split; [|split].
  - intros -> ->. reflexivity.
  - intros H. rewrite (ltb_not_leb _ _ H), H. reflexivity.
  - intros H. rewrite (ltb_not_leb _ _ H), andb_false_r.
    destruct (size <? 80) eqn:E; [|reflexivity].
    pose proof (ltb_trans size 80 120 E eq_refl) as L.
    apply ltb_not_leb in L. apply ltb_leb in H. congruence.
Qed.

Local Close Scope float_scope.
Local Open Scope Q_scope.

Lemma size_score_exact (size : Q) :
  size_score Exact size =
  Ok (if leb Exact 80 size && leb Exact size 120 then 100
      else if ltb Exact size 80 then size / 80 * 100
           else py_max Exact 0 (100 - (size - 120) / 2)).
Proof. apply (size_score_returns Exact Example.exact_nonzero_divisors). Qed.

Ltac size_scores :=
  repeat match goal with
         | H : size_score Exact ?s = Ok ?v |- _ =>
             rewrite size_score_exact in H; apply Ok_inj in H; subst v
         end.

(** In exact arithmetic: the branches, monotonicity on either side of the
    plateau, continuity (a Lipschitz bound) up to the plateau, and the floor
    from 320 on. *)
Lemma size_score_exact_shape :
  (forall s, exists v, size_score Exact s = Ok v)
  /\ (forall s, 80 <= s <= 120 -> size_score Exact s = Ok 100)
  /\ (forall s, s < 80 -> size_score Exact s = Ok (s / 80 * 100))
  /\ (forall s v, 120 < s -> size_score Exact s = Ok v ->
                  v == Qmax 0 (100 - (s - 120) / 2))
  /\ (forall s1 s2 v1 v2,
         size_score Exact s1 = Ok v1 -> size_score Exact s2 = Ok v2 ->
         s1 <= s2 -> s2 <= 80 -> v1 <= v2)
  /\ (forall s1 s2 v1 v2,
         size_score Exact s1 = Ok v1 -> size_score Exact s2 = Ok v2 ->
         s1 <= 80 -> s2 <= 80 -> Qabs (v1 - v2) <= (5 # 4) * Qabs (s1 - s2))
  /\ (forall s1 s2 v1 v2,
         size_score Exact s1 = Ok v1 -> size_score Exact s2 = Ok v2 ->
         120 < s1 -> s1 <= s2 -> v2 <= v1)
  /\ (forall s v, size_score Exact s = Ok v -> 120 < s -> s < 320 -> 0 < v)
  /\ (forall s, 320 <= s -> size_score Exact s = Ok 0).
Proof.
  repeat match goal with |- _ /\ _ => split end.
  - intros s. rewrite size_score_exact. eexists. reflexivity.
  - intros s [H1 H2]. rewrite size_score_exact.
    apply leb_exact in H1, H2. rewrite H1, H2. reflexivity.
  - intros s H. rewrite size_score_exact.
    rewrite (proj2 (ltb_exact s 80) H).
    rewrite (proj2 (leb_exact_false 80 s) H). reflexivity.
  - intros s v Hs H. size_scores.
    destruct (Q.max_spec 0 (100 - (s - 120) / 2)) as [[? ->]|[? ->]];
      q_solve.
  - intros s1 s2 v1 v2 H1 H2 L1 L2. size_scores. q_solve.
  - intros s1 s2 v1 v2 H1 H2 L1 L2. size_scores. q_solve.
  - intros s1 s2 v1 v2 H1 H2 L1 L2. size_scores. q_solve.
  - intros s v H L1 L2. size_scores. q_solve.
  - intros s H. rewrite size_score_exact. f_equal. q_solve. reflexivity.
Qed.

End SizeScore.

(** ** The composite ranker *)

Module Ranker.

Import ExactEval.
Local Open Scope Q_scope.

(** The weighted sum that [overall_score_from_impact] clips. *)
Definition raw_score (N : arith) (i : impact N) : N :=
  add N (add N (mul N (Delivery N i) (lit N 0.6))
               (mul N (sub N (lit N 10) (Toxicity N i)) (lit N 3)))
        (mul N (sub N (lit N 100) (Cost N i)) (lit N 0.1)).

End Ranker.

(** ** Facts of binary64 used below *)

Module B64Facts.

Import B64Round B64Mono B64Order B64Eval.
Local Open Scope float_scope.

(** *** Numbers through the operations *)

Lemma add_number_inv (x y : float) : number (x + y) -> number x /\ number y.
Proof. rewrite !number_spec, add_spec. apply SFadd_nan_inv. Qed.

Lemma sub_number_inv (x y : float) : number (x - y) -> number x /\ number y.
Proof.
  rewrite !number_spec, sub_spec. unfold SF64sub. rewrite SFsub_add_opp.
  intros H. apply SFadd_nan_inv in H. destruct H as [Hx Hy]. split; [exact Hx|].
  destruct (Prim2SF y); try discriminate; reflexivity.
Qed.

Lemma mul_number_inv (x y : float) : number (x * y) -> number x /\ number y.
Proof. rewrite !number_spec, mul_spec. apply SFmul_nan_inv. Qed.

Lemma div_number_inv (x y : float) : number (x / y) -> number x /\ number y.
Proof. rewrite !number_spec, div_spec. apply SFdiv_nan_inv. Qed.

Lemma abs_number_inv (x : float) : number (abs x) -> number x.
Proof.
  rewrite !number_spec, abs_spec. destruct (Prim2SF x); try discriminate; reflexivity.
Qed.

Lemma ltb_numbers (x y : float) : (x <? y) = true -> number x /\ number y.
Proof. intros H. apply leb_numbers. apply ltb_leb. exact H. Qed.

(** A number and a finite float add up to a number. *)
Lemma SFadd_finite_not_nan (x c : spec_float) :
  valid_binary x = true -> valid_binary c = true ->
  not_nan x = true -> is_finite_SF c = true ->
  not_nan (SFadd prec emax x c) = true.
Proof.
  intros Vx Vc Nx Fc.
  destruct (not_nan_cases x Nx) as [->|[->|Fx]].
  - destruct c as [[]|[]| |[] m e]; try discriminate; reflexivity.
  - destruct c as [[]|[]| |[] m e]; try discriminate; reflexivity.
  - apply (rounds_to_not_nan _ _ (SFadd_rounds x c Vx Vc Fx Fc)).
Qed.

Lemma number_add_finite (x c : float) : number x -> finite c -> number (x + c).
Proof.
  rewrite !number_spec, finite_spec, add_spec.
  apply SFadd_finite_not_nan; apply Prim2SF_valid.
Qed.

Lemma number_finite_add (x c : float) : number x -> finite c -> number (c + x).
Proof.
  rewrite !number_spec, finite_spec, add_spec. unfold SF64add.
  rewrite SFadd_comm.
  apply SFadd_finite_not_nan; apply Prim2SF_valid.
Qed.

Lemma SFopp_finite (c : spec_float) : is_finite_SF (SFopp c) = is_finite_SF c.
Proof. destruct c; reflexivity. Qed.

Lemma SFopp_not_nan (c : spec_float) : not_nan (SFopp c) = not_nan c.
Proof. destruct c; reflexivity. Qed.

Lemma number_sub_finite (x c : float) : number x -> finite c -> number (x - c).
Proof.
  rewrite !number_spec, finite_spec, sub_spec. unfold SF64sub.
  rewrite SFsub_add_opp. intros Nx Fc.
  apply SFadd_finite_not_nan; try apply Prim2SF_valid; try assumption.
  - rewrite SFopp_valid. apply Prim2SF_valid.
  - rewrite SFopp_finite. exact Fc.
Qed.

Lemma number_finite_sub (x c : float) : number x -> finite c -> number (c - x).
Proof.
  rewrite !number_spec, finite_spec, sub_spec. unfold SF64sub.
  rewrite SFsub_add_opp, SFadd_comm. intros Nx Fc.
  apply SFadd_finite_not_nan; try apply Prim2SF_valid; try assumption.
  - rewrite SFopp_valid. apply Prim2SF_valid.
  - rewrite SFopp_not_nan. exact Nx.
Qed.

Lemma number_mul_pos (x c : float) :
  number x -> positive_finite c -> number (x * c).
Proof.
  intros Nx Hc.
  apply (leb_numbers (x * c) (x * c)).
  apply mul_le_mono_pos; [exact Hc|apply leb_refl; exact Nx].
Qed.

Lemma number_div_pos (x c : float) :
  number x -> positive_finite c -> number (x / c).
Proof.
  intros Nx Hc.
  apply (leb_numbers (x / c) (x / c)).
  apply div_le_mono_pos; [exact Hc|apply leb_refl; exact Nx].
Qed.

(** Numbers are totally ordered. *)
Lemma SFleb_total (x y : spec_float) :
  not_nan x = true -> not_nan y = true ->
  SFltb x y = false -> SFleb y x = true.
Proof.
  intros Nx Ny. unfold SFltb, SFleb. rewrite (SFcompare_antisym x y).
  destruct x as [[]|[]| |[] mx ex], y as [[]|[]| |[] my ey];
    try discriminate; cbn [SFcompare option_map CompOpp]; try reflexivity;
    try discriminate;
    destruct (ex ?= ey)%Z; cbn [CompOpp]; try discriminate; try reflexivity;
    destruct (Pos.compare_cont Eq mx my); cbn [CompOpp];
    try discriminate; reflexivity.
Qed.

Lemma leb_total (x y : float) :
  number x -> number y -> (x <? y) = false -> (y <=? x) = true.
Proof.
  rewrite !number_spec, ltb_spec, leb_spec. apply SFleb_total.
Qed.

(** *** Monotone [max], [min] and [clip] *)

Lemma py_max_le_mono (a x y : float) :
  number a -> (x <=? y) = true ->
  (py_max B64 a x <=? py_max B64 a y) = true.
Proof.
  intros Na H. destruct (leb_numbers _ _ H) as [Nx Ny].
  unfold py_max. b64.
  destruct (a <? x) eqn:Ex, (a <? y) eqn:Ey.
  - exact H.
  - apply leb_total in Ey; try assumption.
    pose proof (leb_trans _ _ _ H Ey) as L.
    apply leb_not_ltb in L. congruence.
  - apply ltb_leb. exact Ey.
  - apply leb_refl. exact Na.
Qed.

Lemma py_min_le_mono (a x y : float) :
  number a -> (x <=? y) = true ->
  (py_min B64 a x <=? py_min B64 a y) = true.
Proof.
  intros Na H. destruct (leb_numbers _ _ H) as [Nx Ny].
  unfold py_min. b64.
  destruct (x <? a) eqn:Ex, (y <? a) eqn:Ey.
  - exact H.
  - apply ltb_leb. exact Ex.
  - apply leb_total in Ex; try assumption.
    pose proof (leb_trans _ _ _ Ex H) as L.
    apply leb_not_ltb in L. congruence.
  - apply leb_refl. exact Na.
Qed.

Lemma is_nan_number (x : float) : number x -> is_nan B64 x = false.
Proof. unfold number, is_nan. b64. intros ->. reflexivity. Qed.

Lemma np_maximum_le_mono (a x y : float) :
  number a -> (x <=? y) = true ->
  (np_maximum B64 x a <=? np_maximum B64 y a) = true.
Proof.
  intros Na H. destruct (leb_numbers _ _ H) as [Nx Ny].
  unfold np_maximum. rewrite !is_nan_number by assumption. b64.
  rewrite !orb_false_r.
  destruct (a <=? x) eqn:Ex, (a <=? y) eqn:Ey.
  - exact H.
  - pose proof (leb_trans _ _ _ Ex H). congruence.
  - exact Ey.
  - apply leb_refl. exact Na.
Qed.

Lemma np_maximum_number (a x : float) :
  number a -> number x -> number (np_maximum B64 x a).
Proof.
  intros Na Nx. unfold np_maximum.
  destruct (leb B64 a x || is_nan B64 x); assumption.
Qed.

Lemma np_minimum_le_mono (a x y : float) :
  number a -> (x <=? y) = true ->
  (np_minimum B64 x a <=? np_minimum B64 y a) = true.
Proof.
  intros Na H. destruct (leb_numbers _ _ H) as [Nx Ny].
  unfold np_minimum. rewrite !is_nan_number by assumption. b64.
  rewrite !orb_false_r.
  destruct (x <=? a) eqn:Ex, (y <=? a) eqn:Ey.
  - exact H.
  - exact Ex.
  - assert (L : (a <=? x) = true).
    { apply leb_total; try assumption.
      destruct (x <? a) eqn:E; [|reflexivity].
      apply ltb_leb in E. congruence. }
    pose proof (leb_trans _ _ _ L H) as L'.
    assert (L2 : (a <? y) = false) by (apply leb_not_ltb; exact Ey).
    apply leb_total; try assumption.
    destruct (y <? a) eqn:E; [|reflexivity].
    apply ltb_not_leb in E. congruence.
  - apply leb_refl. exact Na.
Qed.

Lemma np_clip_le_mono (lo hi x y : float) :
  number lo -> number hi -> (x <=? y) = true ->
  (np_clip B64 x lo hi <=? np_clip B64 y lo hi) = true.
Proof.
  intros Nlo Nhi H. unfold np_clip.
  apply np_minimum_le_mono; [exact Nhi|].
  apply np_maximum_le_mono; assumption.
Qed.


(** Side conditions on a literal are decided by evaluation. *)
Ltac lit := first [ split; reflexivity | reflexivity ].

(** *** Sums and differences of bounded numbers *)

(** Both arguments may move, as long as both sums are numbers. *)
Lemma SFadd_mono_both (x1 x2 y1 y2 : spec_float) :
  valid_binary x1 = true -> valid_binary x2 = true ->
  valid_binary y1 = true -> valid_binary y2 = true ->
  SFleb x1 x2 = true -> SFleb y1 y2 = true ->
  not_nan (SFadd prec emax x1 y1) = true ->
  not_nan (SFadd prec emax x2 y2) = true ->
  SFleb (SFadd prec emax x1 y1) (SFadd prec emax x2 y2) = true.
Proof.
  intros Vx1 Vx2 Vy1 Vy2 Hx Hy N1 N2.
  destruct (SFleb_not_nan _ _ Hx) as [Nx1 Nx2].
  destruct (SFleb_not_nan _ _ Hy) as [Ny1 Ny2].
  assert (Lo : forall a b, not_nan (SFadd prec emax a b) = true ->
                 a = S754_infinity true \/ b = S754_infinity true ->
                 SFadd prec emax a b = S754_infinity true).
  { intros a b Hn [E|E]; rewrite E in Hn |- *.
    - destruct b as [[]|[]| |[] ? ?]; try discriminate; reflexivity.
    - destruct a as [[]|[]| |[] ? ?]; try discriminate; reflexivity. }
  assert (Hi : forall a b, not_nan (SFadd prec emax a b) = true ->
                 a = S754_infinity false \/ b = S754_infinity false ->
                 SFadd prec emax a b = S754_infinity false).
  { intros a b Hn [E|E]; rewrite E in Hn |- *.
    - destruct b as [[]|[]| |[] ? ?]; try discriminate; reflexivity.
    - destruct a as [[]|[]| |[] ? ?]; try discriminate; reflexivity. }
  destruct (not_nan_cases x1 Nx1) as [E|[E|Fx1]].
  { rewrite (Lo x1 y1 N1 (or_introl E)). apply SFleb_neg_inf. exact N2. }
  { subst x1. apply SFleb_inf_l in Hx.
    rewrite (Hi x2 y2 N2 (or_introl Hx)). apply SFleb_pos_inf. exact N1. }
  destruct (not_nan_cases y1 Ny1) as [E|[E|Fy1]].
  { rewrite (Lo x1 y1 N1 (or_intror E)). apply SFleb_neg_inf. exact N2. }
  { subst y1. apply SFleb_inf_l in Hy.
    rewrite (Hi x2 y2 N2 (or_intror Hy)). apply SFleb_pos_inf. exact N1. }
  destruct (not_nan_cases x2 Nx2) as [E|[E|Fx2]].
  { subst x2. apply SFleb_inf_r in Hx. subst x1. discriminate. }
  { rewrite (Hi x2 y2 N2 (or_introl E)). apply SFleb_pos_inf. exact N1. }
  destruct (not_nan_cases y2 Ny2) as [E|[E|Fy2]].
  { subst y2. apply SFleb_inf_r in Hy. subst y1. discriminate. }
  { rewrite (Hi x2 y2 N2 (or_intror E)). apply SFleb_pos_inf. exact N1. }
  apply (rounds_to_mono _ _ (SF2Q x1 + SF2Q y1)%Q (SF2Q x2 + SF2Q y2)%Q).
  - apply SFadd_rounds; assumption.
  - apply SFadd_rounds; assumption.
  - pose proof (SFleb_value x1 x2 Vx1 Vx2 Fx1 Fx2 Hx).
    pose proof (SFleb_value y1 y2 Vy1 Vy2 Fy1 Fy2 Hy). lra.
Qed.

Lemma add_le_mono (a b c d : float) :
  (a <=? b) = true -> (c <=? d) = true ->
  number (a + c) -> number (b + d) -> (a + c <=? b + d) = true.
Proof.
  rewrite !number_spec, !leb_spec, !add_spec.
  intros. apply SFadd_mono_both; try apply Prim2SF_valid; assumption.
Qed.

Lemma sub_le_mono (a b c d : float) :
  (a <=? b) = true -> (d <=? c) = true ->
  number (a - c) -> number (b - d) -> (a - c <=? b - d) = true.
Proof.
  rewrite !number_spec, !leb_spec, !sub_spec.
  unfold SF64sub. rewrite !SFsub_add_opp.
  intros. apply SFadd_mono_both; try apply Prim2SF_valid;
    try (rewrite SFopp_valid; apply Prim2SF_valid); try assumption.
  rewrite SFleb_opp. assumption.
Qed.

(** [x] is not minus infinity (and is a number); [x] is not plus infinity. *)
Definition bounded_below (x : float) : Prop := (neg_infinity <? x) = true.
Definition bounded_above (x : float) : Prop := (x <? infinity) = true.

Lemma SFadd_bounded_not_nan (b : bool) (x y : spec_float) :
  valid_binary x = true -> valid_binary y = true ->
  not_nan x = true -> not_nan y = true ->
  x <> S754_infinity b -> y <> S754_infinity b ->
  not_nan (SFadd prec emax x y) = true.
Proof.
  intros Vx Vy Nx Ny Hx Hy.
  destruct (not_nan_cases x Nx) as [->|[->|Fx]];
    destruct (not_nan_cases y Ny) as [->|[->|Fy]];
    try (destruct b; congruence).
  - reflexivity.
  - destruct y as [[]|[]| |[] ? ?]; try discriminate; reflexivity.
  - reflexivity.
  - destruct y as [[]|[]| |[] ? ?]; try discriminate; reflexivity.
  - destruct x as [[]|[]| |[] ? ?]; try discriminate; reflexivity.
  - destruct x as [[]|[]| |[] ? ?]; try discriminate; reflexivity.
  - apply (rounds_to_not_nan _ _ (SFadd_rounds x y Vx Vy Fx Fy)).
Qed.

Lemma bounded_below_spec (x : float) :
  bounded_below x <->
  not_nan (Prim2SF x) = true /\ Prim2SF x <> S754_infinity true.
Proof.
  unfold bounded_below. rewrite ltb_spec.
  change (Prim2SF neg_infinity) with (S754_infinity true).
  destruct (Prim2SF x) as [[]|[]| |[] ? ?]; cbn [SFltb SFcompare not_nan];
    split; try discriminate; try (intros [_ H]; congruence);
    try (intros [H _]; discriminate); intros _;
    try reflexivity; split; try reflexivity; discriminate.
Qed.

Lemma bounded_above_spec (x : float) :
  bounded_above x <->
  not_nan (Prim2SF x) = true /\ Prim2SF x <> S754_infinity false.
Proof.
  unfold bounded_above. rewrite ltb_spec.
  change (Prim2SF infinity) with (S754_infinity false).
  destruct (Prim2SF x) as [[]|[]| |[] ? ?]; cbn [SFltb SFcompare not_nan];
    split; try discriminate; try (intros [_ H]; congruence);
    try (intros [H _]; discriminate); intros _;
    try reflexivity; split; try reflexivity; discriminate.
Qed.

(** No sum of two numbers above minus infinity is NaN; likewise below plus
    infinity. *)
Lemma number_add_below (x y : float) :
  bounded_below x -> bounded_below y -> number (x + y).
Proof.
  rewrite !bounded_below_spec, number_spec, add_spec.
  intros [Nx Hx] [Ny Hy].
  apply (SFadd_bounded_not_nan true); try apply Prim2SF_valid; assumption.
Qed.

Lemma number_add_above (x y : float) :
  bounded_above x -> bounded_above y -> number (x + y).
Proof.
  rewrite !bounded_above_spec, number_spec, add_spec.
  intros [Nx Hx] [Ny Hy].
  apply (SFadd_bounded_not_nan false); try apply Prim2SF_valid; assumption.
Qed.

Lemma SFopp_infinity (b : bool) (x : spec_float) :
  x <> S754_infinity b -> SFopp x <> S754_infinity (negb b).
Proof. destruct x as [[]|[]| |[] ? ?], b; cbn; congruence. Qed.

Lemma number_sub_below_above (x y : float) :
  bounded_below x -> bounded_above y -> number (x - y).
Proof.
  rewrite bounded_below_spec, bounded_above_spec, number_spec, sub_spec.
  unfold SF64sub. rewrite SFsub_add_opp.
  intros [Nx Hx] [Ny Hy].
  apply (SFadd_bounded_not_nan true); try apply Prim2SF_valid;
    try (rewrite SFopp_valid; apply Prim2SF_valid); try assumption.
  - rewrite SFopp_not_nan. exact Ny.
  - apply (SFopp_infinity false). exact Hy.
Qed.

Lemma number_sub_above_below (x y : float) :
  bounded_above x -> bounded_below y -> number (x - y).
Proof.
  rewrite bounded_below_spec, bounded_above_spec, number_spec, sub_spec.
  unfold SF64sub. rewrite SFsub_add_opp.
  intros [Nx Hx] [Ny Hy].
  apply (SFadd_bounded_not_nan false); try apply Prim2SF_valid;
    try (rewrite SFopp_valid; apply Prim2SF_valid); try assumption.
  - rewrite SFopp_not_nan. exact Ny.
  - apply (SFopp_infinity true). exact Hy.
Qed.

Lemma bounded_below_ge (lo x : float) :
  bounded_below lo -> (lo <=? x) = true -> bounded_below x.
Proof. unfold bounded_below. intros H L. exact (ltb_leb_trans _ _ _ H L). Qed.

Lemma bounded_above_le (hi x : float) :
  bounded_above hi -> (x <=? hi) = true -> bounded_above x.
Proof. unfold bounded_above. intros H L. exact (leb_ltb_trans _ _ _ L H). Qed.

Lemma nonneg_bounded_below (x : float) : (0 <=? x) = true -> bounded_below x.
Proof. apply bounded_below_ge. reflexivity. Qed.

(** *** Signs *)

Lemma add_nonneg (x y : float) :
  (0 <=? x) = true -> (0 <=? y) = true -> (0 <=? x + y) = true.
Proof.
  intros Hx Hy. change 0 with (0 + 0) at 1.
  apply add_le_mono; try assumption; [reflexivity|].
  apply number_add_below; apply nonneg_bounded_below; assumption.
Qed.

Lemma mul_nonneg (c x : float) :
  positive_finite c -> (0 <=? x) = true -> (0 <=? x * c) = true.
Proof.
  intros Hc Hx. apply leb_trans with (0 * c).
  - destruct (positive_finite_spec c Hc) as (m & e & Ec).
    rewrite leb_spec, mul_spec, Ec. reflexivity.
  - apply mul_le_mono_pos; assumption.
Qed.

Lemma div_nonneg (c x : float) :
  positive_finite c -> (0 <=? x) = true -> (0 <=? x / c) = true.
Proof.
  intros Hc Hx. apply leb_trans with (0 / c).
  - destruct (positive_finite_spec c Hc) as (m & e & Ec).
    rewrite leb_spec, div_spec, Ec. reflexivity.
  - apply div_le_mono_pos; assumption.
Qed.

Lemma abs_nonneg (x : float) : number x -> (0 <=? abs x) = true.
Proof.
  rewrite number_spec, leb_spec, abs_spec.
  destruct (Prim2SF x) as [[]|[]| |[] ? ?]; try discriminate; reflexivity.
Qed.

Lemma abs_number (x : float) : number x -> number (abs x).
Proof. intros H. apply (leb_numbers 0 (abs x)). apply abs_nonneg. exact H. Qed.

Lemma not_ltb_leb (x y : float) :
  number x -> (x <? y) = false -> number y -> (y <=? x) = true.
Proof. intros Nx H Ny. apply leb_total; assumption. Qed.

(** [max(0, x)] is never negative and never NaN. *)
Lemma py_max_0_nonneg (x : float) : (0 <=? py_max B64 0 x) = true.
Proof.
  unfold py_max. b64. destruct (0 <? x) eqn:E; [|reflexivity].
  apply ltb_leb. exact E.
Qed.

Lemma py_max_0_le (x hi : float) :
  (0 <=? hi) = true -> (number x -> (x <=? hi) = true) ->
  (py_max B64 0 x <=? hi) = true.
Proof.
  intros H0 Hx. unfold py_max. b64. destruct (0 <? x) eqn:E; [|exact H0].
  apply Hx. apply (ltb_numbers _ _ E).
Qed.

(** [min(a, x)] is [a] unless [x] is a number below [a]. *)
Lemma py_min_ge (a x lo : float) :
  (lo <=? a) = true -> ((x <? a) = true -> (lo <=? x) = true) ->
  (lo <=? py_min B64 a x) = true.
Proof.
  intros Ha Hx. unfold py_min. b64. destruct (x <? a) eqn:E; [|exact Ha].
  apply Hx. reflexivity.
Qed.

(** *** Comparisons with NaN are false *)

Lemma ltb_nan_l (x y : float) : ~ number x -> (x <? y) = false.
Proof.
  intros H. destruct (x <? y) eqn:E; [|reflexivity].
  destruct H. apply (ltb_numbers _ _ E).
Qed.

Lemma ltb_nan_r (x y : float) : ~ number y -> (x <? y) = false.
Proof.
  intros H. destruct (x <? y) eqn:E; [|reflexivity].
  destruct H. apply (ltb_numbers _ _ E).
Qed.

Lemma leb_nan_l (x y : float) : ~ number x -> (x <=? y) = false.
Proof.
  intros H. destruct (x <=? y) eqn:E; [|reflexivity].
  destruct H. apply (leb_numbers _ _ E).
Qed.

Lemma leb_nan_r (x y : float) : ~ number y -> (x <=? y) = false.
Proof.
  intros H. destruct (x <=? y) eqn:E; [|reflexivity].
  destruct H. apply (leb_numbers _ _ E).
Qed.

Lemma py_max_nan (a x : float) : ~ number x -> py_max B64 a x = a.
Proof. intros H. unfold py_max. b64. rewrite (ltb_nan_r a x H). reflexivity. Qed.

Lemma py_min_nan (a x : float) : ~ number x -> py_min B64 a x = a.
Proof. intros H. unfold py_min. b64. rewrite (ltb_nan_l x a H). reflexivity. Qed.

End B64Facts.

(** ** The component scores in binary64 *)

Module B64Scores.

Import B64Round B64Mono B64Order B64Eval B64Facts.
Local Open Scope float_scope.

Lemma size_score_b64 (size : float) :
  size_score B64 size =
  Ok (if (80 <=? size) && (size <=? 120) then 100
      else if size <? 80 then size / 80 * 100
           else py_max B64 0 (100 - (size - 120) / 2)).
Proof. apply (size_score_returns B64 Example.b64_nonzero_divisors). Qed.

(** Up to 80 the score is the ramp or, at 80 itself, the plateau. *)
Lemma size_score_below (size : float) :
  (size <=? 80) = true ->
  size_score B64 size = Ok (size / 80 * 100)
  \/ (size_score B64 size = Ok 100 /\ (80 <=? size) = true).
Proof.
  intros H. destruct (leb_numbers _ _ H) as [Ns _].
  rewrite size_score_b64.
  destruct (80 <=? size) eqn:E80.
  - right. rewrite (leb_trans size 80 120 H eq_refl). split; reflexivity.
  - left. cbn [andb].
    destruct (size <? 80) eqn:L; [reflexivity|].
    apply leb_total in L; [congruence|exact Ns|lit].
Qed.

Lemma ramp_mono (s1 s2 : float) :
  (s1 <=? s2) = true -> (s1 / 80 * 100 <=? s2 / 80 * 100) = true.
Proof.
  intros H. apply mul_le_mono_pos; [lit|].
  apply div_le_mono_pos; [lit|exact H].
Qed.

Lemma ramp_le_100 (size : float) :
  (size <=? 80) = true -> (size / 80 * 100 <=? 100) = true.
Proof. intros H. apply (ramp_mono size 80 H). Qed.

Lemma size_score_plateau (size : float) :
  (80 <=? size) = true -> (size <=? 120) = true ->
  size_score B64 size = Ok 100.
Proof. intros H1 H2. rewrite size_score_b64, H1, H2. reflexivity. Qed.

Lemma size_score_above (size : float) :
  (120 <? size) = true ->
  size_score B64 size = Ok (py_max B64 0 (100 - (size - 120) / 2)).
Proof.
  intros H. rewrite size_score_b64.
  rewrite (ltb_not_leb _ _ H), andb_false_r.
  destruct (size <? 80) eqn:E; [|reflexivity].
  pose proof (ltb_trans size 80 120 E eq_refl) as L.
  apply ltb_not_leb in L. apply ltb_leb in H. congruence.
Qed.

Lemma decay_anti (s1 s2 : float) :
  (s1 <=? s2) = true ->
  (100 - (s2 - 120) / 2 <=? 100 - (s1 - 120) / 2) = true.
Proof.
  intros H. destruct (leb_numbers _ _ H) as [N1 N2].
  assert (M : forall s, number s -> number (100 - (s - 120) / 2)).
  { intros s Ns. apply number_finite_sub; [|lit].
    apply number_div_pos; [|lit]. apply number_sub_finite; [exact Ns|lit]. }
  apply sub_le_anti_r; [|apply M; exact N1|apply M; exact N2].
  apply div_le_mono_pos; [lit|].
  apply sub_le_mono_l; [exact H| |]; apply number_sub_finite; try lit; assumption.
Qed.

Lemma decay_le_100 (size : float) :
  (120 <=? size) = true -> (100 - (size - 120) / 2 <=? 100) = true.
Proof. intros H. apply (decay_anti 120 size H). Qed.

(** Not a number: the score is 0. *)
Lemma size_score_nan (size : float) :
  ~ number size -> size_score B64 size = Ok 0.
Proof.
  intros Hn. rewrite size_score_b64.
  rewrite (leb_nan_r 80 size Hn), (ltb_nan_l size 80 Hn). cbn [andb].
  rewrite py_max_nan; [reflexivity|].
  intros N. apply sub_number_inv in N. destruct N as [_ N].
  apply div_number_inv in N. destruct N as [N _].
  apply sub_number_inv in N. destruct N as [N _]. exact (Hn N).
Qed.

Lemma number_dec (x : float) : number x \/ ~ number x.
Proof.
  unfold number. destruct (x =? x); [left; reflexivity|right; discriminate].
Qed.

(** A number is below 80, on the plateau or above 120. *)
Lemma size_cases (size : float) :
  number size ->
  (size <? 80) = true
  \/ ((80 <=? size) = true /\ (size <=? 120) = true)
  \/ (120 <? size) = true.
Proof.
  intros N.
  destruct (size <? 80) eqn:E1; [left; reflexivity|].
  apply leb_total in E1; [|exact N|lit].
  destruct (120 <? size) eqn:E2; [right; right; reflexivity|].
  apply leb_total in E2; [|lit|exact N].
  right; left. split; assumption.
Qed.

Lemma size_score_ramp (size : float) :
  (size <? 80) = true -> size_score B64 size = Ok (size / 80 * 100).
Proof.
  intros H. rewrite size_score_b64, H, (ltb_not_leb _ _ H). reflexivity.
Qed.

(** The score never exceeds 100, whatever the size. *)
Lemma size_score_le_100 (size v : float) :
  size_score B64 size = Ok v -> (v <=? 100) = true.
Proof.
  intros H. destruct (number_dec size) as [N|N].
  - destruct (size_cases size N) as [L|[[L1 L2]|L]].
    + rewrite (size_score_ramp size L) in H. apply Ok_inj in H. subst v.
      apply ramp_le_100. apply ltb_leb. exact L.
    + rewrite (size_score_plateau size L1 L2) in H. apply Ok_inj in H.
      subst v. reflexivity.
    + rewrite (size_score_above size L) in H. apply Ok_inj in H. subst v.
      apply py_max_0_le; [reflexivity|]. intros _.
      apply decay_le_100. apply ltb_leb. exact L.
  - rewrite (size_score_nan size N) in H. apply Ok_inj in H. subst v.
    reflexivity.
Qed.

Lemma size_score_nonneg (size v : float) :
  (0 <=? size) = true -> size_score B64 size = Ok v -> (0 <=? v) = true.
Proof.
  intros H0 H. destruct (leb_numbers _ _ H0) as [_ N].
  destruct (size_cases size N) as [L|[[L1 L2]|L]].
  - rewrite (size_score_ramp size L) in H. apply Ok_inj in H. subst v.
    apply mul_nonneg; [lit|]. apply div_nonneg; [lit|exact H0].
  - rewrite (size_score_plateau size L1 L2) in H. apply Ok_inj in H.
    subst v. reflexivity.
  - rewrite (size_score_above size L) in H. apply Ok_inj in H. subst v.
    apply py_max_0_nonneg.
Qed.

Lemma size_score_total (size : float) : exists v, size_score B64 size = Ok v.
Proof. rewrite size_score_b64. eexists. reflexivity. Qed.

(** X1.  In binary64, with its rounding, the size score is non-decreasing up
    to the end of the plateau: for [s1 <= s2 <= 120] the score of [s1] is at
    most the score of [s2] (negative and infinite sizes included). *)
Theorem size_score_b64_nondecreasing (s1 s2 : float) :
  (s1 <=? s2) = true -> (s2 <=? 120) = true ->
  exists v1 v2, size_score B64 s1 = Ok v1 /\ size_score B64 s2 = Ok v2
                /\ (v1 <=? v2) = true.
Proof.
  intros L12 L2.
  destruct (size_score_total s1) as [v1 H1].
  destruct (size_score_total s2) as [v2 H2].
  exists v1, v2. split; [exact H1|]. split; [exact H2|].
  destruct (leb_numbers _ _ L12) as [N1 N2].
  destruct (s2 <? 80) eqn:E.
  - pose proof (leb_ltb_trans _ _ _ L12 E) as E1.
    rewrite (size_score_ramp s1 E1) in H1.
    rewrite (size_score_ramp s2 E) in H2.
    apply Ok_inj in H1. apply Ok_inj in H2. subst v1 v2.
    apply ramp_mono. exact L12.
  - apply leb_total in E; [|exact N2|lit].
    rewrite (size_score_plateau s2 E L2) in H2. apply Ok_inj in H2. subst v2.
    apply (size_score_le_100 s1). exact H1.
Qed.

Lemma size_score_b64_nondecreasing_witness :
  exists v1 v2, size_score B64 40 = Ok v1 /\ size_score B64 100 = Ok v2
                /\ (v1 <=? v2) = true.
Proof. apply (size_score_b64_nondecreasing 40 100); reflexivity. Defined.

(** X2.  In binary64 the size score is non-increasing from the start of the
    plateau on: for [80 <= s1 <= s2] the score of [s2] is at most the score
    of [s1]. *)
Theorem size_score_b64_nonincreasing (s1 s2 : float) :
  (80 <=? s1) = true -> (s1 <=? s2) = true ->
  exists v1 v2, size_score B64 s1 = Ok v1 /\ size_score B64 s2 = Ok v2
                /\ (v2 <=? v1) = true.
Proof.
  intros L1 L12.
  destruct (size_score_total s1) as [v1 H1].
  destruct (size_score_total s2) as [v2 H2].
  exists v1, v2. split; [exact H1|]. split; [exact H2|].
  destruct (leb_numbers _ _ L12) as [N1 N2].
  destruct (120 <? s1) eqn:E.
  - pose proof (ltb_leb_trans _ _ _ E L12) as E2.
    rewrite (size_score_above s1 E) in H1.
    rewrite (size_score_above s2 E2) in H2.
    apply Ok_inj in H1. apply Ok_inj in H2. subst v1 v2.
    apply py_max_le_mono; [lit|]. apply decay_anti. exact L12.
  - apply leb_total in E; [|lit|exact N1].
    rewrite (size_score_plateau s1 L1 E) in H1. apply Ok_inj in H1. subst v1.
    apply (size_score_le_100 s2). exact H2.
Qed.

Lemma size_score_b64_nonincreasing_witness :
  exists v1 v2, size_score B64 100 = Ok v1 /\ size_score B64 200 = Ok v2
                /\ (v2 <=? v1) = true.
Proof. apply (size_score_b64_nonincreasing 100 200); reflexivity. Defined.

(** X3.  In binary64 [size_score] always returns, and its value is at most
    100 for every float; it is at least 0 for every size that is at least 0,
    at most 0 for every size that is at most 0, exactly 0 from 320 on and 0
    for NaN. *)
Theorem size_score_b64_range :
  (forall size, exists v, size_score B64 size = Ok v /\ (v <=? 100) = true)
  /\ (forall size v, (0 <=? size) = true -> size_score B64 size = Ok v ->
                     (0 <=? v) = true)
  /\ (forall size v, (size <=? 0) = true -> size_score B64 size = Ok v ->
                     (v <=? 0) = true)
  /\ (forall size, (320 <=? size) = true -> size_score B64 size = Ok 0)
  /\ (forall size, ~ number size -> size_score B64 size = Ok 0).
Proof.
  split; [|split; [|split; [|split]]].
  - intros size. destruct (size_score_total size) as [v H].
    exists v. split; [exact H|]. apply (size_score_le_100 size). exact H.
  - exact size_score_nonneg.
  - intros size v L H.
    rewrite (size_score_ramp size (leb_ltb_trans size 0 80 L eq_refl)) in H.
    apply Ok_inj in H. subst v. apply (ramp_mono size 0 L).
  - intros size H.
    rewrite (size_score_above size (ltb_leb_trans 120 320 size eq_refl H)).
    f_equal. unfold py_max. b64.
    pose proof (decay_anti 320 size H) as D.
    change (100 - (320 - 120) / 2) with 0 in D.
    rewrite (leb_not_ltb _ _ D). reflexivity.
  - exact size_score_nan.
Qed.

(** The float below 320. *)
Definition below_320 : float := 0x1.3ffffffffffffp+8.

Lemma SFltb_succ_mantissa (x : spec_float) (m : positive) (e : Z) :
  SFltb x (S754_finite false (Pos.succ m) e) = true ->
  SFleb x (S754_finite false m e) = true.
Proof. destruct x as [[]|[]| |[] mx ex]; sf_compare. Qed.

Lemma Prim2SF_320 :
  Prim2SF 320 = S754_finite false (Pos.succ 5629499534213119) (-44).
Proof. vm_compute. reflexivity. Qed.

Lemma Prim2SF_below_320 :
  Prim2SF below_320 = S754_finite false 5629499534213119 (-44).
Proof. vm_compute. reflexivity. Qed.

(** A float below 320 is at most the float just below 320. *)
Lemma ltb_320 (size : float) :
  (size <? 320) = true -> (size <=? below_320) = true.
Proof.
  rewrite ltb_spec, leb_spec, Prim2SF_320, Prim2SF_below_320.
  apply SFltb_succ_mantissa.
Qed.

(** Between 120 and 320 the score is positive: at the float just below 320
    it is [2^-45], computed without rounding error. *)
Lemma size_score_positive (size v : float) :
  (120 <? size) = true -> (size <? 320) = true ->
  size_score B64 size = Ok v -> (0 <? v) = true.
Proof.
  intros L U H. rewrite (size_score_above size L) in H.
  apply Ok_inj in H. subst v.
  pose proof (decay_anti size below_320 (ltb_320 size U)) as D.
  assert (P : (0 <? 100 - (size - 120) / 2) = true).
  { apply (ltb_leb_trans 0 (100 - (below_320 - 120) / 2)); [|exact D].
    vm_compute. reflexivity. }
  unfold py_max. b64. rewrite P. exact P.
Qed.

Lemma size_score_upto_120 (s1 s2 v1 v2 : float) :
  size_score B64 s1 = Ok v1 -> size_score B64 s2 = Ok v2 ->
  (s1 <=? s2) = true -> (s2 <=? 120) = true -> (v1 <=? v2) = true.
Proof.
  intros H1 H2 L12 L2.
  destruct (leb_numbers _ _ L12) as [N1 N2].
  destruct (s2 <? 80) eqn:E.
  - pose proof (leb_ltb_trans _ _ _ L12 E) as E1.
    rewrite (size_score_ramp s1 E1) in H1.
    rewrite (size_score_ramp s2 E) in H2.
    apply Ok_inj in H1. apply Ok_inj in H2. subst v1 v2.
    apply ramp_mono. exact L12.
  - apply leb_total in E; [|exact N2|lit].
    rewrite (size_score_plateau s2 E L2) in H2. apply Ok_inj in H2. subst v2.
    apply (size_score_le_100 s1). exact H1.
Qed.

Lemma size_score_from_80 (s1 s2 v1 v2 : float) :
  size_score B64 s1 = Ok v1 -> size_score B64 s2 = Ok v2 ->
  (80 <=? s1) = true -> (s1 <=? s2) = true -> (v2 <=? v1) = true.
Proof.
  intros H1 H2 L1 L12.
  destruct (leb_numbers _ _ L12) as [N1 N2].
  destruct (120 <? s1) eqn:E.
  - pose proof (ltb_leb_trans _ _ _ E L12) as E2.
    rewrite (size_score_above s1 E) in H1.
    rewrite (size_score_above s2 E2) in H2.
    apply Ok_inj in H1. apply Ok_inj in H2. subst v1 v2.
    apply py_max_le_mono; [lit|]. apply decay_anti. exact L12.
  - apply leb_total in E; [|lit|exact N1].
    rewrite (size_score_plateau s1 L1 E) in H1. apply Ok_inj in H1. subst v1.
    apply (size_score_le_100 s2). exact H2.
Qed.

Lemma size_score_floor (size : float) :
  (320 <=? size) = true -> size_score B64 size = Ok 0.
Proof.
  intros H.
  rewrite (size_score_above size (ltb_leb_trans 120 320 size eq_refl H)).
  f_equal. unfold py_max. b64.
  pose proof (decay_anti 320 size H) as D.
  change (100 - (320 - 120) / 2) with 0 in D.
  rewrite (leb_not_ltb _ _ D). reflexivity.
Qed.

(** C3.  In binary64, the arithmetic [compute_impact] runs on, rounding
    included: the size score is exactly 100 on [[80, 120]], [(Size/80)*100]
    below 80 and [max(0, 100 - (Size-120)/2)] above 120; it always returns;
    it is non-decreasing up to the end of the plateau (so on [[0, 80]]) and
    non-increasing from the start of the plateau on (so above 120); the two
    formulas meet the plateau without a jump (the ramp is 100 at 80, the
    decay is 100 at 120); it is positive between 120 and 320 and 0 from 320
    on.  Continuity below 80 is a statement about real numbers: in exact
    arithmetic the score changes by at most 5/4 of the change of Size, the
    junction at 80 included. *)
Theorem size_score_shape :
  (forall size : float,
      ((80 <=? size) = true -> (size <=? 120) = true ->
       size_score B64 size = Ok 100)
      /\ ((size <? 80) = true -> size_score B64 size = Ok (size / 80 * 100))
      /\ ((120 <? size) = true ->
          size_score B64 size
          = Ok (py_max B64 0 (100 - (size - 120) / 2))))
  /\ (forall size : float, exists v, size_score B64 size = Ok v)
  /\ (forall s1 s2 v1 v2 : float,
         size_score B64 s1 = Ok v1 -> size_score B64 s2 = Ok v2 ->
         (s1 <=? s2) = true -> (s2 <=? 120) = true -> (v1 <=? v2) = true)
  /\ (forall s1 s2 v1 v2 : float,
         size_score B64 s1 = Ok v1 -> size_score B64 s2 = Ok v2 ->
         (80 <=? s1) = true -> (s1 <=? s2) = true -> (v2 <=? v1) = true)
  /\ 80 / 80 * 100 = 100
  /\ py_max B64 0 (100 - (120 - 120) / 2) = 100
  /\ (forall size v : float,
         (120 <? size) = true -> (size <? 320) = true ->
         size_score B64 size = Ok v -> (0 <? v) = true)
  /\ (forall size : float,
         (320 <=? size) = true -> size_score B64 size = Ok 0)
  /\ (forall s1 s2 v1 v2 : Q,
         size_score Exact s1 = Ok v1 -> size_score Exact s2 = Ok v2 ->
         (s1 <= 80 -> s2 <= 80 ->
          Qabs (v1 - v2) <= (5 # 4) * Qabs (s1 - s2))%Q).
Proof.
  split; [exact SizeScore.size_score_b64_branches|].
  split; [exact size_score_total|].
  split; [exact size_score_upto_120|].
  split; [exact size_score_from_80|].
  split; [reflexivity|].
  split; [reflexivity|].
  split; [exact size_score_positive|].
  split; [exact size_score_floor|].
  destruct SizeScore.size_score_exact_shape as (_ & _ & _ & _ & _ & L & _).
  exact L.
Qed.

(** *** Charge *)

Lemma charge_score_b64 (charge : float) :
  charge_score B64 charge =
  if abs charge <=? 10 then 100
  else py_max B64 0 (100 - (abs charge - 10) * 3).
Proof. reflexivity. Qed.

Lemma charge_decay_number (a : float) :
  number a -> number (100 - (a - 10) * 3).
Proof.
  intros N. apply number_finite_sub; [|lit].
  apply number_mul_pos; [|lit]. apply number_sub_finite; [exact N|lit].
Qed.

Lemma charge_decay_anti (a1 a2 : float) :
  (a1 <=? a2) = true ->
  (100 - (a2 - 10) * 3 <=? 100 - (a1 - 10) * 3) = true.
Proof.
  intros H. destruct (leb_numbers _ _ H) as [N1 N2].
  apply sub_le_anti_r; try (apply charge_decay_number; assumption).
  apply mul_le_mono_pos; [lit|].
  apply sub_le_mono_l; [exact H| |]; apply number_sub_finite; try lit; assumption.
Qed.

Lemma charge_score_le_100 (charge : float) :
  (charge_score B64 charge <=? 100) = true.
Proof.
  rewrite charge_score_b64. destruct (abs charge <=? 10) eqn:E; [reflexivity|].
  apply py_max_0_le; [reflexivity|]. intros N.
  apply sub_number_inv in N. destruct N as [_ N].
  apply mul_number_inv in N. destruct N as [N _].
  apply sub_number_inv in N. destruct N as [N _].
  apply (charge_decay_anti 10 (abs charge)).
  apply leb_total; [exact N|lit|].
  destruct (abs charge <? 10) eqn:L; [|reflexivity].
  apply ltb_leb in L. congruence.
Qed.

Lemma charge_score_nonneg (charge : float) :
  (0 <=? charge_score B64 charge) = true.
Proof.
  rewrite charge_score_b64. destruct (abs charge <=? 10); [reflexivity|].
  apply py_max_0_nonneg.
Qed.

Lemma abs_opp (x : float) : abs (- x) = abs x.
Proof.
  apply Prim2SF_inj. rewrite !abs_spec, opp_spec.
  destruct (Prim2SF x); reflexivity.
Qed.

Lemma charge_score_antitone (c1 c2 : float) :
  (abs c1 <=? abs c2) = true ->
  (charge_score B64 c2 <=? charge_score B64 c1) = true.
Proof.
  intros H. destruct (leb_numbers _ _ H) as [N1 N2].
  rewrite (charge_score_b64 c1).
  destruct (abs c1 <=? 10) eqn:E1; [apply charge_score_le_100|].
  rewrite (charge_score_b64 c2).
  destruct (abs c2 <=? 10) eqn:E2.
  - pose proof (leb_trans _ _ _ H E2). congruence.
  - apply py_max_le_mono; [lit|]. apply charge_decay_anti. exact H.
Qed.

(** X4.  In binary64 the charge score lies in [[0, 100]] for every float
    (NaN and the infinities included), depends on the magnitude of the charge
    only, is 100 when the magnitude is at most 10, and is non-increasing in
    the magnitude. *)
Theorem charge_score_b64_shape :
  (forall c, (0 <=? charge_score B64 c) = true
             /\ (charge_score B64 c <=? 100) = true)
  /\ (forall c, charge_score B64 (- c) = charge_score B64 c)
  /\ (forall c, (abs c <=? 10) = true -> charge_score B64 c = 100)
  /\ (forall c1 c2, (abs c1 <=? abs c2) = true ->
                    (charge_score B64 c2 <=? charge_score B64 c1) = true).
Proof.
  split; [|split; [|split]].
  - intros c. split; [apply charge_score_nonneg|apply charge_score_le_100].
  - intros c. rewrite !charge_score_b64, abs_opp. reflexivity.
  - intros c H. rewrite charge_score_b64, H. reflexivity.
  - exact charge_score_antitone.
Qed.

(** *** Polydispersity *)

Lemma pdi_score_b64 (pdi : float) :
  pdi_score B64 pdi = py_max B64 0 (100 - pdi * 200).
Proof. reflexivity. Qed.

Lemma pdi_decay_anti (p1 p2 : float) :
  (p1 <=? p2) = true -> (100 - p2 * 200 <=? 100 - p1 * 200) = true.
Proof.
  intros H. destruct (leb_numbers _ _ H) as [N1 N2].
  apply sub_le_anti_r.
  - apply mul_le_mono_pos; [lit|exact H].
  - apply number_finite_sub; [|lit]. apply number_mul_pos; [exact N1|lit].
  - apply number_finite_sub; [|lit]. apply number_mul_pos; [exact N2|lit].
Qed.

Lemma pdi_score_nonneg (pdi : float) : (0 <=? pdi_score B64 pdi) = true.
Proof. apply py_max_0_nonneg. Qed.

Lemma pdi_score_le_100 (pdi : float) :
  (pdi <? 0) = false -> (pdi_score B64 pdi <=? 100) = true.
Proof.
  intros H. rewrite pdi_score_b64.
  apply py_max_0_le; [reflexivity|]. intros N.
  apply sub_number_inv in N. destruct N as [_ N].
  apply mul_number_inv in N. destruct N as [N _].
  apply (pdi_decay_anti 0 pdi).
  apply leb_total; [exact N|lit|exact H].
Qed.

(** X5.  In binary64 the PDI score is never negative, is at most 100 unless
    the PDI is negative, is non-increasing in the PDI and is 0 from PDI 0.5
    on and for NaN. *)
Theorem pdi_score_b64_shape :
  (forall p, (0 <=? pdi_score B64 p) = true)
  /\ (forall p, (p <? 0) = false -> (pdi_score B64 p <=? 100) = true)
  /\ (forall p1 p2, (p1 <=? p2) = true ->
                    (pdi_score B64 p2 <=? pdi_score B64 p1) = true)
  /\ (forall p, (0.5 <=? p) = true -> pdi_score B64 p = 0)
  /\ (forall p, ~ number p -> pdi_score B64 p = 0).
Proof.
  split; [|split; [|split; [|split]]].
  - exact pdi_score_nonneg.
  - exact pdi_score_le_100.
  - intros p1 p2 H. rewrite !pdi_score_b64.
    apply py_max_le_mono; [lit|]. apply pdi_decay_anti. exact H.
  - intros p H. rewrite pdi_score_b64. unfold py_max. b64.
    pose proof (pdi_decay_anti 0.5 p H) as D.
    change (100 - 0.5 * 200) with 0 in D.
    rewrite (leb_not_ltb _ _ D). reflexivity.
  - intros p H. rewrite pdi_score_b64. apply py_max_nan.
    intros N. apply sub_number_inv in N. destruct N as [_ N].
    apply mul_number_inv in N. destruct N as [N _]. exact (H N).
Qed.

(** *** Hydrodynamic ratio *)

Lemma hydrodynamic_score_b64 (r : float) :
  hydrodynamic_score B64 r =
  if (1.0 <=? r) && (r <=? 1.3) then 100
  else py_max B64 0 (100 - abs (r - 1.15) * 50).
Proof. reflexivity. Qed.

Lemma hydrodynamic_score_nonneg (r : float) :
  (0 <=? hydrodynamic_score B64 r) = true.
Proof.
  rewrite hydrodynamic_score_b64.
  destruct ((1.0 <=? r) && (r <=? 1.3)); [reflexivity|].
  apply py_max_0_nonneg.
Qed.

Lemma hydrodynamic_score_le_100 (r : float) :
  (hydrodynamic_score B64 r <=? 100) = true.
Proof.
  rewrite hydrodynamic_score_b64.
  destruct ((1.0 <=? r) && (r <=? 1.3)); [reflexivity|].
  apply py_max_0_le; [reflexivity|]. intros N.
  pose proof N as N'.
  apply sub_number_inv in N'. destruct N' as [_ N'].
  apply mul_number_inv in N'. destruct N' as [N' _].
  change 100 with (100 - 0) at 2.
  apply sub_le_anti_r; [|reflexivity|exact N].
  apply mul_nonneg; [lit|]. apply abs_nonneg.
  apply abs_number_inv. exact N'.
Qed.

(** X6.  In binary64 the hydrodynamic score lies in [[0, 100]] for every
    float ratio, is 100 on [[1.0, 1.3]], and is 0 for NaN. *)
Theorem hydrodynamic_score_b64_range :
  (forall r, (0 <=? hydrodynamic_score B64 r) = true
             /\ (hydrodynamic_score B64 r <=? 100) = true)
  /\ (forall r, (1.0 <=? r) = true -> (r <=? 1.3) = true ->
                hydrodynamic_score B64 r = 100)
  /\ (forall r, ~ number r -> hydrodynamic_score B64 r = 0).
Proof.
  split; [|split].
  - intros r. split;
      [apply hydrodynamic_score_nonneg|apply hydrodynamic_score_le_100].
  - intros r H1 H2. rewrite hydrodynamic_score_b64, H1, H2. reflexivity.
  - intros r H. rewrite hydrodynamic_score_b64.
    rewrite (leb_nan_r 1.0 r H). cbn [andb]. apply py_max_nan.
    intros N. apply sub_number_inv in N. destruct N as [_ N].
    apply mul_number_inv in N. destruct N as [N _].
    apply abs_number_inv in N.
    apply sub_number_inv in N. destruct N as [N _]. exact (H N).
Qed.

End B64Scores.

(** ** The impact triple in binary64 *)

Module B64Impact.

Import B64Round B64Mono B64Order B64Eval B64Facts B64Scores.
Local Open Scope float_scope.

(** [lo <= x <= hi] *)
Definition between (lo hi x : float) : Prop :=
  (lo <=? x) = true /\ (x <=? hi) = true.

Lemma between_mul (c lo hi x : float) :
  positive_finite c -> between lo hi x -> between (lo * c) (hi * c) (x * c).
Proof.
  intros Hc [L H]. split; apply mul_le_mono_pos; assumption.
Qed.

Lemma between_add (lo1 hi1 lo2 hi2 x y : float) :
  bounded_below lo1 -> bounded_below lo2 -> number (hi1 + hi2) ->
  between lo1 hi1 x -> between lo2 hi2 y ->
  between (lo1 + lo2) (hi1 + hi2) (x + y).
Proof.
  intros B1 B2 Nh [L1 H1] [L2 H2].
  assert (N : number (x + y)).
  { apply number_add_below;
      [apply (bounded_below_ge lo1)|apply (bounded_below_ge lo2)]; assumption. }
  split; apply add_le_mono; try assumption.
  apply number_add_below; assumption.
Qed.

(** The sum of two bounded terms, the bounds being literals. *)
Abbreviation sum_between H1 H2 :=
  (ltac:(eapply between_add; [| | |exact H1|exact H2]; lit)) (only parsing).

Lemma delivery_b64 (ss cs es ps hs st : float) :
  delivery B64 ss cs es ps hs st
  = ss * 0.25 + cs * 0.20 + es * 0.25 + ps * 0.15 + hs * 0.10 + st * 0.05.
Proof. reflexivity. Qed.

(** Six scores in [[0, 100]] weigh to a delivery in [[0, 100]]: the weights
    of the source add up to 1 also after rounding. *)
Lemma delivery_between (ss cs es ps hs st : float) :
  between 0 100 ss -> between 0 100 cs -> between 0 100 es ->
  between 0 100 ps -> between 0 100 hs -> between 0 100 st ->
  between 0 100 (delivery B64 ss cs es ps hs st).
Proof.
  intros B1 B2 B3 B4 B5 B6. rewrite delivery_b64.
  apply (between_mul 0.25 _ _ _ (conj eq_refl eq_refl)) in B1.
  apply (between_mul 0.20 _ _ _ (conj eq_refl eq_refl)) in B2.
  apply (between_mul 0.25 _ _ _ (conj eq_refl eq_refl)) in B3.
  apply (between_mul 0.15 _ _ _ (conj eq_refl eq_refl)) in B4.
  apply (between_mul 0.10 _ _ _ (conj eq_refl eq_refl)) in B5.
  apply (between_mul 0.05 _ _ _ (conj eq_refl eq_refl)) in B6.
  pose proof (sum_between B1 B2) as S2.
  pose proof (sum_between S2 B3) as S3.
  pose proof (sum_between S3 B4) as S4.
  pose proof (sum_between S4 B5) as S5.
  pose proof (sum_between S5 B6) as S6.
  exact S6.
Qed.

Lemma compute_impact_b64 (d : design B64) (size charge encap : float) :
  Size B64 d = Some size ->
  Charge B64 d = Some charge ->
  Encapsulation B64 d = Some encap ->
  let pdi := get (PDI B64 d) 0.15 in
  let hyd_size := get (HydrodynamicSize B64 d) (size * 1.2) in
  let stability := get (Stability B64 d) 85 in
  let surface_area := get (SurfaceArea B64 d) 250 in
  let degradation_time := get (DegradationTime B64 d) 30 in
  exists ss r,
    size_score B64 size = Ok ss /\
    size_ratio B64 hyd_size size = Ok r /\
    compute_impact B64 d =
    Ok {| Delivery := delivery B64 ss (charge_score B64 charge) encap
                        (pdi_score B64 pdi) (hydrodynamic_score B64 r)
                        stability;
          Toxicity :=
            py_min B64 10
              (py_min B64 10
                 (abs charge / 10 + py_max B64 0 (abs (size - 100)) / 50)
               + pdi * 2
               + py_max B64 0 ((degradation_time - 30) / 30));
          Cost :=
            py_min B64 100
              (py_min B64 100 ((100 - encap) * 0.8 + size / 4)
               + surface_area / 20
               + pdi_cost B64 pdi
               + py_max B64 0 ((degradation_time - 60) / 10)) |}.
Proof.
  intros Hs Hc He pdi hyd_size stability surface_area degradation_time.
  destruct (compute_impact_returns B64 Example.b64_nonzero_divisors
              d size charge encap Hs Hc He)
    as (ss & r & bt & dt & bc & dc & Hss & Hr & Hbt & Hdt & Hbc & Hdc & H).
  rewrite (base_toxicity_returns B64 Example.b64_nonzero_divisors) in Hbt.
  rewrite (degradation_toxicity_returns B64 Example.b64_nonzero_divisors)
    in Hdt.
  rewrite (base_cost_returns B64 Example.b64_nonzero_divisors) in Hbc.
  rewrite (degradation_cost_returns B64 Example.b64_nonzero_divisors) in Hdc.
  apply Ok_inj in Hbt, Hdt, Hbc, Hdc. subst bt dt bc dc.
  exists ss, r. split; [exact Hss|]. split; [exact Hr|]. exact H.
Qed.

(** X7.  In binary64, for a design whose Size is at least 0, whose
    Encapsulation and Stability lie in [[0, 100]] and whose PDI is not
    negative, [compute_impact] returns a Delivery in [[0, 100]]: the six
    weights add up to 100 percent also after rounding. *)
Theorem delivery_b64_range (d : design B64) (size charge encap : float) :
  Size B64 d = Some size ->
  Charge B64 d = Some charge ->
  Encapsulation B64 d = Some encap ->
  (0 <=? size) = true ->
  between 0 100 encap ->
  (get (PDI B64 d) 0.15 <? 0) = false ->
  between 0 100 (get (Stability B64 d) 85) ->
  exists i, compute_impact B64 d = Ok i /\ between 0 100 (Delivery B64 i).
Proof.
  intros Hs Hc He Ls Be Lp Bs.
  destruct (compute_impact_b64 d size charge encap Hs Hc He)
    as (ss & r & Hss & _ & H).
  eexists. split; [exact H|]. cbn [Delivery].
  apply delivery_between.
  - split; [apply (size_score_nonneg size); assumption
           |apply (size_score_le_100 size); assumption].
  - split; [apply charge_score_nonneg|apply charge_score_le_100].
  - exact Be.
  - split; [apply pdi_score_nonneg|apply pdi_score_le_100; exact Lp].
  - split; [apply hydrodynamic_score_nonneg|apply hydrodynamic_score_le_100].
  - exact Bs.
Qed.

Lemma delivery_b64_range_witness :
  exists i, compute_impact B64 (example_design B64) = Ok i
            /\ between 0 100 (Delivery B64 i).
Proof.
  apply (delivery_b64_range (example_design B64) 100 5 85);
    try reflexivity; split; reflexivity.
Defined.

Lemma base_toxicity_nonneg (charge size : float) :
  (0 <=? py_min B64 10
           (abs charge / 10 + py_max B64 0 (abs (size - 100)) / 50)) = true.
Proof.
  apply py_min_ge; [reflexivity|]. intros L.
  destruct (ltb_numbers _ _ L) as [N _].
  apply add_number_inv in N. destruct N as [N _].
  apply div_number_inv in N. destruct N as [N _].
  apply abs_number_inv in N.
  apply add_nonneg.
  - apply div_nonneg; [lit|]. apply abs_nonneg. exact N.
  - apply div_nonneg; [lit|]. apply py_max_0_nonneg.
Qed.

Lemma toxicity_nonneg (bt pdi dt : float) :
  (0 <=? bt) = true -> (pdi <? 0) = false -> (0 <=? dt) = true ->
  (0 <=? py_min B64 10 (bt + pdi * 2 + dt)) = true.
Proof.
  intros Hb Hp Hd.
  apply py_min_ge; [reflexivity|]. intros L.
  destruct (ltb_numbers _ _ L) as [N _].
  apply add_number_inv in N. destruct N as [N _].
  apply add_number_inv in N. destruct N as [_ N].
  apply mul_number_inv in N. destruct N as [N _].
  apply add_nonneg; [|exact Hd].
  apply add_nonneg; [exact Hb|].
  apply mul_nonneg; [lit|]. apply leb_total; [exact N|lit|exact Hp].
Qed.

Lemma base_cost_nonneg (encap size : float) :
  (100 <? encap) = false -> (size <? 0) = false ->
  (0 <=? py_min B64 100 ((100 - encap) * 0.8 + size / 4)) = true.
Proof.
  intros He Hs.
  apply py_min_ge; [reflexivity|]. intros L.
  destruct (ltb_numbers _ _ L) as [N _].
  apply add_number_inv in N. destruct N as [N1 N2].
  apply mul_number_inv in N1. destruct N1 as [N1 _].
  pose proof N1 as Ne. apply sub_number_inv in Ne. destruct Ne as [_ Ne].
  apply div_number_inv in N2. destruct N2 as [N2 _].
  apply add_nonneg.
  - apply mul_nonneg; [lit|].
    change 0 with (100 - 100) at 1.
    apply sub_le_anti_r; [|exact N1|reflexivity].
    apply leb_total; [lit|exact Ne|exact He].
  - apply div_nonneg; [lit|]. apply leb_total; [exact N2|lit|exact Hs].
Qed.

Lemma pdi_cost_nonneg (pdi : float) :
  number (pdi_cost B64 pdi) -> (0 <=? pdi_cost B64 pdi) = true.
Proof.
  unfold pdi_cost. b64. intros N.
  apply mul_number_inv in N. destruct N as [N _].
  pose proof N as Nm. apply sub_number_inv in Nm. destruct Nm as [_ Nm].
  apply mul_nonneg; [lit|].
  change 0 with (0.2 - 0.2) at 1.
  apply sub_le_anti_r; [|exact N|reflexivity].
  revert Nm. unfold py_min. b64.
  destruct (0.2 <? pdi) eqn:E; intros Nm; [reflexivity|].
  apply leb_total; [lit|exact Nm|exact E].
Qed.

Lemma cost_nonneg (bc sa pdi dc : float) :
  (0 <=? bc) = true -> (sa <? 0) = false -> (0 <=? dc) = true ->
  (0 <=? py_min B64 100 (bc + sa / 20 + pdi_cost B64 pdi + dc)) = true.
Proof.
  intros Hb Hs Hd.
  apply py_min_ge; [reflexivity|]. intros L.
  destruct (ltb_numbers _ _ L) as [N _].
  apply add_number_inv in N. destruct N as [N _].
  apply add_number_inv in N. destruct N as [N Np].
  apply add_number_inv in N. destruct N as [_ N].
  apply div_number_inv in N. destruct N as [N _].
  apply add_nonneg; [|exact Hd].
  apply add_nonneg; [|apply pdi_cost_nonneg; exact Np].
  apply add_nonneg; [exact Hb|].
  apply div_nonneg; [lit|]. apply leb_total; [exact N|lit|exact Hs].
Qed.

(** X8.  In binary64, with the required keys present, the Toxicity that
    [compute_impact] returns is at least 0 unless the PDI is negative, and
    the Cost is at least 0 unless the Encapsulation exceeds 100 or the Size
    or the SurfaceArea is negative; NaN and infinite inputs included. *)
Theorem toxicity_cost_b64_nonneg (d : design B64) (size charge encap : float) :
  Size B64 d = Some size ->
  Charge B64 d = Some charge ->
  Encapsulation B64 d = Some encap ->
  exists i, compute_impact B64 d = Ok i
    /\ ((get (PDI B64 d) 0.15 <? 0) = false ->
        (0 <=? Toxicity B64 i) = true)
    /\ ((100 <? encap) = false -> (size <? 0) = false ->
        (get (SurfaceArea B64 d) 250 <? 0) = false ->
        (0 <=? Cost B64 i) = true).
Proof.
  intros Hs Hc He.
  destruct (compute_impact_b64 d size charge encap Hs Hc He)
    as (ss & r & _ & _ & H).
  eexists. split; [exact H|]. cbn [Toxicity Cost]. split.
  - intros Hp. apply toxicity_nonneg;
      [apply base_toxicity_nonneg|exact Hp|apply py_max_0_nonneg].
  - intros Le Ls La. apply cost_nonneg;
      [apply base_cost_nonneg; assumption|exact La|apply py_max_0_nonneg].
Qed.

Lemma toxicity_cost_b64_nonneg_witness :
  exists i, compute_impact B64 (example_design B64) = Ok i
    /\ (0 <=? Toxicity B64 i) = true /\ (0 <=? Cost B64 i) = true.
Proof.
  destruct (toxicity_cost_b64_nonneg (example_design B64) 100 5 85
              eq_refl eq_refl eq_refl) as (i & H & T & C).
  exists i. split; [exact H|]. split.
  - apply T. reflexivity.
  - apply C; reflexivity.
Defined.

(** C2, amended.  In binary64, the arithmetic [compute_impact] runs on: with
    the required keys present [compute_impact] returns, Toxicity is at most
    10 and Cost at most 100 for every input (NaN and the infinities
    included); Toxicity is at least 0 unless the PDI is negative, and Cost is
    at least 0 unless the Encapsulation exceeds 100 or the Size or the
    SurfaceArea is negative.  The upper clamps are the two [min] of the
    source; nothing clamps from below. *)
Theorem impact_bounds (d : design B64) (size charge encap : float) :
  Size B64 d = Some size ->
  Charge B64 d = Some charge ->
  Encapsulation B64 d = Some encap ->
  exists i, compute_impact B64 d = Ok i
    /\ (Toxicity B64 i <=? 10) = true
    /\ (Cost B64 i <=? 100) = true
    /\ ((get (PDI B64 d) 0.15 <? 0) = false ->
        (0 <=? Toxicity B64 i) = true)
    /\ ((0 <=? get (PDI B64 d) 0.15) = true ->
        (0 <=? Toxicity B64 i) = true)
    /\ ((100 <? encap) = false -> (size <? 0) = false ->
        (get (SurfaceArea B64 d) 250 <? 0) = false ->
        (0 <=? Cost B64 i) = true)
    /\ ((encap <=? 100) = true -> (0 <=? size) = true ->
        (0 <=? get (SurfaceArea B64 d) 250) = true ->
        (0 <=? Cost B64 i) = true).
Proof.
  intros Hs Hc He.
  destruct (compute_impact_b64 d size charge encap Hs Hc He)
    as (ss & r & _ & _ & H).
  eexists. split; [exact H|]. cbn [Toxicity Cost].
  assert (T : (get (PDI B64 d) 0.15 <? 0) = false ->
              (0 <=? py_min B64 10
                       (py_min B64 10
                          (abs charge / 10
                           + py_max B64 0 (abs (size - 100)) / 50)
                        + get (PDI B64 d) 0.15 * 2
                        + py_max B64 0
                            ((get (DegradationTime B64 d) 30 - 30) / 30)))
              = true).
  { intros Hp. apply toxicity_nonneg;
      [apply base_toxicity_nonneg|exact Hp|apply py_max_0_nonneg]. }
  assert (C : (100 <? encap) = false -> (size <? 0) = false ->
              (get (SurfaceArea B64 d) 250 <? 0) = false ->
              (0 <=? py_min B64 100
                       (py_min B64 100 ((100 - encap) * 0.8 + size / 4)
                        + get (SurfaceArea B64 d) 250 / 20
                        + pdi_cost B64 (get (PDI B64 d) 0.15)
                        + py_max B64 0
                            ((get (DegradationTime B64 d) 30 - 60) / 10)))
              = true).
  { intros Le Ls La. apply cost_nonneg;
      [apply base_cost_nonneg; assumption|exact La|apply py_max_0_nonneg]. }
  split; [apply Bounds.py_min_le; reflexivity|].
  split; [apply Bounds.py_min_le; reflexivity|].
  split; [exact T|].
  split; [intros Hp; apply T; apply leb_not_ltb; exact Hp|].
  split; [exact C|].
  intros Le Ls La. apply C; apply leb_not_ltb; assumption.
Qed.

Lemma impact_bounds_witness :
  exists i, compute_impact B64 (example_design B64) = Ok i
    /\ (0 <=? Toxicity B64 i) = true /\ (Toxicity B64 i <=? 10) = true
    /\ (0 <=? Cost B64 i) = true /\ (Cost B64 i <=? 100) = true.
Proof.
  destruct (impact_bounds (example_design B64) 100 5 85
              eq_refl eq_refl eq_refl) as (i & H & T1 & C1 & T0 & _ & C0 & _).
  exists i. split; [exact H|].
  split; [apply T0; reflexivity|]. split; [exact T1|].
  split; [apply C0; reflexivity|exact C1].
Defined.

End B64Impact.

(** ** The overall score in binary64 *)

Module B64Ranker.

Import B64Round B64Mono B64Order B64Eval B64Facts B64Scores B64Impact Ranker.
Local Open Scope float_scope.

(** The largest finite float. *)
Definition max_float : float := 0x1.fffffffffffffp+1023.

Lemma Prim2SF_max_float :
  Prim2SF max_float = S754_finite false 9007199254740991 971.
Proof. vm_compute. reflexivity. Qed.

Lemma Prim2SF_min_float :
  Prim2SF (- max_float) = S754_finite true 9007199254740991 971.
Proof. vm_compute. reflexivity. Qed.

Lemma SFleb_finite_bound (M : positive) (E : Z) (s : bool) (m : positive)
    (e : Z) :
  (Z.pos m <= Z.pos M)%Z -> (e <= E)%Z ->
  SFleb (S754_finite true M E) (S754_finite s m e) = true
  /\ SFleb (S754_finite s m e) (S754_finite false M E) = true.
Proof. intros Hm He. destruct s; split; sf_compare. Qed.

Lemma SF_finite_bounds (x : spec_float) :
  valid_binary x = true -> is_finite_SF x = true ->
  SFleb (Prim2SF (- max_float)) x = true
  /\ SFleb x (Prim2SF max_float) = true.
Proof.
  rewrite Prim2SF_max_float, Prim2SF_min_float.
  destruct x as [s|s| |s m e]; try discriminate; intros V _.
  - split; reflexivity.
  - cbn [valid_binary] in V.
    destruct (bounded_well_scaled m e V) as [(_ & _ & _ & U & _) L].
    replace (2 ^ 53 * 1)%Z with 9007199254740992%Z in U
      by (vm_compute; reflexivity).
    apply SFleb_finite_bound; [|exact L].
    apply Z.lt_succ_r. exact U.
Qed.

(** A finite float lies between the two largest finite floats. *)
Lemma finite_bounds (x : float) :
  finite x -> between (- max_float) max_float x.
Proof.
  unfold between.
  rewrite finite_spec, !leb_spec. apply SF_finite_bounds. apply Prim2SF_valid.
Qed.

Lemma finite_between (lo hi x : float) :
  finite lo -> finite hi -> between lo hi x -> finite x.
Proof.
  unfold between. rewrite !finite_spec, !leb_spec.
  destruct (Prim2SF lo) as [[]|[]| |[] ml el], (Prim2SF hi) as [[]|[]| |[] mh eh],
    (Prim2SF x) as [[]|[]| |[] m e];
    cbn [is_finite_SF SFleb SFcompare]; intros ? ? [? ?];
    try discriminate; reflexivity.
Qed.

Lemma finite_number (x : float) : finite x -> number x.
Proof.
  rewrite finite_spec, number_spec.
  destruct (Prim2SF x); try discriminate; reflexivity.
Qed.

Lemma raw_score_b64 (D T C : float) :
  raw_score B64 (Impact D T C) = D * 0.6 + (10 - T) * 3 + (100 - C) * 0.1.
Proof. reflexivity. Qed.

Lemma overall_score_b64 (i : impact B64) :
  overall_score_from_impact B64 i = np_clip B64 (raw_score B64 i) 0 100.
Proof. reflexivity. Qed.

(** For finite components the weighted sum is a number. *)
Lemma raw_score_number (D T C : float) :
  finite D -> finite T -> finite C -> number (raw_score B64 (Impact D T C)).
Proof.
  intros FD FT FC. rewrite raw_score_b64.
  assert (Fa : finite (D * 0.6)).
  { apply (finite_between (- max_float * 0.6) (max_float * 0.6));
      [lit|lit|]. apply between_mul; [lit|]. apply finite_bounds. exact FD. }
  assert (Fc : finite ((100 - C) * 0.1)).
  { apply (finite_between (- max_float * 0.1) (max_float * 0.1));
      [lit|lit|]. apply between_mul; [lit|].
    apply finite_bounds.
    apply (finite_between (100 - max_float) (100 - - max_float)); [lit|lit|].
    destruct (finite_bounds C FC) as [C1 C2].
    split; (apply sub_le_anti_r;
            [assumption
            |apply number_finite_sub; [|lit]
            |apply number_finite_sub; [|lit]]);
      try lit; apply finite_number; exact FC. }
  apply number_add_finite; [|exact Fc].
  apply number_finite_add; [|exact Fa].
  apply number_mul_pos; [|lit].
  apply number_finite_sub; [|lit]. apply finite_number. exact FT.
Qed.

Lemma raw_score_le_mono (D1 D2 T1 T2 C1 C2 : float) :
  number (raw_score B64 (Impact D1 T1 C1)) ->
  number (raw_score B64 (Impact D2 T2 C2)) ->
  (D1 <=? D2) = true -> (T2 <=? T1) = true -> (C2 <=? C1) = true ->
  (raw_score B64 (Impact D1 T1 C1) <=? raw_score B64 (Impact D2 T2 C2)) = true.
Proof.
  rewrite !raw_score_b64. intros N1 N2 HD HT HC.
  pose proof N1 as M1. pose proof N2 as M2.
  apply add_number_inv in M1, M2.
  destruct M1 as [M1 K1], M2 as [M2 K2].
  apply mul_number_inv in K1, K2. destruct K1 as [K1 _], K2 as [K2 _].
  pose proof M1 as L1. pose proof M2 as L2.
  apply add_number_inv in L1, L2.
  destruct L1 as [_ L1], L2 as [_ L2].
  apply mul_number_inv in L1, L2. destruct L1 as [L1 _], L2 as [L2 _].
  apply add_le_mono; try assumption.
  - apply add_le_mono; try assumption.
    + apply mul_le_mono_pos; [lit|exact HD].
    + apply mul_le_mono_pos; [lit|]. apply sub_le_anti_r; assumption.
  - apply mul_le_mono_pos; [lit|]. apply sub_le_anti_r; assumption.
Qed.

(** X9.  In binary64, rounding included, the overall score is non-decreasing
    in Delivery and non-increasing in Toxicity and in Cost, jointly, whenever
    the two weighted sums are numbers. *)
Theorem overall_score_b64_monotone (D1 D2 T1 T2 C1 C2 : float) :
  number (raw_score B64 (Impact D1 T1 C1)) ->
  number (raw_score B64 (Impact D2 T2 C2)) ->
  (D1 <=? D2) = true -> (T2 <=? T1) = true -> (C2 <=? C1) = true ->
  (overall_score_from_impact B64 (Impact D1 T1 C1)
   <=? overall_score_from_impact B64 (Impact D2 T2 C2)) = true.
Proof.
  intros N1 N2 HD HT HC. rewrite !overall_score_b64.
  apply np_clip_le_mono; [lit|lit|].
  apply raw_score_le_mono; assumption.
Qed.

Lemma overall_score_b64_monotone_witness :
  (overall_score_from_impact B64 (Impact 80 2 40)
   <=? overall_score_from_impact B64 (Impact 91 0.8 30)) = true.
Proof.
  apply (overall_score_b64_monotone 80 91 2 0.8 40 30); reflexivity.
Defined.

Lemma np_clip_between (x lo hi : float) :
  (lo <=? hi) = true -> number x -> between lo hi (np_clip B64 x lo hi).
Proof.
  intros H N. destruct (leb_numbers _ _ H) as [Nlo Nhi].
  unfold between, np_clip, np_maximum, np_minimum.
  rewrite (is_nan_number x N). b64. rewrite orb_false_r.
  destruct (lo <=? x) eqn:E1.
  - rewrite (is_nan_number x N), orb_false_r.
    destruct (x <=? hi) eqn:E2.
    + split; assumption.
    + split; [exact H|apply leb_refl; exact Nhi].
  - rewrite (is_nan_number lo Nlo), orb_false_r. rewrite H.
    split; [apply leb_refl; exact Nlo|exact H].
Qed.

Lemma np_clip_nan (x lo hi : float) :
  ~ number x -> np_clip B64 x lo hi = x.
Proof.
  intros N. unfold np_clip, np_maximum, np_minimum.
  assert (E : is_nan B64 x = true).
  { unfold is_nan. b64. unfold number in N. destruct (x =? x); [|reflexivity].
    destruct N. reflexivity. }
  rewrite E, orb_true_r, E, orb_true_r. reflexivity.
Qed.

Lemma np_clip_inside (x lo hi : float) :
  between lo hi x -> np_clip B64 x lo hi = x.
Proof.
  intros [L H]. unfold np_clip, np_maximum, np_minimum. b64.
  rewrite L. cbn [orb]. rewrite H. reflexivity.
Qed.

(** X10.  In binary64 the overall score lies in [[0, 100]] whenever the
    weighted sum is a number, which it is for finite components; a weighted
    sum that is NaN is returned as it is ([np.clip] propagates NaN). *)
Theorem overall_score_b64_range :
  (forall i, number (raw_score B64 i) ->
             between 0 100 (overall_score_from_impact B64 i))
  /\ (forall D T C, finite D -> finite T -> finite C ->
                    between 0 100 (overall_score_from_impact B64 (Impact D T C)))
  /\ (forall i, ~ number (raw_score B64 i) ->
                overall_score_from_impact B64 i = raw_score B64 i).
Proof.
  split; [|split].
  - intros i N. rewrite overall_score_b64. apply np_clip_between; [lit|exact N].
  - intros D T C FD FT FC. rewrite overall_score_b64.
    apply np_clip_between; [lit|]. apply raw_score_number; assumption.
  - intros i N. rewrite overall_score_b64. apply np_clip_nan. exact N.
Qed.

(** C4, as the specification states it, fails: not every impact triple
    gives a number.  With Toxicity infinite and Cost 0, Delivery 0 scores 0
    and the greater Delivery infinity scores NaN (the sum of plus and minus
    infinity), which is not at least 0: no comparison with NaN holds. *)
Lemma overall_score_not_monotone_at_infinity :
  (0 <=? infinity) = true
  /\ overall_score_from_impact B64 (Impact 0 infinity 0) = 0
  /\ is_nan B64 (overall_score_from_impact B64 (Impact infinity infinity 0))
     = true
  /\ (overall_score_from_impact B64 (Impact 0 infinity 0)
      <=? overall_score_from_impact B64 (Impact infinity infinity 0)) = false.
Proof. repeat split; vm_compute; reflexivity. Qed.

(** C4, amended.  In binary64 [overall_score_from_impact] is the clip to
    [[0, 100]] of [Delivery*0.6 + (10-Toxicity)*3 + (100-Cost)*0.1], and for
    all impact triples with finite components it is non-decreasing in
    Delivery and non-increasing in Toxicity and in Cost, the other two
    components held fixed, rounding included (not strictly: the clip
    saturates, and rounding can absorb a small change). *)
Theorem overall_score_finite_monotone :
  (forall D T C : float,
      overall_score_from_impact B64 (Impact D T C)
      = np_clip B64 (D * 0.6 + (10 - T) * 3 + (100 - C) * 0.1) 0 100)
  /\ (forall D1 D2 T C : float,
         finite D1 -> finite D2 -> finite T -> finite C ->
         (D1 <=? D2) = true ->
         (overall_score_from_impact B64 (Impact D1 T C)
          <=? overall_score_from_impact B64 (Impact D2 T C)) = true)
  /\ (forall D T1 T2 C : float,
         finite D -> finite T1 -> finite T2 -> finite C ->
         (T1 <=? T2) = true ->
         (overall_score_from_impact B64 (Impact D T2 C)
          <=? overall_score_from_impact B64 (Impact D T1 C)) = true)
  /\ (forall D T C1 C2 : float,
         finite D -> finite T -> finite C1 -> finite C2 ->
         (C1 <=? C2) = true ->
         (overall_score_from_impact B64 (Impact D T C2)
          <=? overall_score_from_impact B64 (Impact D T C1)) = true).
Proof.
  assert (M : forall D1 D2 T1 T2 C1 C2 : float,
             finite D1 -> finite D2 -> finite T1 -> finite T2 ->
             finite C1 -> finite C2 ->
             (D1 <=? D2) = true -> (T2 <=? T1) = true ->
             (C2 <=? C1) = true ->
             (overall_score_from_impact B64 (Impact D1 T1 C1)
              <=? overall_score_from_impact B64 (Impact D2 T2 C2)) = true).
  { intros D1 D2 T1 T2 C1 C2 FD1 FD2 FT1 FT2 FC1 FC2 HD HT HC.
    rewrite !overall_score_b64.
    apply np_clip_le_mono; [lit|lit|].
    apply raw_score_le_mono; try assumption;
      apply raw_score_number; assumption. }
  split; [reflexivity|]. split; [|split].
  - intros D1 D2 T C FD1 FD2 FT FC H.
    apply M; try assumption; apply leb_refl; apply finite_number; assumption.
  - intros D T1 T2 C FD FT1 FT2 FC H.
    apply M; try assumption; apply leb_refl; apply finite_number; assumption.
  - intros D T C1 C2 FD FT FC1 FC2 H.
    apply M; try assumption; apply leb_refl; apply finite_number; assumption.
Qed.

Lemma between_sub_from (c lo hi x : float) :
  finite c -> between lo hi x -> between (c - hi) (c - lo) (c - x).
Proof.
  intros Fc [L H].
  destruct (leb_numbers _ _ L) as [Nlo Nx].
  destruct (leb_numbers _ _ H) as [_ Nhi].
  split; apply sub_le_anti_r; try assumption;
    apply number_finite_sub; assumption.
Qed.

(** Components in their nominal ranges weigh to a sum in [[0, 100]]. *)
Lemma raw_score_between (D T C : float) :
  between 0 100 D -> between 0 10 T -> between 0 100 C ->
  between 0 100 (raw_score B64 (Impact D T C)).
Proof.
  intros BD BT BC. rewrite raw_score_b64.
  apply (between_mul 0.6 _ _ _ (conj eq_refl eq_refl)) in BD.
  apply (between_sub_from 10 _ _ _ eq_refl) in BT.
  apply (between_mul 3 _ _ _ (conj eq_refl eq_refl)) in BT.
  apply (between_sub_from 100 _ _ _ eq_refl) in BC.
  apply (between_mul 0.1 _ _ _ (conj eq_refl eq_refl)) in BC.
  pose proof (sum_between BD BT) as S2.
  pose proof (sum_between S2 BC) as S3.
  exact S3.
Qed.

(** X11.  In binary64, for a design in the physical ranges (Size and
    SurfaceArea at least 0, Encapsulation and Stability in [[0, 100]], PDI
    not negative) the impact lies in its nominal ranges, so the clip of
    [overall_score_from_impact] is the identity on the result of
    [compute_impact]: the overall score is the weighted sum itself, in
    [[0, 100]]. *)
Theorem overall_score_b64_unclipped (d : design B64)
    (size charge encap : float) :
  Size B64 d = Some size ->
  Charge B64 d = Some charge ->
  Encapsulation B64 d = Some encap ->
  (0 <=? size) = true ->
  between 0 100 encap ->
  (get (PDI B64 d) 0.15 <? 0) = false ->
  between 0 100 (get (Stability B64 d) 85) ->
  (get (SurfaceArea B64 d) 250 <? 0) = false ->
  exists i,
    compute_impact B64 d = Ok i
    /\ between 0 100 (Delivery B64 i)
    /\ between 0 10 (Toxicity B64 i)
    /\ between 0 100 (Cost B64 i)
    /\ overall_score_from_impact B64 i = raw_score B64 i
    /\ between 0 100 (overall_score_from_impact B64 i).
Proof.
  intros Hs Hc He Ls Be Lp Bs La.
  destruct (compute_impact_b64 d size charge encap Hs Hc He)
    as (ss & r & Hss & _ & H).
  eexists. split; [exact H|]. cbn [Delivery Toxicity Cost].
  match goal with
  | |- between 0 100 ?D /\ between 0 10 ?T /\ between 0 100 ?C /\ _ =>
      assert (BD : between 0 100 D);
      [|assert (BT : between 0 10 T);
        [|assert (BC : between 0 100 C)]]
  end.
  - apply delivery_between.
    + split; [apply (size_score_nonneg size); assumption
             |apply (size_score_le_100 size); assumption].
    + split; [apply charge_score_nonneg|apply charge_score_le_100].
    + exact Be.
    + split; [apply pdi_score_nonneg|apply pdi_score_le_100; exact Lp].
    + split; [apply hydrodynamic_score_nonneg|apply hydrodynamic_score_le_100].
    + exact Bs.
  - split.
    + apply toxicity_nonneg;
        [apply base_toxicity_nonneg|exact Lp|apply py_max_0_nonneg].
    + apply Bounds.py_min_le. reflexivity.
  - split.
    + apply cost_nonneg; [|exact La|apply py_max_0_nonneg].
      apply base_cost_nonneg.
      * apply leb_not_ltb. apply Be.
      * apply leb_not_ltb. exact Ls.
    + apply Bounds.py_min_le. reflexivity.
  - pose proof (raw_score_between _ _ _ BD BT BC) as R.
    split; [exact BD|]. split; [exact BT|]. split; [exact BC|].
    rewrite overall_score_b64.
    rewrite (np_clip_inside _ 0 100 R). split; [reflexivity|exact R].
Qed.

Lemma overall_score_b64_unclipped_witness :
  exists i,
    compute_impact B64 (example_design B64) = Ok i
    /\ overall_score_from_impact B64 i = raw_score B64 i.
Proof.
  destruct (overall_score_b64_unclipped (example_design B64) 100 5 85
              eq_refl eq_refl eq_refl eq_refl (conj eq_refl eq_refl)
              eq_refl (conj eq_refl eq_refl) eq_refl)
    as (i & H & _ & _ & _ & E & _).
  exists i. split; [exact H|exact E].
Defined.

End B64Ranker.

(** ** From the design to the overall score, in binary64 *)

Module B64Pipeline.

Import B64Round B64Mono B64Order B64Eval B64Facts B64Scores B64Impact
  B64Ranker Ranker.
Local Open Scope float_scope.

(** The design with its Encapsulation set to [e]. *)
Definition with_encapsulation (e : float) (d : design B64) : design B64 :=
  Design (Size B64 d) (Charge B64 d) (Some e) (PDI B64 d)
         (HydrodynamicSize B64 d) (Stability B64 d) (SurfaceArea B64 d)
         (DegradationTime B64 d) (Material B64 d).

Lemma delivery_mono_encapsulation (ss cs e1 e2 ps hs st : float) :
  between 0 100 ss -> between 0 100 cs -> between 0 100 e1 ->
  between 0 100 e2 -> between 0 100 ps -> between 0 100 hs ->
  between 0 100 st -> (e1 <=? e2) = true ->
  (delivery B64 ss cs e1 ps hs st <=? delivery B64 ss cs e2 ps hs st) = true.
Proof.
  intros B1 B2 B3 B3' B4 B5 B6 H.
  pose proof (delivery_between ss cs e1 ps hs st B1 B2 B3 B4 B5 B6) as [N1 _].
  pose proof (delivery_between ss cs e2 ps hs st B1 B2 B3' B4 B5 B6) as [N2 _].
  apply leb_numbers in N1, N2. destruct N1 as [_ N1], N2 as [_ N2].
  rewrite !delivery_b64 in *.
  pose proof N1 as M1. pose proof N2 as M2.
  apply add_number_inv in M1, M2. destruct M1 as [M1 _], M2 as [M2 _].
  pose proof M1 as K1. pose proof M2 as K2.
  apply add_number_inv in K1, K2. destruct K1 as [K1 _], K2 as [K2 _].
  pose proof K1 as J1. pose proof K2 as J2.
  apply add_number_inv in J1, J2. destruct J1 as [J1 _], J2 as [J2 _].
  apply add_le_mono_l; [|exact N1|exact N2].
  apply add_le_mono_l; [|exact M1|exact M2].
  apply add_le_mono_l; [|exact K1|exact K2].
  apply add_le_mono_r; [|exact J1|exact J2].
  apply mul_le_mono_pos; [lit|exact H].
Qed.

Lemma base_cost_anti_encapsulation (e1 e2 size : float) :
  between 0 100 e1 -> between 0 100 e2 -> (0 <=? size) = true ->
  (e1 <=? e2) = true ->
  (py_min B64 100 ((100 - e2) * 0.8 + size / 4)
   <=? py_min B64 100 ((100 - e1) * 0.8 + size / 4)) = true.
Proof.
  intros B1 B2 Hs H.
  assert (P : forall e, between 0 100 e ->
                number ((100 - e) * 0.8 + size / 4)).
  { intros e B. apply number_add_below; apply nonneg_bounded_below.
    - apply (between_sub_from 100 _ _ _ eq_refl) in B.
      apply (between_mul 0.8 _ _ _ (conj eq_refl eq_refl)) in B.
      exact (proj1 B).
    - apply div_nonneg; [lit|exact Hs]. }
  pose proof (P e1 B1) as N1. pose proof (P e2 B2) as N2.
  apply py_min_le_mono; [lit|].
  apply add_le_mono_l; try assumption.
  apply add_number_inv in N1, N2. destruct N1 as [N1 _], N2 as [N2 _].
  apply mul_le_mono_pos; [lit|].
  apply mul_number_inv in N1, N2. destruct N1 as [N1 _], N2 as [N2 _].
  apply sub_le_anti_r; assumption.
Qed.

Lemma cost_anti_base (bc1 bc2 sa pc dc : float) :
  (0 <=? bc2) = true -> (bc2 <=? bc1) = true -> (0 <=? sa) = true ->
  (0 <=? pc) = true -> (0 <=? dc) = true ->
  (py_min B64 100 (bc2 + sa / 20 + pc + dc)
   <=? py_min B64 100 (bc1 + sa / 20 + pc + dc)) = true.
Proof.
  intros H0 H Hs Hp Hd.
  pose proof (leb_trans _ _ _ H0 H) as H1.
  assert (Q : (0 <=? sa / 20) = true) by (apply div_nonneg; [lit|exact Hs]).
  assert (P : forall bc, (0 <=? bc) = true ->
                (0 <=? bc + sa / 20) = true
                /\ (0 <=? bc + sa / 20 + pc) = true
                /\ (0 <=? bc + sa / 20 + pc + dc) = true).
  { intros bc Hb.
    pose proof (add_nonneg _ _ Hb Q) as A1.
    pose proof (add_nonneg _ _ A1 Hp) as A2.
    pose proof (add_nonneg _ _ A2 Hd) as A3. tauto. }
  destruct (P bc1 H1) as (A1 & A2 & A3).
  destruct (P bc2 H0) as (B1 & B2 & B3).
  apply leb_numbers in A1, A2, A3, B1, B2, B3.
  apply py_min_le_mono; [lit|].
  apply add_le_mono_l; try tauto.
  apply add_le_mono_l; try tauto.
  apply add_le_mono_l; try tauto.
Qed.

Lemma pdi_cost_number (pdi : float) :
  number pdi -> number (pdi_cost B64 pdi).
Proof.
  intros N. unfold pdi_cost, py_min. b64.
  apply number_mul_pos; [|lit]. apply number_finite_sub; [|lit].
  destruct (0.2 <? pdi); [lit|exact N].
Qed.

(** X12.  In binary64, for a design in the physical ranges, raising the
    Encapsulation (up to 100) never lowers the Delivery, leaves the Toxicity
    as it is, never raises the Cost and never lowers the overall score:
    rounding cannot invert the comparison anywhere on the way from the
    design to the score. *)
Theorem encapsulation_never_hurts (d : design B64)
    (size charge e1 e2 : float) :
  Size B64 d = Some size ->
  Charge B64 d = Some charge ->
  Encapsulation B64 d = Some e1 ->
  (0 <=? size) = true ->
  (0 <=? e1) = true -> (e1 <=? e2) = true -> (e2 <=? 100) = true ->
  (0 <=? get (PDI B64 d) 0.15) = true ->
  between 0 100 (get (Stability B64 d) 85) ->
  (0 <=? get (SurfaceArea B64 d) 250) = true ->
  exists i1 i2,
    compute_impact B64 d = Ok i1
    /\ compute_impact B64 (with_encapsulation e2 d) = Ok i2
    /\ (Delivery B64 i1 <=? Delivery B64 i2) = true
    /\ Toxicity B64 i2 = Toxicity B64 i1
    /\ (Cost B64 i2 <=? Cost B64 i1) = true
    /\ (overall_score_from_impact B64 i1
        <=? overall_score_from_impact B64 i2) = true.
Proof.
  intros Hs Hc He Ls L1 L12 L2 Lp Bs La.
  assert (B1 : between 0 100 e1).
  { split; [exact L1|exact (leb_trans _ _ _ L12 L2)]. }
  assert (B2 : between 0 100 e2).
  { split; [exact (leb_trans _ _ _ L1 L12)|exact L2]. }
  destruct (compute_impact_b64 d size charge e1 Hs Hc He)
    as (ss & r & Hss & Hr & H1).
  destruct (compute_impact_b64 (with_encapsulation e2 d) size charge e2
              Hs Hc eq_refl) as (ss' & r' & Hss' & Hr' & H2).
  cbn [with_encapsulation PDI HydrodynamicSize Stability SurfaceArea
       DegradationTime] in Hr', H2.
  rewrite Hss in Hss'. apply Ok_inj in Hss'. subst ss'.
  rewrite Hr in Hr'. apply Ok_inj in Hr'. subst r'.
  eexists. eexists. split; [exact H1|]. split; [exact H2|].
  cbn [Delivery Toxicity Cost].
  assert (Bss : between 0 100 ss).
  { split; [apply (size_score_nonneg size); assumption
           |apply (size_score_le_100 size); assumption]. }
  assert (Bcs : between 0 100 (charge_score B64 charge)).
  { split; [apply charge_score_nonneg|apply charge_score_le_100]. }
  assert (Bps : between 0 100 (pdi_score B64 (get (PDI B64 d) 0.15))).
  { split; [apply pdi_score_nonneg|].
    apply pdi_score_le_100. apply leb_not_ltb. exact Lp. }
  assert (Bhs : between 0 100 (hydrodynamic_score B64 r)).
  { split; [apply hydrodynamic_score_nonneg|apply hydrodynamic_score_le_100]. }
  assert (D12 : (delivery B64 ss (charge_score B64 charge) e1
                   (pdi_score B64 (get (PDI B64 d) 0.15))
                   (hydrodynamic_score B64 r) (get (Stability B64 d) 85)
                 <=? delivery B64 ss (charge_score B64 charge) e2
                       (pdi_score B64 (get (PDI B64 d) 0.15))
                       (hydrodynamic_score B64 r) (get (Stability B64 d) 85))
                = true).
  { apply delivery_mono_encapsulation; assumption. }
  assert (Np : number (pdi_cost B64 (get (PDI B64 d) 0.15))).
  { apply pdi_cost_number. apply (leb_numbers _ _ Lp). }
  assert (C21 : forall dc,
             (0 <=? dc) = true ->
             (py_min B64 100
                (py_min B64 100 ((100 - e2) * 0.8 + size / 4)
                 + get (SurfaceArea B64 d) 250 / 20
                 + pdi_cost B64 (get (PDI B64 d) 0.15) + dc)
              <=? py_min B64 100
                    (py_min B64 100 ((100 - e1) * 0.8 + size / 4)
                     + get (SurfaceArea B64 d) 250 / 20
                     + pdi_cost B64 (get (PDI B64 d) 0.15) + dc)) = true).
  { intros dc Hd. apply cost_anti_base; try assumption.
    - apply base_cost_nonneg; apply leb_not_ltb; assumption.
    - apply base_cost_anti_encapsulation; assumption.
    - apply pdi_cost_nonneg. exact Np. }
  split; [exact D12|]. split; [reflexivity|].
  split; [apply C21; apply py_max_0_nonneg|].
  rewrite !overall_score_b64.
  apply np_clip_le_mono; [lit|lit|].
  assert (BT : forall T, T = py_min B64 10
                 (py_min B64 10
                    (abs charge / 10 + py_max B64 0 (abs (size - 100)) / 50)
                  + get (PDI B64 d) 0.15 * 2
                  + py_max B64 0
                      ((get (DegradationTime B64 d) 30 - 30) / 30)) ->
               between 0 10 T).
  { intros T ->. split.
    - apply toxicity_nonneg;
        [apply base_toxicity_nonneg|apply leb_not_ltb; exact Lp
        |apply py_max_0_nonneg].
    - apply Bounds.py_min_le. reflexivity. }
  assert (BC : forall e, between 0 100 e ->
               between 0 100
                 (py_min B64 100
                    (py_min B64 100 ((100 - e) * 0.8 + size / 4)
                     + get (SurfaceArea B64 d) 250 / 20
                     + pdi_cost B64 (get (PDI B64 d) 0.15)
                     + py_max B64 0
                         ((get (DegradationTime B64 d) 30 - 60) / 10)))).
  { intros e B. split.
    - apply cost_nonneg; [|apply leb_not_ltb; exact La|apply py_max_0_nonneg].
      apply base_cost_nonneg; apply leb_not_ltb; [apply B|exact Ls].
    - apply Bounds.py_min_le. reflexivity. }
  apply raw_score_le_mono.
  - apply (leb_numbers 0). apply raw_score_between;
      [apply delivery_between; assumption|apply BT; reflexivity
      |apply BC; exact B1].
  - apply (leb_numbers 0). apply raw_score_between;
      [apply delivery_between; assumption|apply BT; reflexivity
      |apply BC; exact B2].
  - exact D12.
  - apply leb_refl. apply (leb_numbers 0). apply (BT _ eq_refl).
  - apply C21. apply py_max_0_nonneg.
Qed.

Lemma encapsulation_never_hurts_witness :
  exists i1 i2,
    compute_impact B64 (example_design B64) = Ok i1
    /\ compute_impact B64 (with_encapsulation 95 (example_design B64)) = Ok i2
    /\ (overall_score_from_impact B64 i1
        <=? overall_score_from_impact B64 i2) = true.
Proof.
  destruct (encapsulation_never_hurts (example_design B64) 100 5 85 95
              eq_refl eq_refl eq_refl eq_refl eq_refl eq_refl eq_refl
              eq_refl (conj eq_refl eq_refl) eq_refl)
    as (i1 & i2 & H1 & H2 & _ & _ & _ & H).
  exists i1, i2. split; [exact H1|]. split; [exact H2|exact H].
Defined.

End B64Pipeline.

(** ** The default hydrodynamic size in binary64

    Without a HydrodynamicSize the engine takes [Size * 1.2], and the ratio
    to the Size is the rounded quotient of a rounded product.  The bounds on
    it come from the error of one rounding. *)

Module B64Ratio.

Import B64Round B64Mono B64Order B64Eval B64Facts B64Scores B64Impact
  B64Ranker.

Local Open Scope Z_scope.

(** Rounding to nearest is off by at most one half. *)
Lemma rne_half (a b : Z) : 0 < b -> 2 * rne a b * b <= 2 * a + b.
Proof.
  intros Hb. destruct (rne_cases a b Hb) as (E & R & [[-> C]|[-> C]]); nia.
Qed.

Lemma pack_value (k E : Z) :
  0 <= k <= 2 ^ 53 -> is_finite_SF (pack false k E) = true ->
  (SF2Q (pack false k E) == inject_Z k * pow2 E)%Q.
Proof.
  intros Hk. unfold pack.
  destruct (k =? 0) eqn:E0.
  - apply Z.eqb_eq in E0. subst k. intros _. cbn [SF2Q].
    change (inject_Z 0) with 0%Q. ring.
  - apply Z.eqb_neq in E0. destruct (k <? 2 ^ 53) eqn:E1.
    + destruct (E <=? 971); [|discriminate]. intros _.
      cbn [SF2Q signQ]. rewrite Z2Pos.id by lia. ring.
    + apply Z.ltb_ge in E1. assert (k = 2 ^ 53) by lia. subst k.
      destruct (E + 1 <=? 971); [|discriminate]. intros _.
      cbn [SF2Q signQ]. rewrite Z2Pos.id by (apply pow2_pos; lia).
      rewrite pow2_add.
      change (2 ^ 53) with (2 ^ 52 * 2). rewrite inject_Z_mult.
      change (pow2 1) with 2%Q. change (inject_Z 2) with 2%Q. ring.
Qed.

Local Open Scope Q_scope.

Ltac hide_pow2 :=
  repeat match goal with
         | |- context [pow2 ?e] =>
           let p := fresh "p" in set (p := pow2 e) in *; clearbody p
         | H : context [pow2 ?e] |- _ =>
           let p := fresh "p" in set (p := pow2 e) in *; clearbody p
         end.

(** A finite result of rounding exceeds the non-negative exact value by at
    most the relative error [2^-53] and the absolute error [2^-1075]. *)
Lemma rounds_to_error (r : spec_float) (v : Q) :
  rounds_to r v -> is_finite_SF r = true -> 0 <= v ->
  SF2Q r <= v + v * pow2 (-53) + pow2 (-1074) * (1 # 2).
Proof.
  intros (s & A & B & E & -> & W & V) F Hv.
  pose proof W as (HA & HB & HE & U & L).
  pose proof (pow2_gt_0 (-1074)) as P0.
  pose proof (pow2_gt_0 E) as PE.
  assert (C53 : pow2 (-53) == 1 # 9007199254740992) by reflexivity.
  pose proof (frac_nonneg A B E HA HB) as Fn.
  destruct s; cbn [signQ] in V.
  - assert (Z0 : A = 0%Z).
    { apply (frac_zero_inv A B E HA HB). lra. }
    subst A. pose proof (rne_exact 0 B HB) as R0.
    rewrite Z.mul_0_l in R0. rewrite R0.
    cbn [pack Z.eqb SF2Q]. rewrite C53. hide_pow2. lra.
  - pose proof (well_scaled_rne A B E W) as [K _].
    rewrite (pack_value _ E K F).
    pose proof (rne_half A B HB) as H.
    set (k := rne A B) in *.
    assert (Hq : 2 * inject_Z k * inject_Z B <= 2 * inject_Z A + inject_Z B).
    { change 2 with (inject_Z 2).
      rewrite <- !inject_Z_mult, <- inject_Z_plus, <- Zle_Qle. exact H. }
    pose proof (inject_Z_pos B HB) as Pb.
    set (x := inject_Z A / inject_Z B) in *.
    assert (Hx : x * inject_Z B == inject_Z A).
    { unfold x. field. lra. }
    assert (Hk : inject_Z k <= x + (1 # 2)).
    { apply Qmult_lt_0_le_reg_r with (inject_Z B); [exact Pb|].
      rewrite Qmult_plus_distr_l, Hx. lra. }
    assert (Hv' : v == x * pow2 E).
    { rewrite V. unfold frac. fold x. ring. }
    rewrite Hv', C53.
    assert (Hh : pow2 E * (1 # 2)
                 <= x * pow2 E * (1 # 9007199254740992) + pow2 (-1074) * (1 # 2)).
    { destruct (Z.eq_dec E (-1074)) as [->|NE].
      - assert (0 <= x * pow2 (-1074)) by (rewrite <- Hv'; exact Hv).
        lra.
      - assert (L' : (2 ^ 52 * B <= A)%Z) by (apply L; lia).
        assert (Lx : inject_Z (2 ^ 52) <= x).
        { apply Qmult_lt_0_le_reg_r with (inject_Z B); [exact Pb|].
          rewrite Hx, <- inject_Z_mult, <- Zle_Qle. exact L'. }
        change (inject_Z (2 ^ 52)) with (4503599627370496 # 1) in Lx.
        assert (M : (4503599627370496 # 1) * pow2 E <= x * pow2 E).
        { apply Qmult_le_compat_r; lra. }
        hide_pow2. lra. }
    assert (Hm : inject_Z k * pow2 E <= (x + (1 # 2)) * pow2 E).
    { apply Qmult_le_compat_r; lra. }
    hide_pow2. lra.
Qed.

Lemma SF_between_positive (x : spec_float) (m1 m2 : positive) (e1 e2 : Z) :
  SFleb (S754_finite false m1 e1) x = true ->
  SFleb x (S754_finite false m2 e2) = true ->
  exists m e, x = S754_finite false m e.
Proof.
  destruct x as [[]|[]| |[] m e]; cbn [SFleb SFcompare]; intros H1 H2;
    try discriminate.
  exists m, e. reflexivity.
Qed.

Local Open Scope float_scope.

(** The least and the greatest Size of the range, and the doubles the
    argument compares with. *)
Definition least_size : float := 0x1p-1071.
Definition greatest_size : float := 0x1p+1023.

Lemma Prim2SF_least_size : Prim2SF least_size = S754_finite false 8 (-1074).
Proof. vm_compute. reflexivity. Qed.

Lemma Prim2SF_greatest_size :
  Prim2SF greatest_size = S754_finite false 4503599627370496 971.
Proof. vm_compute. reflexivity. Qed.

Lemma Prim2SF_above_greatest :
  Prim2SF 0x1.4p+1023 = S754_finite false 5629499534213120 971.
Proof. vm_compute. reflexivity. Qed.

Lemma SF2Q_1_2 :
  (SF2Q (Prim2SF 1.2) == 5404319552844595 # 4503599627370496)%Q.
Proof. vm_compute. reflexivity. Qed.

Lemma SF2Q_1_3 :
  (SF2Q (Prim2SF 1.3) == 5854679515581645 # 4503599627370496)%Q.
Proof. vm_compute. reflexivity. Qed.

Lemma SF2Q_1 : (SF2Q (Prim2SF 1) == 1)%Q.
Proof. vm_compute. reflexivity. Qed.

(** For a Size of the range, the product by 1.2 is finite and its quotient by
    the Size lies between 1.0 and 1.3, both bounds included. *)
Lemma default_ratio_between (size : float) :
  (least_size <=? size) = true -> (size <=? greatest_size) = true ->
  (size =? 0) = false
  /\ (1.0 <=? size * 1.2 / size) = true
  /\ (size * 1.2 / size <=? 1.3) = true.
Proof.
  intros Hlo Hhi.
  pose proof (Prim2SF_valid size) as VS.
  pose proof (Prim2SF_valid (size * 1.2)) as VU.
  pose proof (Prim2SF_valid least_size) as Vlo.
  pose proof (Prim2SF_valid greatest_size) as Vhi.
  pose proof (Prim2SF_valid 0x1.4p+1023) as Vab.
  rewrite leb_spec in Hlo, Hhi.
  assert (PS : exists m e, Prim2SF size = S754_finite false m e).
  { rewrite Prim2SF_least_size in Hlo. rewrite Prim2SF_greatest_size in Hhi.
    exact (SF_between_positive _ _ _ _ _ Hlo Hhi). }
  destruct PS as (m & e & ES).
  assert (FS : is_finite_SF (Prim2SF size) = true) by (rewrite ES; reflexivity).
  pose proof (SF2Q_pos m e) as Ps. rewrite <- ES in Ps.
  pose proof (SFleb_value _ _ Vlo VS
                ltac:(rewrite Prim2SF_least_size; reflexivity) FS Hlo) as Lo.
  pose proof (SFleb_value _ _ VS Vhi FS
                ltac:(rewrite Prim2SF_greatest_size; reflexivity) Hhi) as Hi.
  rewrite Prim2SF_least_size in Lo. rewrite Prim2SF_greatest_size in Hi.
  cbn [SF2Q signQ] in Lo, Hi.
  change (inject_Z 8) with 8%Q in Lo.
  change (inject_Z 4503599627370496) with (4503599627370496 # 1)%Q in Hi.
  pose proof (valid_rounds_to _ VS FS) as RS.
  pose proof (SFmul_rounds _ _ VS (Prim2SF_valid 1.2) FS eq_refl) as RU.
  fold SF64mul in RU. rewrite <- mul_spec in RU.
  pose proof (pow2_gt_0 (-1074)) as P0.
  pose proof (pow2_gt_0 971) as P1.
  assert (C53 : (pow2 (-53) == 1 # 9007199254740992)%Q) by reflexivity.
  set (s := SF2Q (Prim2SF size)) in *.
  assert (LSU : SFleb (Prim2SF size) (Prim2SF (size * 1.2)) = true).
  { apply (rounds_to_mono _ _ _ _ RS RU). rewrite SF2Q_1_2. lra. }
  assert (LUB : SFleb (Prim2SF (size * 1.2)) (Prim2SF 0x1.4p+1023) = true).
  { apply (rounds_to_mono _ _ _ _ RU
             (valid_rounds_to _ Vab
                ltac:(rewrite Prim2SF_above_greatest; reflexivity))).
    rewrite Prim2SF_above_greatest, SF2Q_1_2. cbn [SF2Q signQ].
    change (inject_Z 5629499534213120) with (5629499534213120 # 1)%Q.
    hide_pow2. lra. }
  assert (PU : exists mu eu, Prim2SF (size * 1.2) = S754_finite false mu eu).
  { rewrite ES in LSU. rewrite Prim2SF_above_greatest in LUB.
    exact (SF_between_positive _ _ _ _ _ LSU LUB). }
  destruct PU as (mu & eu & EU).
  assert (FU : is_finite_SF (Prim2SF (size * 1.2)) = true)
    by (rewrite EU; reflexivity).
  pose proof (SFleb_value _ _ VS VU FS FU LSU) as LV. fold s in LV.
  pose proof (rounds_to_error _ _ RU FU) as UV. fold s in UV.
  rewrite SF2Q_1_2, C53 in UV.
  assert (UV' : (SF2Q (Prim2SF (size * 1.2))
                 <= s * (5854679515581645 # 4503599627370496))%Q).
  { assert (0 <= s * (5404319552844595 # 4503599627370496))%Q by lra.
    specialize (UV H). hide_pow2. lra. }
  pose proof (SFdiv_rounds _ _ VU VS FU
                (ex_intro _ false (ex_intro _ m (ex_intro _ e ES)))) as RR.
  fold SF64div in RR. rewrite <- div_spec in RR. fold s in RR.
  split; [|split].
  - rewrite eqb_spec, ES. reflexivity.
  - rewrite leb_spec.
    apply (rounds_to_mono _ _ _ _
             (valid_rounds_to _ (Prim2SF_valid 1.0) eq_refl) RR).
    rewrite SF2Q_1. apply Qle_shift_div_l; [exact Ps|]. lra.
  - rewrite leb_spec.
    apply (rounds_to_mono _ _ _ _ RR
             (valid_rounds_to _ (Prim2SF_valid 1.3) eq_refl)).
    rewrite SF2Q_1_3. apply Qle_shift_div_r; [exact Ps|]. lra.
Qed.

(** Outside the range the default can miss the band: at the subnormal Size
    [3 * 2^-1074] the product rounds to [4 * 2^-1074] and the ratio is 4/3,
    and at the greatest double the product overflows to infinity. *)
Lemma default_ratio_outside_range :
  (exists r, size_ratio B64 (0x3p-1074 * 1.2) 0x3p-1074 = Ok r
             /\ (r <=? 1.3) = false
             /\ (hydrodynamic_score B64 r <? 100) = true)
  /\ (exists r, size_ratio B64 (0x1.fffffffffffffp+1023 * 1.2)
                  0x1.fffffffffffffp+1023 = Ok r
                /\ (r <=? 1.3) = false
                /\ (hydrodynamic_score B64 r =? 0) = true).
Proof.
  split; eexists; (split; [vm_compute; reflexivity|]);
    split; vm_compute; reflexivity.
Qed.

(** X17.  In binary64, when the design gives no HydrodynamicSize and the Size
    lies between [2^-1071] and [2^1023], the default [Size * 1.2] is finite,
    the ratio [Size * 1.2 / Size] as rounded lies between 1.0 and 1.3, so the
    hydrodynamic score is 100 and Delivery is computed with it. *)
Theorem default_hydrodynamic_score (d : design B64) (size charge encap : float) :
  Size B64 d = Some size ->
  Charge B64 d = Some charge ->
  Encapsulation B64 d = Some encap ->
  HydrodynamicSize B64 d = None ->
  (0x1p-1071 <=? size) = true ->
  (size <=? 0x1p+1023) = true ->
  exists r i ss,
    size_ratio B64 (size * 1.2) size = Ok r
    /\ r = size * 1.2 / size
    /\ (1.0 <=? r) = true
    /\ (r <=? 1.3) = true
    /\ hydrodynamic_score B64 r = 100
    /\ size_score B64 size = Ok ss
    /\ compute_impact B64 d = Ok i
    /\ Delivery B64 i =
       delivery B64 ss (charge_score B64 charge) encap
         (pdi_score B64 (get (PDI B64 d) 0.15)) 100
         (get (Stability B64 d) 85).
Proof.
  intros Hs Hc He Hh Hlo Hhi.
  destruct (default_ratio_between size Hlo Hhi) as (Z & B1 & B2).
  destruct (compute_impact_b64 d size charge encap Hs Hc He)
    as (ss & r & Hss & Hr & H).
  rewrite Hh in Hr. cbn [get] in Hr.
  assert (E : r = size * 1.2 / size).
  { revert Hr. unfold size_ratio, truthy, truediv. b64. rewrite Z.
    cbn [negb]. intros Hr. apply Ok_inj in Hr. symmetry. exact Hr. }
  assert (S : hydrodynamic_score B64 r = 100).
  { unfold hydrodynamic_score. b64. rewrite E, B1, B2. reflexivity. }
  exists r. eexists. exists ss.
  split; [exact Hr|]. split; [exact E|].
  split; [rewrite E; exact B1|]. split; [rewrite E; exact B2|].
  split; [exact S|]. split; [exact Hss|]. split; [exact H|].
  cbn [Delivery]. rewrite S. reflexivity.
Qed.

Lemma default_hydrodynamic_score_witness :
  exists r, size_ratio B64 (100 * 1.2) 100 = Ok r
            /\ hydrodynamic_score B64 r = 100.
Proof.
  destruct (default_hydrodynamic_score (example_design B64) 100 5 85
              eq_refl eq_refl eq_refl eq_refl eq_refl eq_refl)
    as (r & i & ss & Hr & _ & _ & _ & S & _).
  exists r. split; [exact Hr|exact S].
Defined.

End B64Ratio.


(** ** Further properties of the engine *)

Module Edges.

Import B64Round B64Mono B64Order B64Eval B64Facts ExactEval.
Local Open Scope float_scope.

(** *** [validate_parameter] *)

(** X13.  [validate_parameter] raises [ValueError] unless the range holds
    exactly two bounds, and with two bounds it returns one of the three
    marks; the parameter name is never read; in binary64 a value that is NaN
    is rated bad whatever the range. *)
Theorem validate_parameter_arity :
  (forall (N : arith) (param : string) (value : N) (l : list N),
      List.length l <> 2%nat ->
      validate_parameter N param value l = Raised ValueError)
  /\ (forall (N : arith) (param : string) (value lo hi : N),
         exists s, validate_parameter N param value [lo; hi] = Ok s
                   /\ In s [status_ok; status_warning; status_bad])
  /\ (forall (N : arith) (p1 p2 : string) (value : N) (l : list N),
         validate_parameter N p1 value l = validate_parameter N p2 value l)
  /\ (forall (param : string) (value lo hi : float),
         ~ number value ->
         validate_parameter B64 param value [lo; hi] = Ok status_bad).
Proof.
  split; [|split; [|split]].
  - intros N param value l H.
    destruct l as [|lo [|hi [|x l]]]; cbn in H; try reflexivity.
    contradiction H. reflexivity.
  - intros N param value lo hi. unfold validate_parameter.
    destruct (leb N lo value && leb N value hi);
      [eexists; split; [reflexivity|cbn; tauto]|].
    destruct (ltb N (absv N (sub N value lo)) (lit N 20)
              || ltb N (absv N (sub N value hi)) (lit N 20));
      eexists; (split; [reflexivity|cbn; tauto]).
  - reflexivity.
  - intros param value lo hi Hn. unfold validate_parameter. b64.
    rewrite (leb_nan_r lo value Hn). cbn [andb].
    assert (A : forall c, (abs (value - c) <? 20) = false).
    { intros c. apply ltb_nan_l. intros N.
      apply abs_number_inv in N. apply sub_number_inv in N.
      destruct N as [N _]. exact (Hn N). }
    rewrite !A. reflexivity.
Qed.

Local Close Scope float_scope.
Local Open Scope Q_scope.

Lemma status_distinct :
  status_ok <> status_warning /\ status_ok <> status_bad
  /\ status_warning <> status_bad.
Proof. repeat split; intros H; vm_compute in H; discriminate. Qed.

(** X14.  In exact arithmetic, for a range with [lo <= hi]:
    [validate_parameter] answers ok on [[lo, hi]], warning on the two open
    bands of width 20 next to it, [(lo - 20, lo)] and [(hi, hi + 20)], and
    bad from [lo - 20] down and from [hi + 20] up. *)
Theorem validate_parameter_bands (param : string) (value lo hi : Q) :
  lo <= hi ->
  (validate_parameter Exact param value [lo; hi] = Ok status_ok
   <-> lo <= value <= hi)
  /\ (validate_parameter Exact param value [lo; hi] = Ok status_warning
      <-> lo - 20 < value < lo \/ hi < value < hi + 20)
  /\ (validate_parameter Exact param value [lo; hi] = Ok status_bad
      <-> value <= lo - 20 \/ hi + 20 <= value).
Proof.
  intros H. destruct status_distinct as (D1 & D2 & D3).
  unfold validate_parameter.
  q_tests; q_unfold; q_abs;
    (split; [|split]); split;
    try (intros K; apply Ok_inj in K; exfalso;
         first [exact (D1 K)|exact (D1 (eq_sym K))|exact (D2 K)
               |exact (D2 (eq_sym K))|exact (D3 K)|exact (D3 (eq_sym K))]);
    try (intros _; reflexivity);
    try (intros _; lra);
    try (intros; exfalso; lra).
  all: try (intros _; first [left; lra|right; lra]).
Qed.

Lemma validate_parameter_bands_witness :
  validate_parameter Exact "Size" 130 [80; 120] = Ok status_warning.
Proof.
  apply (validate_parameter_bands "Size" 130 80 120); [lra|].
  right. split; reflexivity.
Defined.

Local Close Scope Q_scope.
Local Open Scope float_scope.

(** *** [regulatory_checklist] *)

(** The seven conditions of the checklist that depend on the design. *)
Definition conditions (d : design B64) (size charge encap : float)
    : list bool :=
  [ size <=? 200;
    get (PDI B64 d) 0.15 <? 0.3;
    abs charge <=? 30;
    70 <=? encap;
    80 <=? get (Stability B64 d) 85;
    contains ["Lipid NP"; "PLGA"]%string (Material B64 d);
    get (DegradationTime B64 d) 30 <? 90 ].

(** X15.  [regulatory_checklist] raises [KeyError] for the first of Size,
    Charge and Encapsulation that is missing.  With the three present it
    returns, in binary64, 100 exactly when all seven conditions on the design
    hold, and at most 87.5 when the Material is absent or not one of the two
    approved ones. *)
Theorem regulatory_checklist_full_score (d : design B64) :
  match Size B64 d, Charge B64 d, Encapsulation B64 d with
  | Some size, Some charge, Some encap =>
      exists v, regulatory_checklist B64 d = Ok v
        /\ (v =? 100) = forallb (fun b => b) (conditions d size charge encap)
        /\ (contains ["Lipid NP"; "PLGA"]%string (Material B64 d) = false ->
            (v <=? 87.5) = true)
  | None, _, _ => regulatory_checklist B64 d = Raised (KeyError "Size")
  | Some _, None, _ => regulatory_checklist B64 d = Raised (KeyError "Charge")
  | Some _, Some _, None =>
      regulatory_checklist B64 d = Raised (KeyError "Encapsulation")
  end.
Proof.
  assert (K : forall b1 b2 b3 b4 b5 b6 b7 : bool,
             exists v,
               (r <- truediv B64
                       (of_int B64
                          (List.length
                             (filter (fun b : bool => b)
                                [b1; b2; b3; b4; b5; b6; b7; true])))
                       (of_int B64 8) ;;
                Ok (r * 100)) = Ok v
               /\ (v =? 100) = forallb (fun b => b) [b1; b2; b3; b4; b5; b6; b7]
               /\ (b6 = false -> (v <=? 87.5) = true)).
  { intros [] [] [] [] [] [] [];
      (eexists; split; [vm_compute; reflexivity|]);
      (split; [vm_compute; reflexivity|]);
      intros H; try discriminate H; vm_compute; reflexivity. }
  unfold regulatory_checklist, checklist.
  destruct (Size B64 d) as [size|]; cbn [getitem bind]; [|reflexivity].
  destruct (Charge B64 d) as [charge|]; cbn [getitem bind]; [|reflexivity].
  destruct (Encapsulation B64 d) as [encap|]; cbn [getitem bind];
    [|reflexivity].
  exact (K (size <=? 200) (get (PDI B64 d) 0.15 <? 0.3)
           (abs charge <=? 30) (70 <=? encap)
           (80 <=? get (Stability B64 d) 85)
           (contains ["Lipid NP"; "PLGA"]%string (Material B64 d))
           (get (DegradationTime B64 d) 30 <? 90)).
Qed.

(** *** [get_recommendations] *)

Lemma recommendations_excellent (b1 b2 b3 b4 b5 b6 : bool) :
  (let r := [] in
   let r := if b1 then append r msg_increase_size
            else if b2 then append r msg_reduce_size else r in
   let r := if b3 then append r msg_lower_charge
            else if b4 then append r msg_reduce_charge else r in
   let r := if b5 then append r msg_improve_encapsulation
            else if b6 then append r msg_aim_encapsulation else r in
   let r := match r with
            | [] => append r msg_excellent
            | _ :: _ => r
            end in
   Ok r) = @Ok (list string) [msg_excellent]
  <-> b1 || b2 || b3 || b4 || b5 || b6 = false.
Proof.
  destruct b1, b2, b3, b4, b5, b6; cbn; split; intros H;
    try reflexivity; try discriminate H;
    apply Ok_inj in H; vm_compute in H; discriminate H.
Qed.

Lemma get_recommendations_excellent (d : design B64)
    (size charge encap : float) :
  Size B64 d = Some size ->
  Charge B64 d = Some charge ->
  Encapsulation B64 d = Some encap ->
  get_recommendations B64 d = Ok [msg_excellent]
  <-> (size <? 80) || (150 <? size) || (15 <? abs charge)
      || (10 <? abs charge) || (encap <? 70) || (encap <? 85) = false.
Proof.
  intros Hs Hc He. unfold get_recommendations.
  rewrite Hs, Hc, He. cbn [getitem bind].
  exact (recommendations_excellent (size <? 80) (150 <? size)
           (15 <? abs charge) (10 <? abs charge) (encap <? 70) (encap <? 85)).
Qed.

Lemma not_ltb_iff (x y : float) :
  number x -> number y -> (x <? y) = false <-> (y <=? x) = true.
Proof.
  intros Nx Ny. split.
  - apply leb_total; assumption.
  - apply leb_not_ltb.
Qed.

Lemma checklist_value (b1 b2 b3 b4 b5 b6 b7 : bool) :
  b1 = true -> b3 = true -> b4 = true ->
  exists v,
    (r <- truediv B64
            (of_int B64
               (List.length
                  (filter (fun b : bool => b)
                     [b1; b2; b3; b4; b5; b6; b7; true])))
            (of_int B64 8) ;;
     Ok (r * 100)) = Ok v
    /\ (50 <=? v) = true.
Proof.
  intros -> -> ->. destruct b2, b5, b6, b7;
    (eexists; split; [vm_compute; reflexivity|]); vm_compute; reflexivity.
Qed.

(** X16.  In binary64, for a design whose Size, Charge and Encapsulation are
    numbers, [get_recommendations] returns the single fallback message exactly
    when [80 <= Size <= 150], [|Charge| <= 10] and [Encapsulation >= 85]; such
    a design passes at least half of the regulatory checklist.  A design
    whose three required values are NaN also gets the fallback message: no
    comparison with NaN holds. *)
Theorem excellent_design_b64 :
  (forall (d : design B64) (size charge encap : float),
      Size B64 d = Some size ->
      Charge B64 d = Some charge ->
      Encapsulation B64 d = Some encap ->
      number size -> number charge -> number encap ->
      (get_recommendations B64 d = Ok [msg_excellent]
       <-> (80 <=? size) = true /\ (size <=? 150) = true
           /\ (abs charge <=? 10) = true /\ (85 <=? encap) = true)
      /\ (get_recommendations B64 d = Ok [msg_excellent] ->
          exists v, regulatory_checklist B64 d = Ok v /\ (50 <=? v) = true))
  /\ (forall (d : design B64) (size charge encap : float),
         Size B64 d = Some size ->
         Charge B64 d = Some charge ->
         Encapsulation B64 d = Some encap ->
         ~ number size -> ~ number charge -> ~ number encap ->
         get_recommendations B64 d = Ok [msg_excellent]).
Proof.
  split.
  - intros d size charge encap Hs Hc He Ns Nc Ne.
    pose proof (abs_number charge Nc) as Na.
    assert (R : get_recommendations B64 d = Ok [msg_excellent]
                <-> (80 <=? size) = true /\ (size <=? 150) = true
                    /\ (abs charge <=? 10) = true /\ (85 <=? encap) = true).
    { rewrite (get_recommendations_excellent d size charge encap Hs Hc He).
      rewrite !orb_false_iff.
      rewrite (not_ltb_iff size 80), (not_ltb_iff 150 size),
        (not_ltb_iff 15 (abs charge)), (not_ltb_iff 10 (abs charge)),
        (not_ltb_iff encap 70), (not_ltb_iff encap 85);
        try assumption; try lit.
      split.
      - intros (((((H1 & H2) & H3) & H4) & H5) & H6). tauto.
      - intros (H1 & H2 & H3 & H4). repeat split; try assumption.
        + exact (leb_trans (abs charge) 10 15 H3 eq_refl).
        + exact (leb_trans 70 85 encap eq_refl H4). }
    split; [exact R|].
    intros H. apply R in H. destruct H as (H1 & H2 & H3 & H4).
    unfold regulatory_checklist, checklist.
    rewrite Hs, Hc, He. cbn [getitem bind].
    apply (checklist_value (size <=? 200) (get (PDI B64 d) 0.15 <? 0.3)
             (abs charge <=? 30) (70 <=? encap)
             (80 <=? get (Stability B64 d) 85)
             (contains ["Lipid NP"; "PLGA"]%string (Material B64 d))
             (get (DegradationTime B64 d) 30 <? 90)).
    + exact (leb_trans size 150 200 H2 eq_refl).
    + exact (leb_trans (abs charge) 10 30 H3 eq_refl).
    + exact (leb_trans 70 85 encap eq_refl H4).
  - intros d size charge encap Hs Hc He Ns Nc Ne.
    apply (get_recommendations_excellent d size charge encap Hs Hc He).
    assert (Na : ~ number (abs charge)).
    { intros N. apply abs_number_inv in N. exact (Nc N). }
    rewrite (ltb_nan_l size 80 Ns), (ltb_nan_r 150 size Ns),
      (ltb_nan_r 15 _ Na), (ltb_nan_r 10 _ Na),
      (ltb_nan_l encap 70 Ne), (ltb_nan_l encap 85 Ne).
    reflexivity.
Qed.

Local Close Scope float_scope.
Local Open Scope Q_scope.

End Edges.

(** * Properties of the session state, the dependency checks and the tab
    runner *)

(** ** Session state *)

Module StateFacts.

Import State.
Local Open Scope list_scope.

Lemma lookup_app (k : string) (d e : session) :
  lookup k (d ++ e) = match lookup k d with
                      | Some v => Some v
                      | None => lookup k e
                      end.
Proof.
  induction d as [|[k' v'] d IH]; cbn [lookup List.app]; [reflexivity|].
  destruct (String.eqb k k'); [reflexivity|exact IH].
Qed.

(** Assigning to a new key appends the entry. *)
Lemma setitem_absent (k : string) (v : value) (d : session) :
  lookup k d = None -> setitem k v d = (d ++ [(k, v)])%list.
Proof.
  induction d as [|[k' v'] d IH]; cbn [lookup setitem List.app]; [reflexivity|].
  destruct (String.eqb k k'); [discriminate|].
  intros H. rewrite (IH H). reflexivity.
Qed.

Lemma lookup_setitem (k k' : string) (v : value) (d : session) :
  lookup k' (setitem k v d)
  = if String.eqb k' k then Some v else lookup k' d.
Proof.
  induction d as [|[k0 v0] d IH]; cbn [lookup setitem].
  - reflexivity.
  - destruct (String.eqb k k0) eqn:E; cbn [lookup].
    + apply String.eqb_eq in E. subst k0.
      destruct (String.eqb k' k); reflexivity.
    + destruct (String.eqb k' k0) eqn:E'.
      * apply String.eqb_eq in E'. subst k0.
        rewrite String.eqb_sym, E. reflexivity.
      * exact IH.
Qed.

Lemma set_if_absent_spec (d : session) (k : string) (v : value) :
  set_if_absent d (k, v)
  = match lookup k d with
    | Some _ => d
    | None => (d ++ [(k, v)])%list
    end.
Proof.
  unfold set_if_absent, contains_key.
  destruct (lookup k d) eqn:E; cbn [negb]; [reflexivity|].
  apply setitem_absent. exact E.
Qed.

(** One loop of [init_state]: what each key holds afterwards. *)
Lemma lookup_fold_set_if_absent (l d : session) (k : string) :
  lookup k (fold_left set_if_absent l d)
  = match lookup k d with
    | Some v => Some v
    | None => lookup k l
    end.
Proof.
  revert d. induction l as [|[k1 v1] l IH]; intros d; cbn [fold_left lookup].
  - destruct (lookup k d); reflexivity.
  - rewrite IH, set_if_absent_spec.
    destruct (lookup k1 d) eqn:E1.
    + destruct (lookup k d) eqn:E; [reflexivity|].
      destruct (String.eqb k k1) eqn:Ek; [|reflexivity].
      apply String.eqb_eq in Ek. subst k1. congruence.
    + rewrite lookup_app. cbn [lookup].
      destruct (lookup k d); [reflexivity|].
      destruct (String.eqb k k1); reflexivity.
Qed.

Lemma lookup_In (k : string) (v : value) (l : session) :
  In (k, v) l -> lookup k l <> None.
Proof.
  induction l as [|[k' v'] l IH]; cbn [lookup]; [intros []|].
  intros [H|H].
  - injection H as -> ->. rewrite String.eqb_refl. discriminate.
  - destruct (String.eqb k k'); [discriminate|apply IH; exact H].
Qed.

(** A loop over keys that are all present changes nothing. *)
Lemma fold_set_if_absent_id (l d : session) :
  (forall k v, In (k, v) l -> lookup k d <> None) ->
  fold_left set_if_absent l d = d.
Proof.
  induction l as [|[k1 v1] l IH]; intros H; cbn [fold_left]; [reflexivity|].
  rewrite set_if_absent_spec.
  destruct (lookup k1 d) eqn:E.
  - apply IH. intros k w Hk. apply (H k w). right. exact Hk.
  - destruct (H k1 v1 (or_introl eq_refl)). exact E.
Qed.

Definition given (overrides : option session) : session :=
  match overrides with
  | None => []
  | Some o => o
  end.

Lemma init_state_unfold (overrides : option session) (d : session) :
  init_state overrides d
  = fold_left set_if_absent (given overrides)
      (fold_left set_if_absent DEFAULTS d).
Proof. destruct overrides; reflexivity. Qed.

(** X18.  After [init_state] a key holds the value the session state already
    had for it; failing that, its default; failing that too, the value the
    overrides give it.  So a value that is present is never replaced, every
    default key is present afterwards, and an override of a key that has a
    default never takes effect. *)
Theorem init_state_lookup :
  (forall (overrides : option session) (d : session) (k : string),
      lookup k (init_state overrides d)
      = match lookup k d with
        | Some v => Some v
        | None =>
            match lookup k DEFAULTS with
            | Some v => Some v
            | None => lookup k (given overrides)
            end
        end)
  /\ (forall (o d : session) (k : string),
         lookup k DEFAULTS <> None ->
         lookup k (init_state (Some o) d) = lookup k (init_state None d)).
Proof.
  split.
  - intros overrides d k.
    rewrite init_state_unfold, !lookup_fold_set_if_absent.
    destruct (lookup k d); reflexivity.
  - intros o d k H.
    rewrite !init_state_unfold, !lookup_fold_set_if_absent.
    destruct (lookup k d); [reflexivity|].
    destruct (lookup k DEFAULTS); [reflexivity|]. contradiction H. reflexivity.
Qed.

(** X19.  [init_state] is idempotent: a second call with the same overrides
    leaves the session state as the first call made it. *)
Theorem init_state_idempotent (overrides : option session) (d : session) :
  init_state overrides (init_state overrides d) = init_state overrides d.
Proof.
  rewrite (init_state_unfold overrides (init_state overrides d)).
  assert (P : forall l, (l = DEFAULTS \/ l = given overrides) ->
                forall k v, In (k, v) l ->
                            lookup k (init_state overrides d) <> None).
  { intros l Hl k v H. apply lookup_In in H.
    rewrite init_state_unfold, !lookup_fold_set_if_absent.
    destruct (lookup k d); [discriminate|].
    destruct Hl as [-> | ->]; destruct (lookup k DEFAULTS); congruence. }
  rewrite (fold_set_if_absent_id DEFAULTS); [|apply P; left; reflexivity].
  apply fold_set_if_absent_id. apply P. right. reflexivity.
Qed.

(** X21.  [get_active_tab] reads back what [set_active_tab] wrote, whatever
    the session state held; [set_active_tab] changes no other key; a later
    [init_state] does not reset the tab; and a session state initialised
    without an active tab reports "Home". *)
Theorem active_tab_round_trip :
  (forall t d, get_active_tab (set_active_tab t d) = VStr t)
  /\ (forall t d k, k <> "active_tab" ->
                    lookup k (set_active_tab t d) = lookup k d)
  /\ (forall t o d,
         get_active_tab (init_state o (set_active_tab t d)) = VStr t)
  /\ (forall o d, lookup "active_tab" d = None ->
                  get_active_tab (init_state o d) = VStr "Home")
  /\ (forall d, lookup "active_tab" d = None ->
                get_active_tab d = VStr "Home").
Proof.
  split; [|split; [|split; [|split]]].
  - intros t d. unfold get_active_tab, get_default, set_active_tab.
    rewrite lookup_setitem, String.eqb_refl. reflexivity.
  - intros t d k H. unfold set_active_tab. rewrite lookup_setitem.
    apply String.eqb_neq in H. rewrite H. reflexivity.
  - intros t o d. unfold get_active_tab, get_default.
    rewrite init_state_unfold, !lookup_fold_set_if_absent.
    unfold set_active_tab.
    rewrite lookup_setitem, String.eqb_refl. reflexivity.
  - intros o d H. unfold get_active_tab, get_default.
    rewrite init_state_unfold, !lookup_fold_set_if_absent, H. reflexivity.
  - intros d H. unfold get_active_tab, get_default. rewrite H. reflexivity.
Qed.

(** ** The tab registry *)

Section Sorting.

Import Sorted Permutation.

Context {A : Type} (key : A -> Z).

Definition by_key (a b : A) : Prop := (key a <= key b)%Z.

Lemma insert_sorted_perm (x : A) (l : list A) :
  Permutation (insert_sorted key x l) (x :: l).
Proof.
  induction l as [|y l IH]; cbn [insert_sorted]; [apply Permutation_refl|].
  destruct (key x <=? key y)%Z; [apply Permutation_refl|].
  apply perm_trans with (y :: x :: l); [|apply perm_swap].
  apply perm_skip. exact IH.
Qed.

Lemma sorted_perm (l : list A) : Permutation (sorted key l) l.
Proof.
  induction l as [|x l IH]; cbn [sorted fold_right]; [apply perm_nil|].
  apply perm_trans with (x :: sorted key l).
  - apply insert_sorted_perm.
  - apply perm_skip. exact IH.
Qed.

Lemma insert_sorted_ordered (x : A) (l : list A) :
  StronglySorted by_key l -> StronglySorted by_key (insert_sorted key x l).
Proof.
  induction l as [|y l IH]; intros S; cbn [insert_sorted].
  - constructor; [constructor|constructor].
  - apply StronglySorted_inv in S. destruct S as [S F].
    destruct (key x <=? key y)%Z eqn:E.
    + apply Z.leb_le in E. constructor; [constructor; assumption|].
      constructor; [exact E|].
      rewrite Forall_forall in *. intros z Hz. unfold by_key in *.
      specialize (F z Hz). lia.
    + apply Z.leb_gt in E. constructor; [apply IH; exact S|].
      rewrite Forall_forall in *. intros z Hz.
      apply (Permutation_in _ (insert_sorted_perm x l)) in Hz.
      destruct Hz as [<-|Hz]; [unfold by_key; lia|apply F; exact Hz].
Qed.

Lemma sorted_ordered (l : list A) : StronglySorted by_key (sorted key l).
Proof.
  induction l as [|x l IH]; cbn [sorted fold_right]; [constructor|].
  apply insert_sorted_ordered. exact IH.
Qed.

(** Stability: among the elements of one key the order is kept. *)
Lemma insert_sorted_stable (n : Z) (x : A) (l : list A) :
  filter (fun a => key a =? n)%Z (insert_sorted key x l)
  = filter (fun a => key a =? n)%Z (x :: l).
Proof.
  induction l as [|y l IH]; cbn [insert_sorted]; [reflexivity|].
  destruct (key x <=? key y)%Z eqn:E; [reflexivity|].
  apply Z.leb_gt in E. cbn [filter] in *. rewrite IH.
  destruct (key y =? n)%Z eqn:Ey, (key x =? n)%Z eqn:Ex; try reflexivity.
  apply Z.eqb_eq in Ey, Ex. lia.
Qed.

Lemma sorted_stable (n : Z) (l : list A) :
  filter (fun a => key a =? n)%Z (sorted key l)
  = filter (fun a => key a =? n)%Z l.
Proof.
  induction l as [|x l IH]; cbn [sorted fold_right]; [reflexivity|].
  rewrite insert_sorted_stable. cbn [filter]. fold (sorted key l).
  rewrite IH. reflexivity.
Qed.

(** A list that is in order already is returned as it is. *)
Lemma sorted_fixed (l : list A) : StronglySorted by_key l -> sorted key l = l.
Proof.
  induction l as [|x l IH]; intros S; cbn [sorted fold_right]; [reflexivity|].
  apply StronglySorted_inv in S. destruct S as [S F].
  fold (sorted key l). rewrite (IH S).
  destruct l as [|y l]; [reflexivity|]. cbn [insert_sorted].
  apply Forall_inv in F. unfold by_key in F. apply Z.leb_le in F.
  rewrite F. reflexivity.
Qed.

End Sorting.

(** X22.  For any registry, [get_available_tabs] returns the enabled tabs and
    only them, each as often as the registry lists it, in non-decreasing
    order of [order], tabs of equal [order] staying in the order of the
    registry (Python's sort is stable). *)
Theorem available_tabs_sorted (specs : list TabSpec) :
  Sorted.StronglySorted (by_key order) (available_tabs specs)
  /\ Permutation.Permutation (available_tabs specs) (filter enabled specs)
  /\ (forall t, In t (available_tabs specs)
                <-> In t specs /\ enabled t = true)
  /\ (forall n, filter (fun t => order t =? n)%Z (available_tabs specs)
                = filter (fun t => order t =? n)%Z (filter enabled specs)).
Proof.
  unfold available_tabs. split; [|split; [|split]].
  - apply sorted_ordered.
  - apply sorted_perm.
  - intros t. rewrite <- filter_In. split; intros H.
    + apply (Permutation.Permutation_in _ (sorted_perm order _)). exact H.
    + apply (Permutation.Permutation_in _
               (Permutation.Permutation_sym (sorted_perm order _))).
      exact H.
  - intros n. apply sorted_stable.
Qed.

Lemma filter_all {A : Type} (p : A -> bool) (l : list A) :
  forallb p l = true -> filter p l = l.
Proof.
  induction l as [|x l IH]; cbn [forallb filter]; [reflexivity|].
  intros H. apply andb_true_iff in H. destruct H as [Hx Hl].
  rewrite Hx, (IH Hl). reflexivity.
Qed.

(** X23.  A registry whose tabs are all enabled and listed in non-decreasing
    [order] is returned as it is.  The registry of the source is one: the
    tabs come in the order of their declaration, Home first, and the tab that
    a fresh session state reports as active is the first of them. *)
Theorem tab_registry_order :
  (forall specs,
      forallb enabled specs = true ->
      Sorted.StronglySorted (by_key order) specs ->
      available_tabs specs = specs)
  /\ get_available_tabs = TAB_SPECS
  /\ get_tab_titles
     = ["Home"; "Materials"; "Design"; "Delivery"; "Toxicity"; "Cost";
        "Protocol"; "Quiz"; "3D View"; "Optimize"]
  /\ (exists rest, get_tab_titles = "Home" :: rest
                   /\ get_active_tab (ensure_state []) = VStr "Home").
Proof.
  split; [|split; [|split]].
  - intros specs He Hs. unfold available_tabs.
    rewrite (filter_all _ _ He). apply sorted_fixed. exact Hs.
  - reflexivity.
  - reflexivity.
  - eexists. split; reflexivity.
Qed.

End StateFacts.

(** ** Missing dependencies *)

Module DepsFacts.

Import Deps.
Local Open Scope list_scope.

(** X24.  [warn_missing_deps] only appends to the page: the scikit-learn
    warning when scikit-learn is missing, then the Plotly note when Plotly is
    missing.  It shows nothing exactly when both flags are true; fed with the
    two checks, exactly when the three modules they import can be
    imported. *)
Theorem warn_missing_deps_events :
  (forall plotly_ok sklearn_ok page,
      warn_missing_deps plotly_ok sklearn_ok page
      = page ++ (if sklearn_ok then [] else [warning msg_sklearn])
             ++ (if plotly_ok then [] else [info msg_plotly]))
  /\ (forall plotly_ok sklearn_ok page,
         warn_missing_deps plotly_ok sklearn_ok page = page
         <-> plotly_ok = true /\ sklearn_ok = true)
  /\ (forall importable page,
         warn_missing_deps (check_plotly importable) (check_sklearn importable)
           page = page
         <-> importable "plotly.graph_objects" = true
             /\ importable "plotly.express" = true
             /\ importable "sklearn" = true).
Proof.
  assert (A : forall plotly_ok sklearn_ok page,
             warn_missing_deps plotly_ok sklearn_ok page
             = page ++ (if sklearn_ok then [] else [warning msg_sklearn])
                    ++ (if plotly_ok then [] else [info msg_plotly])).
  { intros [] [] page; unfold warn_missing_deps; cbn [negb List.app];
      rewrite ?app_nil_r, <- ?app_assoc; reflexivity. }
  assert (B : forall plotly_ok sklearn_ok page,
             warn_missing_deps plotly_ok sklearn_ok page = page
             <-> plotly_ok = true /\ sklearn_ok = true).
  { intros p s page. rewrite A. split.
    - intros H. rewrite <- (app_nil_r page) in H at 2.
      apply app_inv_head in H. destruct p, s; try discriminate H.
      split; reflexivity.
    - intros [-> ->]. apply app_nil_r. }
  split; [exact A|]. split; [exact B|].
  intros importable page. rewrite B. unfold check_plotly, check_sklearn.
  destruct (importable "plotly.graph_objects"), (importable "plotly.express"),
    (importable "sklearn"); intuition congruence.
Qed.

End DepsFacts.

(** ** Calling a tab *)

Module TabRunnerFacts.

Import TabRunner.
Local Open Scope list_scope.

Section Passed.

Context {V : Type}.

Definition var_keyword (sig : signature) : bool :=
  existsb (fun p => kind_eqb (snd p) VAR_KEYWORD) sig.

Lemma mem_In (k : string) (l : list string) : mem k l = true <-> In k l.
Proof.
  unfold mem. rewrite existsb_exists. split.
  - intros (x & H & E). apply String.eqb_eq in E. subst x. exact H.
  - intros H. exists k. split; [exact H|apply String.eqb_refl].
Qed.

Lemma safe_render_called (m : tab_module) (sig : signature)
    (kwargs : list (string * V)) :
  render m = Some sig ->
  safe_render m kwargs
  = Called sig (if var_keyword sig then kwargs
                else filter (fun kv => mem (fst kv) (map fst sig)) kwargs).
Proof.
  intros H. unfold safe_render, var_keyword. rewrite H.
  destruct (existsb _ sig); reflexivity.
Qed.

(** X25.  Without a [render] attribute [safe_render] raises [AttributeError]
    naming the module and calls nothing.  With one it calls it once, with
    every keyword argument when the signature has a variadic keyword
    parameter and otherwise with exactly the arguments whose key is a
    parameter name, values and order unchanged. *)
Theorem safe_render_passes (m : tab_module) (kwargs : list (string * V)) :
  match render m with
  | None =>
      safe_render m kwargs
      = AttributeError
          ("Tab module '" ++ __name__ m ++ "' has no render() function.")%string
  | Some sig =>
      exists passed,
        safe_render m kwargs = Called sig passed
        /\ (var_keyword sig = true -> passed = kwargs)
        /\ (exists keep, passed = filter keep kwargs)
        /\ (forall k v, In (k, v) passed
                        <-> In (k, v) kwargs
                            /\ (var_keyword sig = true \/ In k (map fst sig)))
  end.
Proof.
  destruct (render m) as [sig|] eqn:E.
  - rewrite (safe_render_called m sig kwargs E).
    destruct (var_keyword sig) eqn:Ev.
    + exists kwargs. split; [reflexivity|]. split; [reflexivity|]. split.
      * exists (fun _ => true). symmetry. apply StateFacts.filter_all.
        apply forallb_forall. reflexivity.
      * intros k v. tauto.
    + eexists. split; [reflexivity|]. split; [discriminate|]. split.
      * eexists. reflexivity.
      * intros k v. rewrite filter_In. cbn [fst]. rewrite mem_In.
        split; intros [H1 H2]; (split; [exact H1|]);
          [right; exact H2|destruct H2 as [H2|H2]; [discriminate|exact H2]].
  - unfold safe_render. rewrite E. reflexivity.
Qed.

Lemma accepts_var_keyword (sig : signature) (k : string) :
  var_keyword sig = true -> accepts sig k = true.
Proof. intros H. unfold accepts. fold (var_keyword sig). rewrite H. apply orb_true_r. Qed.

(** X26.  When every parameter of [render] can be passed by keyword (or is
    the variadic keyword parameter), each argument [safe_render] passes is
    accepted by the call: it never fails with an unexpected keyword argument.
    A parameter that cannot be passed by keyword (positional-only or
    variadic positional) is not protected: if the signature has no variadic
    keyword parameter, a keyword argument of that name is passed on and the
    call rejects it. *)
Theorem safe_render_accepted (m : tab_module) (sig : signature)
    (kwargs : list (string * V)) :
  render m = Some sig ->
  exists passed,
    safe_render m kwargs = Called sig passed
    /\ ((forall p, In p sig ->
                   by_keyword (snd p) = true \/ snd p = VAR_KEYWORD) ->
        forall k v, In (k, v) passed -> accepts sig k = true)
    /\ (forall k v kd,
           var_keyword sig = false ->
           NoDup (map fst sig) ->
           In (k, kd) sig -> by_keyword kd = false ->
           In (k, v) kwargs ->
           In (k, v) passed /\ accepts sig k = false).
Proof.
  intros E. rewrite (safe_render_called m sig kwargs E).
  eexists. split; [reflexivity|]. split.
  - intros Hs k v H. destruct (var_keyword sig) eqn:Ev.
    + apply accepts_var_keyword. exact Ev.
    + apply filter_In in H. destruct H as [_ H]. cbn [fst] in H.
      apply mem_In in H. apply in_map_iff in H.
      destruct H as ([k' kd] & Hk & Hp). cbn [fst] in Hk. subst k'.
      destruct (Hs _ Hp) as [B|B]; cbn [snd] in B.
      * unfold accepts. apply orb_true_iff. left.
        apply existsb_exists. exists (k, kd). split; [exact Hp|].
        cbn [fst snd]. rewrite String.eqb_refl, B. reflexivity.
      * subst kd. unfold var_keyword in Ev.
        assert (X : existsb (fun p => kind_eqb (snd p) VAR_KEYWORD) sig = true).
        { apply existsb_exists. exists (k, VAR_KEYWORD).
          split; [exact Hp|reflexivity]. }
        congruence.
  - intros k v kd Ev Hn Hp Hb Hk. rewrite Ev. split.
    + apply filter_In. split; [exact Hk|]. cbn [fst]. apply mem_In.
      apply in_map_iff. exists (k, kd). split; [reflexivity|exact Hp].
    + unfold accepts. fold (var_keyword sig). rewrite Ev, orb_false_r.
      apply not_true_is_false. intros X.
      apply existsb_exists in X. destruct X as ([k' kd'] & Hp' & X).
      cbn [fst snd] in X. apply andb_true_iff in X. destruct X as [X1 X2].
      apply String.eqb_eq in X1. subst k'.
      assert (kd' = kd).
      { clear - Hn Hp Hp'. induction sig as [|[k0 kd0] sig IH];
          [contradiction|].
        cbn [map fst] in Hn. apply NoDup_cons_iff in Hn.
        destruct Hn as [Hn1 Hn2].
        destruct Hp as [Hp|Hp], Hp' as [Hp'|Hp'].
        - congruence.
        - injection Hp as -> ->. destruct Hn1.
          apply in_map_iff. exists (k, kd'). split; [reflexivity|exact Hp'].
        - injection Hp' as -> ->. destruct Hn1.
          apply in_map_iff. exists (k, kd). split; [reflexivity|exact Hp].
        - apply IH; assumption. }
      subst kd'. congruence.
Qed.

End Passed.

Lemma safe_render_accepted_witness :
  exists passed,
    safe_render {| __name__ := "tabs.home";
                   render := Some [("plotly_ok", POSITIONAL_OR_KEYWORD)] |}
                [("plotly_ok", true); ("sklearn_ok", true)]
    = Called [("plotly_ok", POSITIONAL_OR_KEYWORD)] passed
    /\ forall k v, In (k, v) passed ->
                   accepts [("plotly_ok", POSITIONAL_OR_KEYWORD)] k = true.
Proof.
  destruct (safe_render_accepted
              {| __name__ := "tabs.home";
                 render := Some [("plotly_ok", POSITIONAL_OR_KEYWORD)] |}
              [("plotly_ok", POSITIONAL_OR_KEYWORD)]
              [("plotly_ok", true); ("sklearn_ok", true)] eq_refl)
    as (passed & E & A & _).
  exists passed. split; [exact E|]. apply A.
  intros p [<-|[]]. left. reflexivity.
Defined.

End TabRunnerFacts.
